(** * fnodes image-scale nodes: a shallow embedding of [image_scale.py]

    The nodes of [image_scale.py] are embedded as Rocq functions.  Python
    floats are IEEE-754 binary64 values, modelled with the executable
    [SpecFloat] operations of the standard library; Python exceptions are
    the [Raise] results of a small error monad; numpy arrays are nested
    lists; the preset dictionary is a [gmap]. *)

From Stdlib Require Import ZArith QArith Qminmax Qpower Qround Lia Lqa SpecFloat.
From stdpp Require Import base option list gmap strings.

Open Scope Z_scope.

(** ** Python values: exceptions, floats, integer/float arithmetic *)

Module Py.

Inductive exn : Set :=
| ZeroDivisionError
| OverflowError
| ValueError
| IndexError.

Inductive res (A : Type) : Type :=
| Ok (a : A)
| Raise (e : exn).

Arguments Ok {A} a.
Arguments Raise {A} e.

#[global] Instance res_ret : MRet res := @Ok.

#[global] Instance res_bind : MBind res :=
  λ A B f m, match m with Ok a => f a | Raise e => Raise e end.

(** binary64 *)
Definition prec : Z := 53.
Definition emax : Z := 1024.

Abbreviation float := spec_float.

Definition float_mul : float -> float -> float := SFmul prec emax.
Definition float_add : float -> float -> float := SFadd prec emax.
Definition float_sub : float -> float -> float := SFsub prec emax.
Definition float_abs : float -> float := SFabs.

Definition is_zero (x : float) : bool :=
  match x with S754_zero _ => true | _ => false end.

(** [float(n)] for a Python int: correctly rounded, [OverflowError] when
    the magnitude does not fit a double. *)
Definition int_to_float (n : Z) : res float :=
  match binary_normalize prec emax n 0 false with
  | S754_infinity _ => Raise OverflowError
  | x => Ok x
  end.

(** The exact integer as an (unrounded) operand of a correctly rounded
    operation. *)
Definition exact_int (n : Z) : float :=
  match n with
  | Z0 => S754_zero false
  | Zpos p => S754_finite false p 0
  | Zneg p => S754_finite true p 0
  end.

(** [a / b] on Python ints (true division): the correctly rounded
    quotient of the two integers. *)
Definition int_truediv (a b : Z) : res float :=
  if b =? 0 then Raise ZeroDivisionError
  else match SFdiv prec emax (exact_int a) (exact_int b) with
       | S754_infinity _ => Raise OverflowError
       | x => Ok x
       end.

(** [x / y] on Python floats. *)
Definition float_truediv (x y : float) : res float :=
  if is_zero y then Raise ZeroDivisionError else Ok (SFdiv prec emax x y).

(** [n / y] and [n * y] with [n] an int and [y] a float: the int is
    converted first. *)
Definition int_div_float (n : Z) (y : float) : res float :=
  x ← int_to_float n; float_truediv x y.

Definition int_mul_float (n : Z) (y : float) : res float :=
  x ← int_to_float n; Ok (float_mul x y).

(** [math.sqrt]: the IEEE square root; a negative argument is a domain
    error, a NaN argument is returned. *)
Definition math_sqrt (x : float) : res float :=
  match x with
  | S754_nan => Ok S754_nan
  | _ => match SFsqrt prec emax x with
         | S754_nan => Raise ValueError
         | y => Ok y
         end
  end.

(** The integer nearest to [m * 2^e], ties going to the even one. *)
Definition round_half_even_pos (m : positive) (e : Z) : Z :=
  match e with
  | Zneg p =>
      let d := Z.shiftl 1 (Zpos p) in
      let q := Zpos m / d in
      let r := Zpos m mod d in
      match 2 * r ?= d with
      | Lt => q
      | Gt => q + 1
      | Eq => if Z.even q then q else q + 1
      end
  | _ => Z.shiftl (Zpos m) e
  end.

(** [round(x)] with one argument: an int, ties to even. *)
Definition round (x : float) : res Z :=
  match x with
  | S754_zero _ => Ok 0
  | S754_finite s m e => Ok (cond_Zopp s (round_half_even_pos m e))
  | S754_infinity _ => Raise OverflowError
  | S754_nan => Raise ValueError
  end.

(** [int(x)]: truncation toward zero. *)
Definition trunc_pos (m : positive) (e : Z) : Z :=
  match e with
  | Zneg p => Zpos m / Z.shiftl 1 (Zpos p)
  | _ => Z.shiftl (Zpos m) e
  end.

Definition int (x : float) : res Z :=
  match x with
  | S754_zero _ => Ok 0
  | S754_finite s m e => Ok (cond_Zopp s (trunc_pos m e))
  | S754_infinity _ => Raise OverflowError
  | S754_nan => Raise ValueError
  end.

(** [seq[i]] for a non-negative index. *)
Definition getitem {A : Type} (l : list A) (i : nat) : res A :=
  match l !! i with
  | Some x => Ok x
  | None => Raise IndexError
  end.

(** Float literals used in examples: [of_ratio n d] is the double nearest
    to [n / d]. *)
Definition of_ratio (n d : Z) : float :=
  SFdiv prec emax (exact_int n) (exact_int d).

End Py.

Import Py.

(** ** [utils.make_even] *)

(** Modelled from the spec: [make_even] is defined in [utils/utils.py],
    outside [image_scale.py].  The spec says every dimension it is applied
    to is "rounded down to the nearest even integer". *)
Definition make_even (n : Z) : Z := n - n mod 2.

(** ** Tensor shapes *)

(** The shape of a host image tensor: (batch, height, width, channels). *)
Definition shape4 : Type := Z * Z * Z * Z.

Definition shape_0 (s : shape4) : Z := let '(a, _, _, _) := s in a.
Definition shape_1 (s : shape4) : Z := let '(_, b, _, _) := s in b.
Definition shape_2 (s : shape4) : Z := let '(_, _, c, _) := s in c.
Definition shape_3 (s : shape4) : Z := let '(_, _, _, d) := s in d.

(** [t.movedim(-1, 1)] on the shape. *)
Definition movedim_last_to_1 (s : shape4) : shape4 :=
  let '(b, h, w, c) := s in (b, c, h, w).

(** ** The dimension planners

    Each [execute] below is the arithmetic of the node: its argument is
    the shape of the image tensor, its result the integers the node
    returns.  The resampled pixels come from [comfy.utils.common_upscale],
    an external routine that is handed the planned width and height. *)

Module BaseImageScaler.

(** The [width], [height], [min_dimension] outputs of [prepare_result]. *)
Definition prepare_result (width height : Z) : Z * Z * Z :=
  (width, height, Z.min width height).

End BaseImageScaler.

Module ImageScalerForSDModels.

Definition sd_dimensions : gmap string (Z * Z) :=
  {[ "sd15" := (512, 512); "sd15+" := (512, 768);
     "sdxl" := (1024, 1024); "sdxl+" := (1024, 1280) ]}.

Definition target (sd_model_type : string) : Z * Z :=
  default (1024, 1024) (sd_dimensions !! sd_model_type).

Definition execute (image : shape4) (sd_model_type : string) : res (Z * Z * Z) :=
  let '(target_width, target_height) := target sd_model_type in
  let total_pixels := target_width * target_height in
  q ← int_truediv total_pixels (shape_2 image * shape_1 image);
  scale_by ← math_sqrt q;
  fw ← int_mul_float (shape_2 image) scale_by;
  width ← round fw;
  fh ← int_mul_float (shape_1 image) scale_by;
  height ← round fh;
  Ok (BaseImageScaler.prepare_result width height).

End ImageScalerForSDModels.

Module ImageScaleBySpecifiedSide.

Definition reference_side_length (image : shape4) (shorter : bool) : Z :=
  if shorter then Z.min (shape_2 image) (shape_1 image)
  else Z.max (shape_2 image) (shape_1 image).

Definition execute (image : shape4) (size : Z) (shorter : bool) : res (Z * Z * Z) :=
  scale_by ← int_truediv (reference_side_length image shorter) size;
  fw ← int_div_float (shape_2 image) scale_by;
  rw ← round fw;
  let width := make_even rw in
  fh ← int_div_float (shape_1 image) scale_by;
  rh ← round fh;
  let height := make_even rh in
  Ok (BaseImageScaler.prepare_result width height).

End ImageScaleBySpecifiedSide.

Module ComputeImageScaleRatio.

Definition execute (image : shape4) (target_max_size : Z) : res (float * Z * Z) :=
  let samples := movedim_last_to_1 image in
  let width := shape_3 samples in
  let height := shape_2 samples in
  rescale_ratio ← int_truediv target_max_size (Z.max width height);
  fw ← int_mul_float width rescale_ratio;
  rw ← round fw;
  let new_width := make_even rw in
  fh ← int_mul_float height rescale_ratio;
  rh ← round fh;
  let new_height := make_even rh in
  Ok (rescale_ratio, new_width, new_height).

End ComputeImageScaleRatio.

(** ** numpy arrays and the image libraries *)

(** A [uint8] image array of shape (h, w, c): rows of pixels, a pixel
    being its channel values. *)
Abbreviation pixel := (list Z).
Abbreviation ndarray := (list (list pixel)).

(** A [float32] array of shape (h, w). *)
Abbreviation mask_array := (list (list float)).

Module np.

Definition height {A : Type} (a : list (list A)) : nat := length a.

Definition width {A : Type} (a : list (list A)) : nat :=
  length (default [] (head a)).

Definition channels (a : ndarray) : nat :=
  length (default [] (head (default [] (head a)))).

(** [a.shape] of an image array *)
Definition shape (a : ndarray) : Z * Z * Z :=
  (Z.of_nat (height a), Z.of_nat (width a), Z.of_nat (channels a)).

(** [np.full((h, w, c), fill, dtype=np.uint8)]: the fill value is a list
    and is broadcast along the last axis, which succeeds when it has [c]
    elements (or one); its entries are cast to [uint8], wrapping. *)
Definition full (h w c : Z) (fill : list Z) : res ndarray :=
  if (h <? 0) || (w <? 0) || (c <? 0) then Raise ValueError
  else
    let px := (λ v, v mod 256) <$> fill in
    if Z.of_nat (length fill) =? c
    then Ok (replicate (Z.to_nat h) (replicate (Z.to_nat w) px))
    else match px with
         | [v] => Ok (replicate (Z.to_nat h)
                        (replicate (Z.to_nat w) (replicate (Z.to_nat c) v)))
         | _ => Raise ValueError
         end.

(** 1.0 and 0.0 in [float32] *)
Definition f32_one : float := binary_normalize 24 128 1 0 false.
Definition f32_zero : float := S754_zero false.

(** [np.ones((h, w), dtype=np.float32)] *)
Definition ones (h w : Z) : res mask_array :=
  if (h <? 0) || (w <? 0) then Raise ValueError
  else Ok (replicate (Z.to_nat h) (replicate (Z.to_nat w) f32_one)).

(** [dst[start : start + len(src)] = src] for a slice inside [dst] *)
Definition set_slice {A : Type} (start : nat) (src dst : list A) : list A :=
  take start dst ++ src ++ drop (start + length src) dst.

(** [dst[top : top + h, left : left + w] = src] for [src] of shape (h, w, ..)
    and a block inside [dst] *)
Definition set_block {A : Type} (top left : nat) (src dst : list (list A))
  : list (list A) :=
  take top dst
  ++ zip_with (set_slice left) src (take (length src) (drop top dst))
  ++ drop (top + length src) dst.

(** [a[top : top + h, left : left + w]] *)
Definition get_block {A : Type} (top left h w : nat) (a : list (list A))
  : list (list A) :=
  (λ row, take w (drop left row)) <$> take h (drop top a).

(** [a[i, j]] *)
Definition at2 {A : Type} (a : list (list A)) (i j : nat) : option A :=
  row ← a !! i; row !! j.

End np.

(** Pillow, on 8-bit images.  An RGB image is the array it was made from
    ([Image.fromarray] and [np.array] do not change the samples); a
    single-band image is a grid of integers. *)
Module PIL.

(** [img.convert('L')]: every pixel is replaced by its luminance. *)
Definition convert_L (luma : pixel -> Z) (img : ndarray) : list (list Z) :=
  (λ row : list pixel, luma <$> row) <$> img.

(** [img.point(f)] on a single-band image *)
Definition point (f : Z -> Z) (img : list (list Z)) : list (list Z) :=
  (λ row : list Z, f <$> row) <$> img.

(** The least index [i] with [start <= i < start + count] and [p i]. *)
Fixpoint find_from (p : nat -> bool) (start count : nat) : option nat :=
  match count with
  | O => None
  | S count' => if p start then Some start else find_from p (S start) count'
  end.

(** The greatest index [i < n] with [p i]. *)
Fixpoint find_last (p : nat -> bool) (n : nat) : option nat :=
  match n with
  | O => None
  | S m => if p m then Some m else find_last p m
  end.

Definition nonzero (v : Z) : bool := negb (v =? 0).

Definition row_nonzero (img : list (list Z)) (i : nat) : bool :=
  existsb nonzero (default [] (img !! i)).

Definition col_nonzero (img : list (list Z)) (j : nat) : bool :=
  existsb (λ row, nonzero (default 0 (row !! j))) img.

(** [img.getbbox()]: the bounding box (left, upper, right, lower) of the
    non-zero samples, right and lower being exclusive; [None] when every
    sample is zero. *)
Definition getbbox (img : list (list Z)) : option (nat * nat * nat * nat) :=
  let h := np.height img in
  let w := np.width img in
  match find_from (row_nonzero img) 0 h, find_last (row_nonzero img) h,
        find_from (col_nonzero img) 0 w, find_last (col_nonzero img) w with
  | Some upper, Some lower, Some lft, Some rgt =>
      Some (lft, upper, S rgt, S lower)
  | _, _, _, _ => None
  end.

(** [img.crop(box)] for a box inside the image *)
Definition crop {A : Type} (img : list (list A)) (box : nat * nat * nat * nat)
  : list (list A) :=
  let '(lft, upper, rgt, lower) := box in
  np.get_block upper lft (lower - upper)%nat (rgt - lft)%nat img.

End PIL.

(** OpenCV: the 2x3 affine matrix and the interpolation flags. *)
Module cv2.

Record mat23 : Type := Mat23 {
  m00 : float; m01 : float; m02 : float;
  m10 : float; m11 : float; m12 : float
}.

Inductive interpolation : Set :=
| INTER_NEAREST
| INTER_LINEAR
| INTER_CUBIC
| INTER_AREA
| INTER_LANCZOS4.

End cv2.

(** ** The array nodes

    The tensor/array converters [tensor2np] and [np2tensor] of
    [utils/image_convert.py] and the OpenCV routines are parameters. *)

Module ImageRotate.
Section node.
Context {tensor : Type}.
Context (tensor2np : tensor -> ndarray) (np2tensor : ndarray -> tensor).
Context (getRotationMatrix2D : float * float -> float -> float -> cv2.mat23).
Context (warpAffine :
  ndarray -> cv2.mat23 -> Z * Z -> cv2.interpolation -> ndarray).

Definition one : float := binary_normalize prec emax 1 0 false.

(** The canvas size computed when [expand] is set *)
Definition expanded_size (height width : Z) (rot_mat : cv2.mat23) : res (Z * Z) :=
  let abs_cos := float_abs (cv2.m00 rot_mat) in
  let abs_sin := float_abs (cv2.m01 rot_mat) in
  hs ← int_mul_float height abs_sin;
  wc ← int_mul_float width abs_cos;
  new_width ← int (float_add hs wc);
  hc ← int_mul_float height abs_cos;
  ws ← int_mul_float width abs_sin;
  new_height ← int (float_add hc ws);
  Ok (new_width, new_height).

(** [rot_mat[0, 2] += dx; rot_mat[1, 2] += dy] *)
Definition translate (rot_mat : cv2.mat23) (dx dy : float) : cv2.mat23 :=
  cv2.Mat23 (cv2.m00 rot_mat) (cv2.m01 rot_mat) (float_add (cv2.m02 rot_mat) dx)
            (cv2.m10 rot_mat) (cv2.m11 rot_mat) (float_add (cv2.m12 rot_mat) dy).

Definition run (image_from : list tensor) (angle : float) (expand : bool)
  : res (list tensor) :=
  t ← getitem image_from 0;
  let image_np := tensor2np t in
  let '(height, width, _) := np.shape image_np in
  cx ← int_truediv width 2;
  cy ← int_truediv height 2;
  let center := (cx, cy) in
  if expand then
    let rot_mat := getRotationMatrix2D center angle one in
    '(new_width, new_height) ← expanded_size height width rot_mat;
    half_w ← int_truediv new_width 2;
    half_h ← int_truediv new_height 2;
    let rot_mat := translate rot_mat (float_sub half_w cx) (float_sub half_h cy) in
    let rotated_image :=
      warpAffine image_np rot_mat (new_width, new_height) cv2.INTER_CUBIC in
    Ok [np2tensor rotated_image]
  else
    let rot_mat := getRotationMatrix2D center angle one in
    let rotated_image :=
      warpAffine image_np rot_mat (width, height) cv2.INTER_CUBIC in
    Ok [np2tensor rotated_image].

End node.
End ImageRotate.

Module TrimImageBorders.
Section node.
Context {tensor : Type}.
Context (tensor2np : tensor -> ndarray) (np2tensor : ndarray -> tensor).
Context (luma : pixel -> Z).

Definition binarize (threshold : Z) (x : Z) : Z :=
  if x >? threshold then 255 else 0.

Definition run (image : list tensor) (threshold : Z) : res (list tensor) :=
  t ← getitem image 0;
  let img := tensor2np t in
  let gray_image := PIL.convert_L luma img in
  let binary_image := PIL.point (binarize threshold) gray_image in
  let bbox := PIL.getbbox binary_image in
  let cropped_image :=
    match bbox with
    | Some box => PIL.crop img box
    | None => img
    end in
  Ok [np2tensor cropped_image].

End node.
End TrimImageBorders.

Module AddImageBorder.
Section node.
Context {tensor : Type}.
Context (tensor2np : tensor -> ndarray) (np2tensor : ndarray -> tensor).

Definition add_border (image : list tensor) (border_width : Z)
    (border_ratio : float) (r g b : Z)
  : res (list tensor * list mask_array) :=
  t ← getitem image 0;
  let img_np := tensor2np t in
  let '(h, w, c) := np.shape img_np in
  x ← int_mul_float (Z.min h w) border_ratio;
  ratio_width ← int x;
  let final_border_width := Z.max border_width ratio_width in
  let new_h := h + 2 * final_border_width in
  let new_w := w + 2 * final_border_width in
  bordered_img ← np.full new_h new_w c [b; g; r];
  (* a negative width leaves no block of the image's shape in the canvas:
     numpy rejects the assignment *)
  if final_border_width <? 0 then Raise ValueError else
  let e := Z.to_nat final_border_width in
  let bordered_img := np.set_block e e img_np bordered_img in
  border_mask ← np.ones new_h new_w;
  let zeros := replicate (Z.to_nat h) (replicate (Z.to_nat w) np.f32_zero) in
  let border_mask := np.set_block e e zeros border_mask in
  Ok ([np2tensor bordered_img], [border_mask]).

End node.
End AddImageBorder.

(** * Specification vocabulary

    The predicates and derived notions the properties below are stated
    with, and the data of the examples. *)

(** ** Floats *)

(** The sign bit of [x] is clear, or [x] is a NaN. *)
Definition sign_clear (x : float) : Prop :=
  match x with
  | S754_zero s | S754_infinity s | S754_finite s _ _ => s = false
  | S754_nan => True
  end.

(** A float with a 53-bit mantissa, clear sign and magnitude
    [2^(mag-1) <= x < 2^mag] for some [lo <= mag <= hi]. *)
Definition normal_in (lo hi : Z) (x : float) : Prop :=
  exists m e, x = S754_finite false m e
              /\ Zdigits2 (Z.pos m) = 53 /\ lo <= 53 + e <= hi.

(** A border ratio the node works with: +0.0 or a positive normal double
    below 2 (the declared range is 0.0 to 1.0). *)
Definition ratio_in_range (x : float) : Prop :=
  x = S754_zero false \/ normal_in (-1021) 1 x.

(** The exact value of a finite float *)
Definition float_value (x : float) : option Q :=
  match x with
  | S754_zero _ => Some 0%Q
  | S754_finite s m e =>
      Some (inject_Z (cond_Zopp s (Z.pos m)) * Qpower 2 e)%Q
  | _ => None
  end.

(** The value [m * 2^e] of a mantissa and an exponent. *)
Definition fval (m e : Z) : Q := (inject_Z m * Qpower 2 e)%Q.

(** One unit in the last place of a 53-bit mantissa, relative to the
    mantissa: [2^-52]. *)
Definition ulp_rel : Q := 1 # 4503599627370496.

(** [x] is within one unit in the last place of a double of value [v]. *)
Definition close (v x : Q) : Prop :=
  ((1 - ulp_rel) * v <= x /\ x <= (1 + ulp_rel) * v)%Q.

(** The value of a finite float, 0 for the others. *)
Definition value (x : float) : Q := default 0%Q (float_value x).

(** ** Presets *)

(** The pixel budget of a preset *)
Definition pixels (p : Z * Z) : Z := fst p * snd p.

(** [p] is the pair of a largest preset of the table. *)
Definition largest_preset (p : Z * Z) : Prop :=
  (exists k, ImageScalerForSDModels.sd_dimensions !! k = Some p)
  /\ forall k q, ImageScalerForSDModels.sd_dimensions !! k = Some q ->
                 pixels q <= pixels p.

(** The options the node declares for [sd_model_type]. *)
Definition sd_model_type_options : list string :=
  ["sdxl"; "sd15"; "sd15+"; "sdxl+"].

(** ** Arrays *)

(** [a] has [h] rows of [w] entries each. *)
Definition rect {A : Type} (h w : nat) (a : list (list A)) : Prop :=
  length a = h /\ Forall (λ row, length row = w) a.

(** [a] is an image array of shape (h, w, c). *)
Definition image_array (h w c : nat) (a : ndarray) : Prop :=
  rect h w a /\ Forall (Forall (λ px : pixel, length px = c)) a.

(** The arrays built by [add_border] for a border of [e] pixels: the
    canvas with the image pasted at (e, e), and the mask *)
Definition bordered_array (e : nat) (img : ndarray) (r g b : Z) : ndarray :=
  np.set_block e e img
    (replicate (np.height img + 2 * e)%nat
       (replicate (np.width img + 2 * e)%nat [b mod 256; g mod 256; r mod 256])).

Definition border_mask_array (e h w : nat) : mask_array :=
  np.set_block e e (replicate h (replicate w np.f32_zero))
    (replicate (h + 2 * e)%nat (replicate (w + 2 * e)%nat np.f32_one)).

(** ** Bounding boxes *)

(** Sample (i, j) of a single-band image is non-zero. *)
Definition lit (img : list (list Z)) (i j : nat) : Prop :=
  exists v, np.at2 img i j = Some v /\ v <> 0.

(** A bounding box is inside the image, contains every marked sample
    and is tight: each of its four edges holds a marked sample. *)
Definition tight_box (marked : nat -> nat -> Prop) (h w : nat)
    (box : nat * nat * nat * nat) : Prop :=
  let '(lft, upper, rgt, lower) := box in
  (lft < rgt <= w)%nat /\ (upper < lower <= h)%nat
  /\ (forall i j, marked i j -> (upper <= i < lower)%nat /\ (lft <= j < rgt)%nat)
  /\ (exists j, marked upper j) /\ (exists j, marked (lower - 1)%nat j)
  /\ (exists i, marked i lft) /\ (exists i, marked i (rgt - 1)%nat).

(** The binarized luminance image of [TrimImageBorders.run] *)
Definition binary_image (luma : pixel -> Z) (threshold : Z) (img : ndarray)
  : list (list Z) :=
  PIL.point (TrimImageBorders.binarize threshold) (PIL.convert_L luma img).

(** Pixel (i, j) of [img] has a luminance above the threshold. *)
Definition bright (luma : pixel -> Z) (threshold : Z) (img : ndarray)
    (i j : nat) : Prop :=
  exists px, np.at2 img i j = Some px /\ threshold < luma px.

(** ** Rotation *)

(** int(a * |x| + b * |y|) *)
Definition weighted_abs_sum (a : Z) (x : float) (b : Z) (y : float) : res Z :=
  ax ← int_mul_float a (float_abs x);
  by' ← int_mul_float b (float_abs y);
  int (float_add ax by').

(** The expanded canvas, in the words of the spec:
    new_w = int(h * |sin| + w * |cos|), new_h = int(h * |cos| + w * |sin|). *)
Definition rotated_canvas (h w : Z) (cos_a sin_a : float) : res (Z * Z) :=
  new_w ← weighted_abs_sum h sin_a w cos_a;
  new_h ← weighted_abs_sum h cos_a w sin_a;
  Ok (new_w, new_h).

(** ** Data of the examples *)

(** The luminance of Pillow's RGB to L conversion (ITU-R 601-2 luma in
    16-bit fixed point). *)
Definition luma_601 (px : pixel) : Z :=
  match px with
  | [r; g; b] => (r * 19595 + g * 38470 + b * 7471 + 32768) / 65536
  | _ => 0
  end.

Definition img33 : ndarray :=
  [[[0; 0; 0]; [0; 0; 0]; [0; 0; 0]];
   [[0; 0; 0]; [0; 0; 0]; [200; 200; 200]];
   [[0; 0; 0]; [90; 90; 90]; [0; 0; 0]]].

(** A quarter turn: the double cosine and sine of pi/2 and the matrix
    OpenCV builds from them; a warp that only allocates the canvas. *)
Definition cos_quarter : float := S754_finite false 4967757600021511 (-106).
Definition sin_quarter : float := ImageRotate.one.

Definition quarter_turn (center : float * float) (angle scale : float)
  : cv2.mat23 :=
  let alpha := float_mul scale cos_quarter in
  let beta := float_mul scale sin_quarter in
  let one_minus_alpha := float_sub ImageRotate.one alpha in
  cv2.Mat23 alpha beta
    (float_sub (float_mul one_minus_alpha (fst center))
               (float_mul beta (snd center)))
    (SFopp beta) alpha
    (float_add (float_mul beta (fst center))
               (float_mul one_minus_alpha (snd center))).

Definition blank_warp (src : ndarray) (m : cv2.mat23) (dsize : Z * Z)
    (flags : cv2.interpolation) : ndarray :=
  replicate (Z.to_nat (snd dsize)) (replicate (Z.to_nat (fst dsize)) [0; 0; 0]).

(** A warp that allocates the canvas and writes the translation column
    of the matrix it is given, rounded to integers, into every pixel: the
    output shows which matrix [run] passed. *)
Definition nearest (x : float) : Z :=
  match round x with Ok z => z | Raise _ => 0 end.

Definition translation_warp (src : ndarray) (m : cv2.mat23) (dsize : Z * Z)
    (flags : cv2.interpolation) : ndarray :=
  replicate (Z.to_nat (snd dsize))
    (replicate (Z.to_nat (fst dsize))
       [nearest (cv2.m02 m); nearest (cv2.m12 m)]).

(** Converters between an image of rational samples in [0, 1] and its
    8-bit array: [clip(255 * t, 0, 255)] truncated, and [a / 255]. *)
Definition sample_to_uint8 (q : Q) : Z :=
  Z.max 0 (Z.min 255 (Qfloor (255 * q))).

Definition uint8_to_sample (v : Z) : Q := (inject_Z v / 255)%Q.

Definition quantise (t : list (list (list Q))) : ndarray :=
  List.map (List.map (List.map sample_to_uint8)) t.

Definition dequantise (a : ndarray) : list (list (list Q)) :=
  List.map (List.map (List.map uint8_to_sample)) a.

(** * Properties *)

(** ** The error monad *)

Lemma bind_Ok {A B : Type} (m : res A) (f : A -> res B) (b : B) :
  m ≫= f = Ok b -> exists a, m = Ok a /\ f a = Ok b.
Proof. destruct m as [a|e]; [eauto | discriminate]. Qed.

Lemma bind_Ok_l {A B : Type} (a : A) (f : A -> res B) : Ok a ≫= f = f a.
Proof. reflexivity. Qed.

Ltac inv_bind H :=
  let a := fresh "v" in
  let Ha := fresh "Hv" in
  apply bind_Ok in H; destruct H as (a & Ha & H).

(** ** Signs of float results *)

Lemma binary_round_aux_sign (s : bool) (m e : Z) (l : location) :
  match binary_round_aux prec emax s m e l with
  | S754_zero s' | S754_infinity s' | S754_finite s' _ _ => s' = s
  | S754_nan => True
  end.
Proof.
  unfold binary_round_aux.
  destruct (shr_fexp prec emax m e l) as [mrs' e'].
  destruct (shr_fexp prec emax _ e' loc_Exact) as [mrs'' e''].
  destruct (shr_m mrs''); [reflexivity | | exact I].
  destruct (e'' <=? emax - prec); reflexivity.
Qed.

Lemma float_mul_sign_clear (x y : float) :
  sign_clear x -> sign_clear y -> sign_clear (float_mul x y).
Proof.
  destruct x as [sx|sx| |sx mx ex], y as [sy|sy| |sy my ey]; simpl;
    intros; subst; try done.
  apply (binary_round_aux_sign false).
Qed.

Lemma int_to_float_sign_clear (n : Z) (x : float) :
  0 <= n -> int_to_float n = Ok x -> sign_clear x.
Proof.
  intros Hn. unfold int_to_float.
  assert (sign_clear (binary_normalize prec emax n 0 false)) as Hs.
  { destruct n as [|p|p]; simpl; [done | | lia].
    unfold binary_round.
    destruct (shl_align p 0 _) as [mz ez].
    apply (binary_round_aux_sign false). }
  destruct (binary_normalize prec emax n 0 false); intros [= <-]; exact Hs.
Qed.

Lemma int_mul_float_sign_clear (n : Z) (y x : float) :
  0 <= n -> sign_clear y -> int_mul_float n y = Ok x -> sign_clear x.
Proof.
  intros Hn Hy H. unfold int_mul_float in H. inv_bind H.
  injection H as <-.
  eauto using float_mul_sign_clear, int_to_float_sign_clear.
Qed.

Lemma round_half_even_pos_nonneg (m : positive) (e : Z) :
  0 <= round_half_even_pos m e.
Proof.
  unfold round_half_even_pos. destruct e as [|p|p].
  - apply Z.shiftl_nonneg. lia.
  - apply Z.shiftl_nonneg. lia.
  - assert (0 < Z.shiftl 1 (Z.pos p)) as Hd.
    { rewrite Z.shiftl_1_l. apply Z.pow_pos_nonneg; lia. }
    assert (0 <= Z.pos m / Z.shiftl 1 (Z.pos p)) as Hq
      by (apply Z.div_pos; lia).
    cbv zeta.
    destruct (2 * (Z.pos m mod Z.shiftl 1 (Z.pos p)) ?= Z.shiftl 1 (Z.pos p));
      [destruct (Z.even _)| |]; lia.
Qed.

Lemma float_abs_sign_clear (x : float) : sign_clear (float_abs x).
Proof. by destruct x. Qed.

Lemma float_add_sign_clear (x y : float) :
  sign_clear x -> sign_clear y -> sign_clear (float_add x y).
Proof.
  destruct x as [sx|sx| |sx mx ex], y as [sy|sy| |sy my ey]; simpl;
    intros; subst; try done.
  unfold binary_normalize. simpl.
  unfold binary_round.
  destruct (shl_align _ _ _) as [mz ez].
  apply (binary_round_aux_sign false).
Qed.

Lemma trunc_pos_nonneg (m : positive) (e : Z) : 0 <= trunc_pos m e.
Proof.
  unfold trunc_pos. destruct e as [|p|p].
  - apply Z.shiftl_nonneg. lia.
  - apply Z.shiftl_nonneg. lia.
  - apply Z.div_pos; [lia|]. rewrite Z.shiftl_1_l.
    apply Z.pow_pos_nonneg; lia.
Qed.

Lemma int_nonneg (x : float) (z : Z) : sign_clear x -> int x = Ok z -> 0 <= z.
Proof.
  destruct x as [sx|sx| |sx mx ex]; simpl; intros Hx H; try discriminate.
  - injection H as <-. lia.
  - subst sx. injection H as <-. apply trunc_pos_nonneg.
Qed.

(** ** [make_even] *)

Lemma make_even_even (n : Z) : Z.even (make_even n) = true.
Proof.
  apply Z.even_spec. exists (n / 2). unfold make_even.
  pose proof (Z.div_mod n 2). lia.
Qed.

Lemma make_even_bounds (n : Z) : make_even n <= n < make_even n + 2.
Proof.
  unfold make_even. pose proof (Z.mod_pos_bound n 2). lia.
Qed.

Lemma make_even_nonneg (n : Z) : 0 <= n -> 0 <= make_even n.
Proof.
  unfold make_even. intros Hn.
  pose proof (Z.mod_le n 2). pose proof (Z.mod_pos_bound n 2). lia.
Qed.

(** [make_even n] is the greatest even integer not above [n]. *)
Lemma make_even_greatest (n k : Z) :
  Z.even k = true -> k <= n -> k <= make_even n.
Proof.
  intros [j ->]%Z.even_spec Hk. unfold make_even.
  pose proof (Z.div_mod n 2). pose proof (Z.mod_pos_bound n 2). lia.
Qed.

(** ** Magnitudes of float results *)

Lemma digits2_pos_size (p : positive) : digits2_pos p = Pos.size p.
Proof. induction p; simpl; congruence. Qed.

Lemma Zdigits2_log2 (m : Z) : 0 < m -> Zdigits2 m = Z.log2 m + 1.
Proof.
  destruct m as [|p|p]; [lia | | lia]. intros _. simpl.
  rewrite digits2_pos_size. destruct p; simpl; lia.
Qed.

Lemma Zdigits2_spec (m : Z) :
  0 < m -> 2 ^ (Zdigits2 m - 1) <= m < 2 ^ Zdigits2 m.
Proof.
  intros Hm. rewrite Zdigits2_log2 by done.
  replace (Z.log2 m + 1 - 1) with (Z.log2 m) by lia.
  pose proof (Z.log2_spec m Hm). rewrite Z.add_1_r. lia.
Qed.

Lemma Zdigits2_unique (m k : Z) :
  2 ^ (k - 1) <= m < 2 ^ k -> 0 < k -> Zdigits2 m = k.
Proof.
  intros Hm Hk.
  assert (0 < m) by (pose proof (Z.pow_pos_nonneg 2 (k - 1)); lia).
  rewrite Zdigits2_log2 by done.
  rewrite (Z.log2_unique m (k - 1)); [lia | lia |].
  replace (Z.succ (k - 1)) with k by lia. done.
Qed.

Lemma Zdigits2_pos (m : Z) : 0 < m -> 0 < Zdigits2 m.
Proof. intros. rewrite Zdigits2_log2 by done. pose proof (Z.log2_nonneg m). lia. Qed.

Lemma shr_1_m (mrs : shr_record) :
  0 <= shr_m mrs -> shr_m (shr_1 mrs) = shr_m mrs / 2.
Proof.
  destruct mrs as [m r s]. simpl. intros Hm.
  destruct m as [|p|p]; [done | | lia].
  destruct p as [p|p|]; simpl.
  - rewrite Pos2Z.inj_xI. apply (Z.div_unique _ _ _ 1); lia.
  - rewrite Pos2Z.inj_xO. apply (Z.div_unique _ _ _ 0); lia.
  - done.
Qed.

Lemma shr_m_iter (p : positive) (mrs : shr_record) :
  0 <= shr_m mrs ->
  shr_m (SpecFloat.iter_pos shr_1 p mrs) = shr_m mrs / 2 ^ Z.pos p.
Proof.
  revert mrs. induction p as [p IH|p IH|]; intros mrs Hm; simpl.
  - assert (0 <= shr_m (shr_1 mrs)) as H1.
    { rewrite shr_1_m by done. apply Z.div_pos; lia. }
    assert (0 <= shr_m (SpecFloat.iter_pos shr_1 p (shr_1 mrs))) as H2.
    { rewrite IH by done. apply Z.div_pos; [done|]. apply Z.pow_pos_nonneg; lia. }
    rewrite IH, IH, shr_1_m by done.
    assert (0 < 2 ^ Z.pos p) by (apply Z.pow_pos_nonneg; lia).
    rewrite !Z.div_div by lia.
    f_equal. replace (Z.pos p~1) with (Z.pos p + Z.pos p + 1) by lia.
    rewrite !Z.pow_add_r by lia. change (2 ^ 1) with 2. lia.
  - assert (0 <= shr_m (SpecFloat.iter_pos shr_1 p mrs)) as H2.
    { rewrite IH by done. apply Z.div_pos; [done|]. apply Z.pow_pos_nonneg; lia. }
    rewrite IH, IH by done.
    assert (0 < 2 ^ Z.pos p) by (apply Z.pow_pos_nonneg; lia).
    rewrite !Z.div_div by lia.
    f_equal. replace (Z.pos p~0) with (Z.pos p + Z.pos p) by lia.
    rewrite Z.pow_add_r by lia. done.
  - rewrite shr_1_m by done. done.
Qed.

Lemma shr_m_of_loc (m : Z) (l : location) : shr_m (shr_record_of_loc m l) = m.
Proof. destruct l as [|[]]; done. Qed.

Lemma round_nearest_even_bounds (m : Z) (l : location) :
  m <= round_nearest_even m l <= m + 1.
Proof. destruct l as [|[]]; simpl; [| destruct (Z.even m) | |]; lia. Qed.

(** Shifting a mantissa of at least 53 bits down to 53 bits. *)
Lemma shr_fexp_normal (m e : Z) (l : location) :
  0 < m -> 53 <= Zdigits2 m -> -1021 <= Zdigits2 m + e ->
  exists mrs,
    shr_fexp prec emax m e l = (mrs, Zdigits2 m + e - 53)
    /\ 2 ^ 52 <= shr_m mrs < 2 ^ 53.
Proof.
  intros Hm Hd He.
  pose proof (Zdigits2_spec m Hm) as Hspec.
  unfold shr_fexp, fexp, emin, prec, emax.
  replace (Z.max (Zdigits2 m + e - 53) (3 - 1024 - 53) - e)
    with (Zdigits2 m - 53) by lia.
  destruct (Zdigits2 m - 53) as [|p|p] eqn:Hn; [| |lia].
  - eexists. split.
    + simpl. f_equal. lia.
    + rewrite shr_m_of_loc.
      replace (Zdigits2 m) with 53 in Hspec by lia.
      change (53 - 1) with 52 in Hspec. lia.
  - eexists. split.
    + simpl. f_equal. lia.
    + rewrite shr_m_iter, shr_m_of_loc by (rewrite shr_m_of_loc; lia).
      assert (0 < 2 ^ Z.pos p) by (apply Z.pow_pos_nonneg; lia).
      assert (2 ^ (Zdigits2 m - 1) = 2 ^ Z.pos p * 2 ^ 52) as E1.
      { rewrite <- Z.pow_add_r by lia. f_equal. lia. }
      assert (2 ^ Zdigits2 m = 2 ^ Z.pos p * 2 ^ 53) as E2.
      { rewrite <- Z.pow_add_r by lia. f_equal. lia. }
      split.
      * apply Z.div_le_lower_bound; lia.
      * apply Z.div_lt_upper_bound; lia.
Qed.

Lemma normal_in_weaken (lo hi lo' hi' : Z) (x : float) :
  normal_in lo hi x -> lo' <= lo -> hi <= hi' -> normal_in lo' hi' x.
Proof. intros (m & e & -> & ? & ?) ? ?. exists m, e. repeat split; [done|lia..]. Qed.

Lemma binary_round_aux_normal (mx ex : Z) (lx : location) :
  0 < mx -> 53 <= Zdigits2 mx -> -1021 <= Zdigits2 mx + ex <= 1023 ->
  normal_in (Zdigits2 mx + ex) (Zdigits2 mx + ex + 1)
    (binary_round_aux prec emax false mx ex lx).
Proof.
  intros Hm Hd He.
  destruct (shr_fexp_normal mx ex lx) as (mrs' & E1 & B1); [lia..|].
  unfold binary_round_aux. rewrite E1.
  pose proof (round_nearest_even_bounds (shr_m mrs') (loc_of_shr_record mrs')) as B2.
  set (m1 := round_nearest_even (shr_m mrs') (loc_of_shr_record mrs')) in *.
  assert (Zdigits2 m1 = 53 \/ Zdigits2 m1 = 54) as Hd1.
  { destruct (Z.eq_dec m1 (2 ^ 53)) as [->|Hne]; [right; done|left].
    apply Zdigits2_unique; [change (53 - 1) with 52|]; lia. }
  destruct (shr_fexp_normal m1 (Zdigits2 mx + ex - 53) loc_Exact)
    as (mrs'' & E2 & B3); [lia..|].
  rewrite E2.
  destruct (shr_m mrs'') as [|m|m] eqn:Em; [lia| |lia].
  replace (Zdigits2 m1 + (Zdigits2 mx + ex - 53) - 53 <=? emax - prec)
    with true by (symmetry; apply Z.leb_le; unfold emax, prec; lia).
  eexists _, _. split; [done|]. split.
  - apply Zdigits2_unique; [change (53 - 1) with 52|]; lia.
  - lia.
Qed.

Lemma Zdigits2_le (m k : Z) : 0 < m < 2 ^ k -> Zdigits2 m <= k.
Proof.
  intros [Hm Hk]. rewrite Zdigits2_log2 by done.
  apply Z.log2_lt_pow2 in Hk; lia.
Qed.

Lemma Zdigits2_ge (m k : Z) : 0 < m -> 2 ^ (k - 1) <= m -> k <= Zdigits2 m.
Proof.
  intros Hm Hk. rewrite Zdigits2_log2 by done.
  destruct (Z.le_gt_cases k 0) as [?|?].
  - pose proof (Z.log2_nonneg m). lia.
  - apply Z.log2_le_pow2 in Hk; lia.
Qed.

Lemma Zdigits2_mul_pow2 (m k : Z) :
  0 < m -> 0 <= k -> Zdigits2 (m * 2 ^ k) = Zdigits2 m + k.
Proof.
  intros Hm Hk.
  pose proof (Zdigits2_spec m Hm) as [H1 H2].
  pose proof (Zdigits2_pos m Hm).
  assert (0 < 2 ^ k) by (apply Z.pow_pos_nonneg; lia).
  apply Zdigits2_unique; [|lia].
  replace (Zdigits2 m + k - 1) with (Zdigits2 m - 1 + k) by lia.
  rewrite !Z.pow_add_r by lia. nia.
Qed.

Lemma Pos_iter_xO (d mx : positive) :
  Z.pos (Pos.iter xO mx d) = Z.pos mx * 2 ^ Z.pos d.
Proof.
  induction d as [|d IH] using Pos.peano_ind.
  - simpl. lia.
  - rewrite Pos.iter_succ, Pos2Z.inj_succ, Z.pow_succ_r by lia.
    rewrite Pos2Z.inj_xO, IH. lia.
Qed.

Lemma binary_round_normal (p : positive) :
  Zdigits2 (Z.pos p) <= 1023 ->
  normal_in (Zdigits2 (Z.pos p)) (Zdigits2 (Z.pos p) + 1)
    (binary_round prec emax false p 0).
Proof.
  intros Hd. pose proof (Zdigits2_pos (Z.pos p) eq_refl) as Hd0.
  unfold binary_round, shl_align, fexp, emin, prec, emax.
  change (Z.pos (digits2_pos p)) with (Zdigits2 (Z.pos p)).
  replace (Z.max (Zdigits2 (Z.pos p) + 0 - 53) (3 - 1024 - 53) - 0)
    with (Zdigits2 (Z.pos p) - 53) by lia.
  replace (Z.max (Zdigits2 (Z.pos p) + 0 - 53) (3 - 1024 - 53))
    with (Zdigits2 (Z.pos p) - 53) by lia.
  destruct (Zdigits2 (Z.pos p) - 53) as [|d|d] eqn:Hn.
  - eapply normal_in_weaken; [apply binary_round_aux_normal|..]; lia.
  - eapply normal_in_weaken; [apply binary_round_aux_normal|..]; lia.
  - assert (Zdigits2 (Z.pos (Pos.iter xO p d)) = 53) as E.
    { rewrite Pos_iter_xO, Zdigits2_mul_pow2; lia. }
    eapply normal_in_weaken; [apply binary_round_aux_normal|..];
      rewrite ?E; lia.
Qed.

Lemma int_to_float_normal (n k : Z) :
  0 < n < 2 ^ k -> k <= 1022 ->
  exists x, int_to_float n = Ok x /\ normal_in 1 (k + 1) x.
Proof.
  intros Hn Hk. destruct n as [|p|p]; [lia| |lia].
  pose proof (Zdigits2_le (Z.pos p) k Hn).
  pose proof (Zdigits2_pos (Z.pos p) eq_refl).
  destruct (binary_round_normal p) as (m & e & E & Hm & He); [lia|].
  exists (S754_finite false m e). split.
  - unfold int_to_float. simpl. rewrite E. done.
  - exists m, e. repeat split; [done|lia..].
Qed.

Lemma pow2_split (a b : Z) : 0 <= a -> 0 <= b -> 2 ^ (a + b) = 2 ^ a * 2 ^ b.
Proof. intros. apply Z.pow_add_r; lia. Qed.

(** The quotient of two integers whose sizes differ by at least 53 bits. *)
Lemma div_digits (n m : Z) :
  0 < n -> 0 < m -> 53 <= Zdigits2 n - Zdigits2 m ->
  0 < n / m
  /\ Zdigits2 n - Zdigits2 m <= Zdigits2 (n / m) <= Zdigits2 n - Zdigits2 m + 1.
Proof.
  intros Hn Hm Hd.
  pose proof (Zdigits2_spec n Hn) as [Hn1 Hn2].
  pose proof (Zdigits2_spec m Hm) as [Hm1 Hm2].
  pose proof (Zdigits2_pos m Hm) as Hdm.
  set (dn := Zdigits2 n) in *. set (dm := Zdigits2 m) in *.
  assert (0 < 2 ^ (dn - dm - 1)) as Hp by (apply Z.pow_pos_nonneg; lia).
  assert (2 ^ (dn - dm - 1) <= n / m) as Hlo.
  { apply Z.div_le_lower_bound; [done|].
    assert (2 ^ (dn - 1) = 2 ^ dm * 2 ^ (dn - dm - 1)) as E
      by (rewrite <- pow2_split by lia; f_equal; lia).
    nia. }
  assert (n / m < 2 ^ (dn - dm + 1)) as Hhi.
  { apply Z.div_lt_upper_bound; [done|].
    assert (2 ^ dn = 2 ^ (dm - 1) * 2 ^ (dn - dm + 1)) as E
      by (rewrite <- pow2_split by lia; f_equal; lia).
    assert (0 < 2 ^ (dn - dm + 1)) by (apply Z.pow_pos_nonneg; lia). nia. }
  split; [lia|]. split.
  - apply Zdigits2_ge; [lia|]. done.
  - apply Zdigits2_le. lia.
Qed.

Lemma SFdiv_core_normal (m1 e1 m2 e2 : Z) :
  0 < m1 -> 0 < m2 ->
  -1021 <= Zdigits2 m1 + e1 - (Zdigits2 m2 + e2) ->
  exists q e l,
    SFdiv_core_binary prec emax m1 e1 m2 e2 = (q, e, l)
    /\ 0 < q /\ 53 <= Zdigits2 q
    /\ Zdigits2 m1 + e1 - (Zdigits2 m2 + e2) <= Zdigits2 q + e
       <= Zdigits2 m1 + e1 - (Zdigits2 m2 + e2) + 1.
Proof.
  intros H1 H2 HD.
  unfold SFdiv_core_binary, fexp, emin, prec, emax.
  set (d1 := Zdigits2 m1) in *. set (d2 := Zdigits2 m2) in *.
  set (e' := Z.min (Z.max (d1 + e1 - (d2 + e2) - 53) (3 - 1024 - 53)) (e1 - e2)).
  set (s := e1 - e2 - e').
  assert (0 <= s /\ d2 - d1 + 53 <= s) as [Hs0 Hs] by (unfold s, e'; lia).
  set (m' := match s with Z.pos _ => Z.shiftl m1 s | 0 => m1 | Z.neg _ => 0 end).
  assert (m' = m1 * 2 ^ s) as Em'.
  { unfold m'. destruct s as [|p|p] eqn:Es; [simpl; lia| |lia].
    apply Z.shiftl_mul_pow2. lia. }
  assert (0 < m') as Hm'.
  { rewrite Em'. apply Z.mul_pos_pos; [done|]. apply Z.pow_pos_nonneg; lia. }
  assert (Zdigits2 m' = d1 + s) as Ed.
  { rewrite Em'. apply Zdigits2_mul_pow2; lia. }
  destruct (div_digits m' m2) as (Hq & Hq1 & Hq2); [done|done|fold d2; lia|].
  destruct (Z.div_eucl m' m2) as [q r] eqn:Eqr.
  assert (m' / m2 = q) as Eq by (unfold Z.div; rewrite Eqr; done).
  rewrite Eq in *. fold d2 in Hq1, Hq2.
  exists q, e', (new_location m2 r). split; [done|].
  split; [done|]. split; [lia|]. unfold s in *. lia.
Qed.

Lemma SFdiv_normal (x y : float) (lx hx ly hy : Z) :
  normal_in lx hx x -> normal_in ly hy y ->
  -1021 <= lx - hy -> hx - ly <= 1022 ->
  normal_in (lx - hy) (hx - ly + 2) (SFdiv prec emax x y).
Proof.
  intros (mx & ex & -> & Hdx & Hx) (my & ey & -> & Hdy & Hy) Hlo Hhi.
  simpl.
  destruct (SFdiv_core_normal (Z.pos mx) ex (Z.pos my) ey)
    as (q & e & l & E & Hq & Hdq & Hmag); [done|done|lia|].
  rewrite E.
  eapply normal_in_weaken; [apply binary_round_aux_normal|..]; lia.
Qed.

Lemma int_truediv_normal (a b ka kb : Z) :
  0 < a < 2 ^ ka -> 0 < b < 2 ^ kb -> ka <= 1021 -> kb <= 1021 ->
  exists x, int_truediv a b = Ok x /\ normal_in (1 - kb) (ka + 1) x.
Proof.
  intros Ha Hb Hka Hkb.
  destruct a as [|pa|pa]; [lia| |lia]. destruct b as [|pb|pb]; [lia| |lia].
  pose proof (Zdigits2_le _ _ Ha). pose proof (Zdigits2_le _ _ Hb).
  pose proof (Zdigits2_pos (Z.pos pa) eq_refl).
  pose proof (Zdigits2_pos (Z.pos pb) eq_refl).
  destruct (SFdiv_core_normal (Z.pos pa) 0 (Z.pos pb) 0)
    as (q & e & l & E & Hq & Hdq & Hmag); [done|done|lia|].
  destruct (binary_round_aux_normal q e l) as (m & e2 & E2 & Hm & He);
    [lia..|].
  exists (S754_finite false m e2). split.
  - unfold int_truediv. simpl. rewrite E. simpl. rewrite E2. done.
  - exists m, e2. repeat split; [done|lia..].
Qed.

Lemma float_mul_normal (x y : float) (lx hx ly hy : Z) :
  normal_in lx hx x -> normal_in ly hy y ->
  -1021 <= lx + ly - 1 -> hx + hy <= 1023 ->
  normal_in (lx + ly - 1) (hx + hy + 1) (float_mul x y).
Proof.
  intros (mx & ex & -> & Hdx & Hx) (my & ey & -> & Hdy & Hy) Hlo Hhi.
  unfold float_mul. simpl.
  pose proof (Zdigits2_spec (Z.pos mx) eq_refl) as Bx.
  pose proof (Zdigits2_spec (Z.pos my) eq_refl) as By.
  rewrite Hdx in Bx. rewrite Hdy in By.
  change (53 - 1) with 52 in *.
  assert (105 <= Zdigits2 (Z.pos (mx * my)) <= 106) as Hd.
  { rewrite Pos2Z.inj_mul. split.
    - apply Zdigits2_ge; [lia|]. change (2 ^ (105 - 1)) with (2 ^ 52 * 2 ^ 52). nia.
    - apply Zdigits2_le. change (2 ^ 106) with (2 ^ 53 * 2 ^ 53). nia. }
  eapply normal_in_weaken; [apply binary_round_aux_normal|..]; lia.
Qed.

Lemma SFsqrt_normal (x : float) (lx hx : Z) :
  normal_in lx hx x -> -1021 <= lx -> hx <= 1023 ->
  normal_in ((lx + 1) / 2) ((hx + 1) / 2 + 1) (SFsqrt prec emax x).
Proof.
  intros (mx & ex & -> & Hdx & Hx) Hlo Hhi.
  simpl. unfold SFsqrt_core_binary, fexp, emin, prec, emax.
  rewrite Hdx. rewrite !Z.div2_div.
  pose proof (Z.div_mod ex 2 ltac:(lia)) as Hdm.
  pose proof (Z.mod_pos_bound ex 2 ltac:(lia)) as Hmod.
  assert ((53 + ex + 1) / 2 = ex / 2 + 27) as E1.
  { replace (53 + ex + 1) with (ex + 27 * 2) by lia. apply Z.div_add. lia. }
  rewrite E1.
  replace (Z.min (Z.max (ex / 2 + 27 - 53) (3 - 1024 - 53)) (ex / 2))
    with (ex / 2 - 26) by lia.
  set (s := ex - 2 * (ex / 2 - 26)).
  assert (s = 52 \/ s = 53) as Hs by (unfold s; lia).
  set (m' := match s with Z.pos _ => Z.shiftl (Z.pos mx) s | 0 => Z.pos mx | Z.neg _ => 0 end).
  pose proof (Zdigits2_spec (Z.pos mx) eq_refl) as Bx.
  rewrite Hdx in Bx. change (53 - 1) with 52 in Bx.
  assert (2 ^ 104 <= m' < 2 ^ 106) as Bm.
  { unfold m'. destruct Hs as [-> | ->]; rewrite Z.shiftl_mul_pow2 by lia.
    - change (2 ^ 104) with (2 ^ 52 * 2 ^ 52).
      change (2 ^ 106) with (2 ^ 53 * 2 ^ 53). lia.
    - change (2 ^ 104) with (2 ^ 52 * 2 ^ 52).
      change (2 ^ 106) with (2 ^ 53 * 2 ^ 53). lia. }
  pose proof (Z.sqrtrem_spec m' ltac:(lia)) as Hsq.
  destruct (Z.sqrtrem m') as [q r]. destruct Hsq as [Eq Hr].
  assert (2 ^ 52 <= q < 2 ^ 53) as Bq.
  { change (2 ^ 104) with (2 ^ 52 * 2 ^ 52) in Bm.
    change (2 ^ 106) with (2 ^ 53 * 2 ^ 53) in Bm.
    split; [|nia].
    destruct (Z.le_gt_cases (2 ^ 52) q) as [?|Hlt]; [done|].
    assert (q + 1 <= 2 ^ 52) by lia. nia. }
  assert (Zdigits2 q = 53) as Hdq
    by (apply Zdigits2_unique; [change (53 - 1) with 52|]; lia).
  assert ((lx + 1) / 2 <= ex / 2 + 27) as L1.
  { rewrite <- E1. apply Z.div_le_mono; lia. }
  assert (ex / 2 + 27 <= (hx + 1) / 2) as L2.
  { rewrite <- E1. apply Z.div_le_mono; lia. }
  assert (-1021 <= (lx + 1) / 2).
  { apply Z.div_le_lower_bound; lia. }
  assert ((hx + 1) / 2 <= 1022).
  { apply Z.div_le_upper_bound; lia. }
  eapply normal_in_weaken; [apply binary_round_aux_normal|..]; lia.
Qed.

Lemma math_sqrt_normal (x : float) (lx hx : Z) :
  normal_in lx hx x -> -1021 <= lx -> hx <= 1023 ->
  exists y, math_sqrt x = Ok y /\ normal_in ((lx + 1) / 2) ((hx + 1) / 2 + 1) y.
Proof.
  intros Hx Hlo Hhi.
  pose proof (SFsqrt_normal x lx hx Hx Hlo Hhi) as Hy.
  destruct Hx as (mx & ex & -> & _).
  destruct Hy as (my & ey & E & Hy).
  exists (S754_finite false my ey). split.
  - unfold math_sqrt. rewrite E. done.
  - exists my, ey. done.
Qed.

Lemma round_normal (x : float) (lo hi : Z) :
  normal_in lo hi x -> exists z, round x = Ok z /\ 0 <= z.
Proof.
  intros (m & e & -> & _). eexists. split; [done|].
  apply round_half_even_pos_nonneg.
Qed.

Lemma float_truediv_normal (x y : float) (lx hx ly hy : Z) :
  normal_in lx hx x -> normal_in ly hy y ->
  -1021 <= lx - hy -> hx - ly <= 1022 ->
  exists z, float_truediv x y = Ok z /\ normal_in (lx - hy) (hx - ly + 2) z.
Proof.
  intros Hx Hy Hlo Hhi. exists (SFdiv prec emax x y). split.
  - destruct Hy as (my & ey & -> & _). done.
  - by apply SFdiv_normal.
Qed.

(** ** The dimension planners return *)

Lemma target_cases (k : string) :
  ImageScalerForSDModels.target k ∈
    [(512, 512); (512, 768); (1024, 1024); (1024, 1280)].
Proof.
  unfold ImageScalerForSDModels.target.
  destruct (ImageScalerForSDModels.sd_dimensions !! k) as [p|] eqn:E; simpl.
  - unfold ImageScalerForSDModels.sd_dimensions in E.
    repeat (apply lookup_insert_Some in E as [[_ <-]|[_ E]];
            [set_solver|]).
    apply lookup_singleton_Some in E as [_ <-]. set_solver.
  - set_solver.
Qed.

Lemma target_pixels (k : string) (tw th : Z) :
  ImageScalerForSDModels.target k = (tw, th) -> 0 < tw * th < 2 ^ 21.
Proof.
  intros E. pose proof (target_cases k) as H. rewrite E in H.
  change (2 ^ 21) with 2097152.
  repeat (apply elem_of_cons in H as [[= -> ->]|H]; [lia|]).
  by apply elem_of_nil in H.
Qed.

Lemma mul_lt_pow2 (a b : Z) :
  0 < a < 2 ^ 63 -> 0 < b < 2 ^ 63 -> 0 < a * b < 2 ^ 126.
Proof. change (2 ^ 126) with (2 ^ 63 * 2 ^ 63). nia. Qed.

(** The steps of [ImageScalerForSDModels.execute] on an image with
    positive dimensions: none raises. *)
Lemma sd_models_steps (b h w c : Z) (k : string) :
  0 < w < 2 ^ 63 -> 0 < h < 2 ^ 63 ->
  exists q scale_by fw fh width height,
    int_truediv (fst (ImageScalerForSDModels.target k)
                 * snd (ImageScalerForSDModels.target k)) (w * h) = Ok q
    /\ math_sqrt q = Ok scale_by
    /\ int_mul_float w scale_by = Ok fw /\ round fw = Ok width
    /\ int_mul_float h scale_by = Ok fh /\ round fh = Ok height
    /\ 0 <= width /\ 0 <= height
    /\ ImageScalerForSDModels.execute (b, h, w, c) k
       = Ok (width, height, Z.min width height).
Proof.
  intros Hw Hh.
  unfold ImageScalerForSDModels.execute.
  destruct (ImageScalerForSDModels.target k) as [tw th] eqn:Et. simpl.
  pose proof (target_pixels k tw th Et) as Ht.
  pose proof (mul_lt_pow2 w h Hw Hh) as Hwh.
  destruct (int_truediv_normal (tw * th) (w * h) 21 126) as (q & Eq & Nq);
    [done|done|lia|lia|].
  destruct (math_sqrt_normal q _ _ Nq) as (s & Es & Ns); [lia|lia|].
  change ((1 - 126 + 1) / 2) with (-62) in Ns.
  change ((21 + 1 + 1) / 2 + 1) with 12 in Ns.
  destruct (int_to_float_normal w 63 Hw) as (xw & Exw & Nxw); [lia|].
  destruct (int_to_float_normal h 63 Hh) as (xh & Exh & Nxh); [lia|].
  pose proof (float_mul_normal xw s _ _ _ _ Nxw Ns ltac:(lia) ltac:(lia)) as Nfw.
  pose proof (float_mul_normal xh s _ _ _ _ Nxh Ns ltac:(lia) ltac:(lia)) as Nfh.
  destruct (round_normal _ _ _ Nfw) as (rw & Erw & Hrw).
  destruct (round_normal _ _ _ Nfh) as (rh & Erh & Hrh).
  exists q, s, (float_mul xw s), (float_mul xh s), rw, rh.
  unfold int_mul_float. rewrite Eq, Exw, Exh. simpl.
  rewrite Es. simpl. rewrite Erw. simpl. rewrite Erh. simpl.
  done.
Qed.

Lemma reference_side_bounds (b h w c : Z) (shorter : bool) :
  0 < w < 2 ^ 63 -> 0 < h < 2 ^ 63 ->
  0 < ImageScaleBySpecifiedSide.reference_side_length (b, h, w, c) shorter
    < 2 ^ 63.
Proof.
  intros Hw Hh. unfold ImageScaleBySpecifiedSide.reference_side_length.
  simpl. destruct shorter; lia.
Qed.

(** The steps of [ImageScaleBySpecifiedSide.execute] for a positive size
    within the declared bound. *)
Lemma by_side_steps (b h w c size : Z) (shorter : bool) :
  0 < w < 2 ^ 63 -> 0 < h < 2 ^ 63 -> 0 < size <= 99999 ->
  exists scale_by fw fh rw rh,
    int_truediv
      (ImageScaleBySpecifiedSide.reference_side_length (b, h, w, c) shorter)
      size = Ok scale_by
    /\ int_div_float w scale_by = Ok fw /\ round fw = Ok rw
    /\ int_div_float h scale_by = Ok fh /\ round fh = Ok rh
    /\ 0 <= rw /\ 0 <= rh
    /\ ImageScaleBySpecifiedSide.execute (b, h, w, c) size shorter
       = Ok (make_even rw, make_even rh, Z.min (make_even rw) (make_even rh)).
Proof.
  intros Hw Hh Hs.
  pose proof (reference_side_bounds b h w c shorter Hw Hh) as Hr.
  unfold ImageScaleBySpecifiedSide.execute.
  set (reference := ImageScaleBySpecifiedSide.reference_side_length _ _) in *.
  destruct (int_truediv_normal reference size 63 17) as (s & Es & Ns);
    [done|change (2 ^ 17) with 131072; lia|lia|lia|].
  destruct (int_to_float_normal w 63 Hw) as (xw & Exw & Nxw); [lia|].
  destruct (int_to_float_normal h 63 Hh) as (xh & Exh & Nxh); [lia|].
  destruct (float_truediv_normal xw s _ _ _ _ Nxw Ns) as (fw & Efw & Nfw);
    [lia|lia|].
  destruct (float_truediv_normal xh s _ _ _ _ Nxh Ns) as (fh & Efh & Nfh);
    [lia|lia|].
  destruct (round_normal _ _ _ Nfw) as (rw & Erw & Hrw).
  destruct (round_normal _ _ _ Nfh) as (rh & Erh & Hrh).
  exists s, fw, fh, rw, rh.
  unfold int_div_float. simpl. rewrite Es, Exw, Exh. simpl.
  rewrite Efw. simpl. rewrite Erw. simpl. rewrite Efh. simpl.
  rewrite Erh. simpl. done.
Qed.

(** The steps of [ComputeImageScaleRatio.execute] for a target within the
    declared bounds. *)
Lemma scale_ratio_steps (b h w c target_max_size : Z) :
  0 < w < 2 ^ 63 -> 0 < h < 2 ^ 63 -> 0 <= target_max_size <= 99999 ->
  exists rescale_ratio fw fh rw rh,
    int_truediv target_max_size (Z.max w h) = Ok rescale_ratio
    /\ int_mul_float w rescale_ratio = Ok fw /\ round fw = Ok rw
    /\ int_mul_float h rescale_ratio = Ok fh /\ round fh = Ok rh
    /\ 0 <= rw /\ 0 <= rh
    /\ ComputeImageScaleRatio.execute (b, h, w, c) target_max_size
       = Ok (rescale_ratio, make_even rw, make_even rh).
Proof.
  intros Hw Hh Ht.
  unfold ComputeImageScaleRatio.execute. simpl.
  destruct (int_to_float_normal w 63 Hw) as (xw & Exw & Nxw); [lia|].
  destruct (int_to_float_normal h 63 Hh) as (xh & Exh & Nxh); [lia|].
  destruct (Z.eq_dec target_max_size 0) as [->|Hne].
  - exists (S754_zero false), (S754_zero false), (S754_zero false), 0, 0.
    assert (int_truediv 0 (Z.max w h) = Ok (S754_zero false)) as E.
    { unfold int_truediv. destruct (Z.max w h) eqn:Em; [lia| |lia]. done. }
    destruct Nxw as (mw & ew & -> & _). destruct Nxh as (mh & eh & -> & _).
    unfold int_mul_float. rewrite E, Exw, Exh. simpl. done.
  - destruct (int_truediv_normal target_max_size (Z.max w h) 17 63)
      as (s & Es & Ns); [change (2 ^ 17) with 131072; lia|lia|lia|lia|].
    pose proof (float_mul_normal xw s _ _ _ _ Nxw Ns ltac:(lia) ltac:(lia)) as Nfw.
    pose proof (float_mul_normal xh s _ _ _ _ Nxh Ns ltac:(lia) ltac:(lia)) as Nfh.
    destruct (round_normal _ _ _ Nfw) as (rw & Erw & Hrw).
    destruct (round_normal _ _ _ Nfh) as (rh & Erh & Hrh).
    exists s, (float_mul xw s), (float_mul xh s), rw, rh.
    unfold int_mul_float. rewrite Es, Exw, Exh. simpl.
    rewrite Erw. simpl. rewrite Erh. simpl. done.
Qed.

(** ** Claims on the dimension planners *)

Example by_side_1000x500 :
  ImageScaleBySpecifiedSide.execute (1, 500, 1000, 3) 256 true
  = Ok (512, 256, 256).
Proof. vm_compute. reflexivity. Qed.

Example sd_models_800x600 :
  ImageScalerForSDModels.execute (1, 600, 800, 3) "sdxl"
  = Ok (1182, 887, 887).
Proof. vm_compute. reflexivity. Qed.

(** C2.  On an image of positive width and height and a positive requested
    size (within the declared bound 99999), [ImageScaleBySpecifiedSide.execute]
    takes reference = min(width, height) when [shorter] is set and
    max(width, height) otherwise, scale = reference / size, and returns
    round(width / scale) and round(height / scale), each rounded down to
    the nearest even integer; no step raises. *)
Theorem scale_by_specified_side_dimensions (b h w c size : Z) (shorter : bool) :
  0 < w < 2 ^ 63 -> 0 < h < 2 ^ 63 -> 0 < size <= 99999 ->
  let reference := if shorter then Z.min w h else Z.max w h in
  exists scale fw fh rw rh,
    int_truediv reference size = Ok scale
    /\ int_div_float w scale = Ok fw /\ round fw = Ok rw
    /\ int_div_float h scale = Ok fh /\ round fh = Ok rh
    /\ ImageScaleBySpecifiedSide.execute (b, h, w, c) size shorter
       = Ok (make_even rw, make_even rh, Z.min (make_even rw) (make_even rh))
    /\ (Z.even (make_even rw) = true /\ make_even rw <= rw < make_even rw + 2)
    /\ (Z.even (make_even rh) = true /\ make_even rh <= rh < make_even rh + 2).
Proof.
  intros Hw Hh Hs reference.
  destruct (by_side_steps b h w c size shorter Hw Hh Hs)
    as (scale & fw & fh & rw & rh & E1 & E2 & E3 & E4 & E5 & _ & _ & E6).
  exists scale, fw, fh, rw, rh.
  repeat split; auto using make_even_even; apply make_even_bounds.
Qed.

Lemma scale_by_specified_side_dimensions_witness :
  (0 < 1000 < 2 ^ 63 /\ 0 < 500 < 2 ^ 63 /\ 0 < 256 <= 99999)
  /\ ImageScaleBySpecifiedSide.execute (1, 500, 1000, 3) 256 true
     = Ok (512, 256, 256).
Proof.
  split; [lia|].
  destruct (scale_by_specified_side_dimensions 1 500 1000 3 256 true)
    as (scale & fw & fh & rw & rh & E1 & E2 & E3 & E4 & E5 & E6 & _);
    [lia..|].
  vm_compute in E1. injection E1 as <-.
  vm_compute in E2. injection E2 as <-.
  vm_compute in E3. injection E3 as <-.
  vm_compute in E4. injection E4 as <-.
  vm_compute in E5. injection E5 as <-.
  exact E6.
Defined.

(** C3.  On an image of positive width and height and a known preset,
    [ImageScalerForSDModels.execute] reads (target_w, target_h) from the
    four-entry table, takes scale = sqrt((target_w * target_h) /
    (width * height)) and returns round(width * scale) and
    round(height * scale) as they are, without parity adjustment; no step
    raises. *)
Theorem sd_models_dimensions (b h w c tw th : Z) (sd_model_type : string) :
  0 < w < 2 ^ 63 -> 0 < h < 2 ^ 63 ->
  ImageScalerForSDModels.sd_dimensions !! sd_model_type = Some (tw, th) ->
  size ImageScalerForSDModels.sd_dimensions = 4%nat
  /\ exists q scale fw fh width height,
      int_truediv (tw * th) (w * h) = Ok q
      /\ math_sqrt q = Ok scale
      /\ int_mul_float w scale = Ok fw /\ round fw = Ok width
      /\ int_mul_float h scale = Ok fh /\ round fh = Ok height
      /\ ImageScalerForSDModels.execute (b, h, w, c) sd_model_type
         = Ok (width, height, Z.min width height).
Proof.
  intros Hw Hh Ek. split; [done|].
  destruct (sd_models_steps b h w c sd_model_type Hw Hh)
    as (q & s & fw & fh & W & H & E1 & E2 & E3 & E4 & E5 & E6 & _ & _ & E7).
  unfold ImageScalerForSDModels.target in E1. rewrite Ek in E1. simpl in E1.
  exists q, s, fw, fh, W, H. done.
Qed.

Lemma sd_models_dimensions_witness :
  (0 < 800 < 2 ^ 63 /\ 0 < 600 < 2 ^ 63
   /\ ImageScalerForSDModels.sd_dimensions !! "sdxl" = Some (1024, 1024))
  /\ ImageScalerForSDModels.execute (1, 600, 800, 3) "sdxl"
     = Ok (1182, 887, 887).
Proof.
  split; [repeat split; (lia || reflexivity)|].
  destruct (sd_models_dimensions 1 600 800 3 1024 1024 "sdxl")
    as (_ & q & s & fw & fh & W & H & E1 & E2 & E3 & E4 & E5 & E6 & E7);
    [lia|lia|reflexivity|].
  vm_compute in E1. injection E1 as <-.
  vm_compute in E2. injection E2 as <-.
  vm_compute in E3. injection E3 as <-.
  vm_compute in E4. injection E4 as <-.
  vm_compute in E5. injection E5 as <-.
  vm_compute in E6. injection E6 as <-.
  exact E7.
Defined.

(** C4, as stated, fails: with [size] at its declared minimum 0 the
    reference-side planner raises a division by zero and produces no
    width or height at all (and with [target_max_size] 0 the max-dimension
    planner returns 0 by 0). *)
Lemma planned_dimensions_not_always_positive :
  ~ (forall b h w c : Z,
        0 < w -> 0 < h ->
        (forall k, exists width height m,
            ImageScalerForSDModels.execute (b, h, w, c) k
            = Ok (width, height, m)
            /\ 0 < width /\ 0 < height)
        /\ (forall size shorter, 0 <= size <= 99999 ->
            exists width height m,
              ImageScaleBySpecifiedSide.execute (b, h, w, c) size shorter
              = Ok (width, height, m)
              /\ 0 < width /\ 0 < height
              /\ Z.even width = true /\ Z.even height = true)
        /\ (forall t, 0 <= t <= 99999 ->
            exists ratio width height,
              ComputeImageScaleRatio.execute (b, h, w, c) t
              = Ok (ratio, width, height)
              /\ 0 < width /\ 0 < height
              /\ Z.even width = true /\ Z.even height = true)).
Proof.
  intros H.
  destruct (H 1 500 1000 3) as (_ & Hside & _); [lia..|].
  destruct (Hside 0 true) as (W & Ht & m & E & _); [lia|].
  vm_compute in E. discriminate.
Qed.

(** C4, amended.  For every image of positive width and height and every
    size within the declared bounds, the planners return non-negative
    integers (zero included); under the reference-side and max-dimension
    modes the returned width and height are even.  The reference-side
    planner returns for sizes from 1 on, and raises a division by zero
    for size 0. *)
Theorem planned_dimensions_nonneg_even (b h w c : Z) :
  0 < w < 2 ^ 63 -> 0 < h < 2 ^ 63 ->
  (forall k, exists width height m,
      ImageScalerForSDModels.execute (b, h, w, c) k = Ok (width, height, m)
      /\ 0 <= width /\ 0 <= height)
  /\ (forall size shorter, 1 <= size <= 99999 ->
      exists width height m,
        ImageScaleBySpecifiedSide.execute (b, h, w, c) size shorter
        = Ok (width, height, m)
        /\ 0 <= width /\ 0 <= height
        /\ Z.even width = true /\ Z.even height = true)
  /\ (forall shorter,
        ImageScaleBySpecifiedSide.execute (b, h, w, c) 0 shorter
        = Raise ZeroDivisionError)
  /\ (forall t, 0 <= t <= 99999 ->
      exists ratio width height,
        ComputeImageScaleRatio.execute (b, h, w, c) t
        = Ok (ratio, width, height)
        /\ 0 <= width /\ 0 <= height
        /\ Z.even width = true /\ Z.even height = true).
Proof.
  intros Hw Hh. repeat split.
  - intros k.
    destruct (sd_models_steps b h w c k Hw Hh)
      as (q & s & fw & fh & W & H & _ & _ & _ & _ & _ & _ & HW & HH & E).
    eauto 10.
  - intros size shorter Hs.
    destruct (by_side_steps b h w c size shorter Hw Hh)
      as (s & fw & fh & rw & rh & _ & _ & _ & _ & _ & Hrw & Hrh & E); [lia|].
    eexists _, _, _. split; [exact E|].
    auto using make_even_nonneg, make_even_even.
  - intros t Ht.
    destruct (scale_ratio_steps b h w c t Hw Hh Ht)
      as (s & fw & fh & rw & rh & _ & _ & _ & _ & _ & Hrw & Hrh & E).
    eexists _, _, _. split; [exact E|].
    auto using make_even_nonneg, make_even_even.
Qed.

Lemma planned_dimensions_nonneg_even_witness :
  (0 < 1000 < 2 ^ 63 /\ 0 < 500 < 2 ^ 63)
  /\ ComputeImageScaleRatio.execute (1, 500, 1000, 3) 0
     = Ok (S754_zero false, 0, 0)
  /\ exists ratio width height,
      ComputeImageScaleRatio.execute (1, 500, 1000, 3) 1920
      = Ok (ratio, width, height)
      /\ 0 <= width /\ 0 <= height
      /\ Z.even width = true /\ Z.even height = true.
Proof.
  split; [lia|]. split; [vm_compute; reflexivity|].
  apply (planned_dimensions_nonneg_even 1 500 1000 3); lia.
Defined.

(** C5, as stated, fails: the pair used for an unknown preset is
    (1024, 1024), while the largest preset of the table is sdxl+ with
    (1024, 1280). *)
Lemma unknown_preset_not_largest :
  ~ (forall k : string,
        ImageScalerForSDModels.sd_dimensions !! k = None ->
        largest_preset (ImageScalerForSDModels.target k)).
Proof.
  intros H. destruct (H "flux" eq_refl) as [_ Hmax].
  specialize (Hmax "sdxl+" (1024, 1280) eq_refl).
  vm_compute in Hmax. by apply Hmax.
Qed.

Lemma unknown_preset_lookup (k : string) :
  k <> "sd15" -> k <> "sd15+" -> k <> "sdxl" -> k <> "sdxl+" ->
  ImageScalerForSDModels.sd_dimensions !! k = None.
Proof.
  intros. unfold ImageScalerForSDModels.sd_dimensions.
  rewrite !lookup_insert_ne by done. by apply lookup_singleton_ne.
Qed.

(** C5, amended.  For a preset string that is none of the four keys the
    lookup does not fail: it yields (1024, 1024), the pair of the sdxl
    preset, and [execute] behaves as it does for "sdxl"; on an image of
    positive width and height it returns. *)
Theorem unknown_preset_falls_back_to_sdxl (k : string) :
  k <> "sd15" -> k <> "sd15+" -> k <> "sdxl" -> k <> "sdxl+" ->
  ImageScalerForSDModels.target k = (1024, 1024)
  /\ ImageScalerForSDModels.sd_dimensions !! "sdxl" = Some (1024, 1024)
  /\ (forall image,
        ImageScalerForSDModels.execute image k
        = ImageScalerForSDModels.execute image "sdxl")
  /\ (forall b h w c, 0 < w < 2 ^ 63 -> 0 < h < 2 ^ 63 ->
        exists width height m,
          ImageScalerForSDModels.execute (b, h, w, c) k
          = Ok (width, height, m)).
Proof.
  intros H1 H2 H3 H4.
  assert (ImageScalerForSDModels.target k = (1024, 1024)) as Et.
  { unfold ImageScalerForSDModels.target.
    by rewrite unknown_preset_lookup. }
  split; [done|]. split; [done|]. split.
  - intros image. unfold ImageScalerForSDModels.execute. by rewrite Et.
  - intros b h w c Hw Hh.
    destruct (sd_models_steps b h w c k Hw Hh)
      as (q & s & fw & fh & W & H & _ & _ & _ & _ & _ & _ & _ & _ & E).
    eauto.
Qed.

Lemma unknown_preset_falls_back_to_sdxl_witness :
  ("flux" <> "sd15" /\ "flux" <> "sd15+" /\ "flux" <> "sdxl" /\ "flux" <> "sdxl+")
  /\ ImageScalerForSDModels.target "flux" = (1024, 1024).
Proof.
  split; [repeat split; discriminate|].
  apply (unknown_preset_falls_back_to_sdxl "flux"); discriminate.
Defined.

(** ** Arrays: blocks and slices *)

Section slices.
Local Open Scope nat_scope.
Context {A : Type}.
Implicit Types (src dst : list A).

Lemma length_set_slice (start : nat) src dst :
  start + length src <= length dst ->
  length (np.set_slice start src dst) = length dst.
Proof.
  intros H. unfold np.set_slice.
  rewrite !length_app, length_take, length_drop. lia.
Qed.

Lemma lookup_set_slice (start : nat) src dst (j : nat) :
  start + length src <= length dst ->
  np.set_slice start src dst !! j
  = if decide (start <= j < start + length src)
    then src !! (j - start) else dst !! j.
Proof.
  intros H. unfold np.set_slice.
  assert (length (take start dst) = start) as Et
    by (rewrite length_take; lia).
  destruct (decide (start <= j < start + length src)) as [Hin|Hout].
  - rewrite lookup_app_r by lia. rewrite Et.
    rewrite lookup_app_l by lia. done.
  - destruct (decide (j < start)) as [Hlt|Hge].
    + rewrite lookup_app_l by lia. by rewrite lookup_take_lt.
    + rewrite lookup_app_r by lia. rewrite Et.
      rewrite lookup_app_r by lia. rewrite lookup_drop. f_equal. lia.
Qed.
Lemma Forall_set_slice (P : A -> Prop) (start : nat) src dst :
  Forall P src -> Forall P dst -> Forall P (np.set_slice start src dst).
Proof.
  intros Hs Hd. unfold np.set_slice. rewrite !Forall_app.
  split_and!; [by apply Forall_take | done | by apply Forall_drop].
Qed.

End slices.

Section blocks.
Local Open Scope nat_scope.
Context {A : Type}.
Implicit Types (row : list A) (a : list (list A)).

Lemma rect_lookup (h w : nat) a (i : nat) row :
  rect h w a -> a !! i = Some row -> length row = w.
Proof. intros [_ Hall] Hi. by eapply (Forall_lookup_1 _ _ _ _ Hall). Qed.

Lemma rect_replicate (h w : nat) (x : A) : rect h w (replicate h (replicate w x)).
Proof.
  split; [by rewrite length_replicate|].
  apply Forall_replicate. by rewrite length_replicate.
Qed.

Lemma set_block_as_slice (top lft : nat) (src dst : list (list A)) :
  top + length src <= length dst ->
  np.set_block top lft src dst
  = np.set_slice top
      (zip_with (np.set_slice lft) src (take (length src) (drop top dst))) dst.
Proof.
  intros H. unfold np.set_block, np.set_slice.
  rewrite length_zip_with, length_take, length_drop.
  do 3 f_equal. lia.
Qed.

Lemma lookup_set_block_row (top lft : nat) (src dst : list (list A)) (i : nat) :
  top + length src <= length dst ->
  np.set_block top lft src dst !! i
  = if decide (top <= i < top + length src)
    then s ← src !! (i - top); d ← dst !! i; Some (np.set_slice lft s d)
    else dst !! i.
Proof.
  intros H. rewrite set_block_as_slice by done.
  rewrite lookup_set_slice
    by (rewrite length_zip_with, length_take, length_drop; lia).
  rewrite length_zip_with, length_take, length_drop.
  replace (length src `min` (length src `min` (length dst - top)))
    with (length src) by lia.
  destruct (decide (top <= i < top + length src)) as [Hin|Hout]; [|done].
  rewrite lookup_zip_with. rewrite lookup_take_lt by lia.
  rewrite lookup_drop. replace (top + (i - top)) with i by lia. done.
Qed.

Lemma rect_set_block (h w hs ws top lft : nat) (src dst : list (list A)) :
  rect hs ws src -> rect h w dst -> top + hs <= h -> lft + ws <= w ->
  rect h w (np.set_block top lft src dst).
Proof.
  intros [Hs1 Hs2] [Hd1 Hd2] Ht Hl. subst hs h.
  rewrite set_block_as_slice by done. split.
  - rewrite length_set_slice; [done|].
    rewrite length_zip_with, length_take, length_drop. lia.
  - apply Forall_set_slice; [|done].
    apply Forall_zip_with_snd with (P := λ row, length row = w).
    + eapply Forall_impl; [exact Hs2|].
      intros s Es d Ed. simpl in *. rewrite length_set_slice; lia.
    + by apply Forall_take, Forall_drop.
Qed.

Lemma at2_set_block (h w hs ws top lft : nat) (src dst : list (list A)) (i j : nat) :
  rect hs ws src -> rect h w dst -> top + hs <= h -> lft + ws <= w ->
  np.at2 (np.set_block top lft src dst) i j
  = if decide ((top <= i < top + hs) /\ (lft <= j < lft + ws))
    then np.at2 src (i - top) (j - lft)
    else np.at2 dst i j.
Proof.
  intros Hs Hd Ht Hl. unfold np.at2.
  destruct Hs as [Hs1 Hs2], Hd as [Hd1 Hd2]. subst hs h.
  rewrite lookup_set_block_row by done.
  destruct (decide (top <= i < top + length src)) as [Hi|Hi].
  - destruct (lookup_lt_is_Some_2 src (i - top)) as [s Es]; [lia|].
    destruct (lookup_lt_is_Some_2 dst i) as [d Ed]; [lia|].
    rewrite Es, Ed. simpl.
    pose proof (Forall_lookup_1 _ _ _ _ Hs2 Es) as Ls.
    pose proof (Forall_lookup_1 _ _ _ _ Hd2 Ed) as Ld.
    simpl in Ls, Ld.
    rewrite lookup_set_slice by lia. rewrite Ls.
    destruct (decide (lft <= j < lft + ws)) as [Hj|Hj].
    + rewrite decide_True by done. done.
    + rewrite decide_False by tauto. done.
  - rewrite decide_False by tauto. done.
Qed.

Lemma get_block_set_block (h w hs ws top lft : nat) (src dst : list (list A)) :
  rect hs ws src -> rect h w dst -> top + hs <= h -> lft + ws <= w ->
  np.get_block top lft hs ws (np.set_block top lft src dst) = src.
Proof.
  intros Hs Hd Ht Hl.
  destruct Hs as [Hs1 Hs2], Hd as [Hd1 Hd2]. subst hs h.
  apply list_eq. intros i. unfold np.get_block.
  rewrite list_lookup_fmap.
  destruct (decide (i < length src)) as [Hi|Hi].
  - rewrite lookup_take_lt by done. rewrite lookup_drop.
    rewrite lookup_set_block_row by done.
    rewrite decide_True by lia.
    replace (top + i - top) with i by lia.
    destruct (lookup_lt_is_Some_2 src i) as [s Es]; [lia|].
    destruct (lookup_lt_is_Some_2 dst (top + i)) as [d Ed]; [lia|].
    rewrite Es, Ed. simpl. f_equal.
    pose proof (Forall_lookup_1 _ _ _ _ Hs2 Es) as Ls.
    pose proof (Forall_lookup_1 _ _ _ _ Hd2 Ed) as Ld.
    simpl in Ls, Ld. unfold np.set_slice.
    rewrite drop_app_length' by (rewrite length_take; lia).
    rewrite take_app_length' by done. done.
  - rewrite lookup_take_ge by lia. simpl.
    symmetry. apply lookup_ge_None_2. lia.
Qed.

Lemma at2_replicate (h w : nat) (x : A) (i j : nat) :
  i < h -> j < w -> np.at2 (replicate h (replicate w x)) i j = Some x.
Proof.
  intros Hi Hj. unfold np.at2.
  rewrite lookup_replicate_2 by done. simpl. by rewrite lookup_replicate_2.
Qed.

End blocks.

(** ** [AddImageBorder.add_border] *)

Lemma shape_image_array (h w c : nat) (a : ndarray) :
  image_array h w c a -> (0 < h)%nat -> (0 < w)%nat ->
  np.shape a = (Z.of_nat h, Z.of_nat w, Z.of_nat c).
Proof.
  intros [[Hh Hw] Hc] Hh0 Hw0. unfold np.shape, np.height, np.width, np.channels.
  destruct a as [|row a]; simpl in *; [lia|].
  apply Forall_cons_1 in Hw as [Hrow _]. apply Forall_cons_1 in Hc as [Hpx _].
  destruct row as [|px row]; simpl in *; [lia|].
  apply Forall_cons_1 in Hpx as [Hpx _]. by subst.
Qed.

Lemma ratio_width_defined (n : Z) (ratio : float) :
  0 < n < 2 ^ 63 -> ratio_in_range ratio ->
  exists ratio_width,
    int_mul_float n ratio ≫= int = Ok ratio_width /\ 0 <= ratio_width.
Proof.
  intros Hn Hr.
  destruct (int_to_float_normal n 63 Hn) as (x & Ex & Nx); [lia|].
  unfold int_mul_float. rewrite Ex, !bind_Ok_l.
  destruct Hr as [-> | Hr].
  - destruct Nx as (m & e & -> & _). exists 0. done.
  - pose proof (float_mul_normal x ratio _ _ _ _ Nx Hr ltac:(lia) ltac:(lia))
      as (m & e & -> & _).
    exists (trunc_pos m e). split; [done|]. apply trunc_pos_nonneg.
Qed.

Section add_border.
Context {tensor : Type}.
Context (tensor2np : tensor -> ndarray) (np2tensor : ndarray -> tensor).

Lemma add_border_result (t : tensor) (rest : list tensor)
    (border_width : Z) (border_ratio : float) (r g b : Z)
    (h w : nat) (ratio_width : Z) :
  image_array h w 3 (tensor2np t) -> (0 < h)%nat -> (0 < w)%nat ->
  0 <= border_width ->
  int_mul_float (Z.min (Z.of_nat h) (Z.of_nat w)) border_ratio ≫= int
  = Ok ratio_width ->
  let e := Z.to_nat (Z.max border_width ratio_width) in
  AddImageBorder.add_border tensor2np np2tensor (t :: rest)
    border_width border_ratio r g b
  = Ok ([np2tensor (bordered_array e (tensor2np t) r g b)],
        [border_mask_array e h w]).
Proof.
  intros Himg Hh Hw Hbw Hrw e.
  unfold AddImageBorder.add_border.
  change (getitem (t :: rest) 0) with (Ok t). rewrite bind_Ok_l.
  rewrite (shape_image_array h w 3) by done.
  inv_bind Hrw. rewrite Hv, bind_Ok_l, Hrw, bind_Ok_l. cbv zeta.
  set (E := Z.max border_width ratio_width) in *.
  assert (0 <= E) as HE by (unfold E; lia).
  unfold np.full, np.ones.
  replace (Z.of_nat h + 2 * E <? 0) with false by (symmetry; apply Z.ltb_ge; lia).
  replace (Z.of_nat w + 2 * E <? 0) with false by (symmetry; apply Z.ltb_ge; lia).
  replace (E <? 0) with false by (symmetry; apply Z.ltb_ge; lia).
  simpl.
  replace (Z.to_nat (Z.of_nat h + 2 * E)) with (h + 2 * e)%nat by (unfold e; lia).
  replace (Z.to_nat (Z.of_nat w + 2 * E)) with (w + 2 * e)%nat by (unfold e; lia).
  rewrite !Nat2Z.id.
  destruct Himg as [[Hlen Hrows] _].
  unfold bordered_array, border_mask_array, np.height, np.width.
  rewrite Hlen.
  destruct (tensor2np t) as [|row a] eqn:Ea; simpl in *; [lia|].
  apply Forall_cons_1 in Hrows as [-> _]. done.
Qed.


(** C9, amended.  For a non-empty 3-channel image, under the conditions
    of the previous theorem, cropping the bordered array back by the
    effective border width on every side gives the 8-bit array of the
    original image exactly; so a crop of the returned tensor that commutes
    with [np2tensor] gives the image as converted to that array and back,
    which is the original image exactly when the image survives this
    conversion. *)
Theorem add_border_then_crop (t : tensor) (rest : list tensor)
    (border_width : Z) (border_ratio : float) (r g b : Z) (h w : nat) :
  image_array h w 3 (tensor2np t) ->
  0 < Z.of_nat h < 2 ^ 63 -> 0 < Z.of_nat w < 2 ^ 63 ->
  0 <= border_width -> ratio_in_range border_ratio ->
  exists ratio_width bordered mask,
    int_mul_float (Z.min (Z.of_nat h) (Z.of_nat w)) border_ratio ≫= int
    = Ok ratio_width
    /\ let e := Z.to_nat (Z.max border_width ratio_width) in
       AddImageBorder.add_border tensor2np np2tensor (t :: rest)
         border_width border_ratio r g b
       = Ok ([np2tensor bordered], [mask])
       /\ np.get_block e e h w bordered = tensor2np t
       /\ forall crop_tensor : tensor -> tensor,
           (forall a, crop_tensor (np2tensor a)
                      = np2tensor (np.get_block e e h w a)) ->
           crop_tensor (np2tensor bordered) = np2tensor (tensor2np t)
           /\ (np2tensor (tensor2np t) = t ->
               crop_tensor (np2tensor bordered) = t).
Proof.
  intros Himg Hh Hw Hbw Hratio.
  destruct (ratio_width_defined (Z.min (Z.of_nat h) (Z.of_nat w)) border_ratio)
    as (ratio_width & Hrw & Hrw0); [lia|done|].
  exists ratio_width. eexists _, _. split; [exact Hrw|].
  intros e.
  split; [apply (add_border_result _ _ _ _ _ _ _ h w); (done || lia)|].
  fold e. destruct Himg as [Hrect _].
  assert (np.height (tensor2np t) = h) as Eh by apply Hrect.
  assert (np.width (tensor2np t) = w) as Ew.
  { unfold np.width. destruct Hrect as [Hl Hr].
    destruct (tensor2np t) as [|row a]; simpl in *; [lia|].
    by apply Forall_cons_1 in Hr as [-> _]. }
  unfold bordered_array. rewrite Eh, Ew.
  assert (np.get_block e e h w
            (np.set_block e e (tensor2np t)
               (replicate (h + 2 * e)
                  (replicate (w + 2 * e) [b mod 256; g mod 256; r mod 256])))
          = tensor2np t) as Ecrop.
  { apply (get_block_set_block (h + 2 * e) (w + 2 * e));
      [done | apply rect_replicate | lia | lia]. }
  split; [exact Ecrop|].
  intros crop_tensor Hcrop. rewrite Hcrop, Ecrop. split; [done|]. by intros ->.
Qed.

End add_border.


(** C9, as stated, fails.  An image with four channels is rejected, so
    there is nothing to crop; and an image whose samples 8 bits cannot
    hold comes back changed: the mid-grey 1/2 becomes 127/255. *)
Lemma add_border_then_crop_not_exact :
  let rgba : ndarray := [[[10; 20; 30; 255]]] in
  let grey : list (list (list Q)) := [[[1 # 2; 1 # 2; 1 # 2]]] in
  AddImageBorder.add_border id id [rgba] 1 (S754_zero false) 0 0 0
  = Raise ValueError
  /\ exists bordered mask,
      AddImageBorder.add_border quantise dequantise [grey]
        1 (S754_zero false) 0 0 0
      = Ok ([dequantise bordered], [mask])
      /\ np.get_block 1 1 1 1 bordered = quantise grey
      /\ dequantise (np.get_block 1 1 1 1 bordered)
         = [[[127 # 255; 127 # 255; 127 # 255]]]
      /\ dequantise (np.get_block 1 1 1 1 bordered) <> grey.
Proof.
  intros rgba grey. split; [reflexivity|].
  exists (bordered_array 1 (quantise grey) 0 0 0). eexists.
  split; [vm_compute; reflexivity|].
  split; [vm_compute; reflexivity|].
  split; [vm_compute; reflexivity|].
  vm_compute. discriminate.
Qed.


Lemma add_border_then_crop_witness :
  let img : ndarray := [[[1; 2; 3]; [4; 5; 6]]; [[7; 8; 9]; [10; 11; 12]]] in
  let quarter := of_ratio 1 4 in
  (image_array 2 2 3 img
   /\ 0 < Z.of_nat 2 < 2 ^ 63 /\ 0 < Z.of_nat 2 < 2 ^ 63
   /\ 0 <= 1 /\ ratio_in_range quarter)
  /\ exists bordered mask,
      AddImageBorder.add_border id id [img] 1 quarter 255 0 7
      = Ok ([bordered], [mask])
      /\ np.get_block 1 1 2 2 bordered = img.
Proof.
  intros img quarter.
  assert (image_array 2 2 3 img) as Himg.
  { split; [split; [reflexivity|]|]; repeat constructor. }
  assert (ratio_in_range quarter) as Hratio.
  { right. exists 4503599627370496%positive, (-54).
    split; [reflexivity|]. split; [reflexivity|lia]. }
  split; [split_and!; (exact Himg || exact Hratio || lia)|].
  destruct (add_border_then_crop id id img [] 1 quarter 255 0 7 2 2 Himg)
    as (rw & bordered & mask & Erw & E1 & E2 & _);
    [lia | lia | lia | exact Hratio |].
  vm_compute in Erw. injection Erw as <-.
  exists bordered, mask. split; assumption.
Defined.

(** ** Pillow: searching and bounding boxes *)

Section find.
Local Open Scope nat_scope.
Implicit Types (p : nat -> bool) (start count n i j : nat).

Lemma find_from_Some p start count i :
  PIL.find_from p start count = Some i ->
  start <= i < start + count /\ p i = true
  /\ forall j, start <= j < i -> p j = false.
Proof.
  revert start. induction count as [|count IH]; intros start; simpl; [done|].
  destruct (p start) eqn:Ep.
  - intros [= <-]. split; [lia|]. split; [done|]. intros j Hj. lia.
  - intros H. apply IH in H as (Hi & Hp & Hbefore).
    split; [lia|]. split; [done|]. intros j Hj.
    destruct (decide (j = start)) as [->|Hne]; [done|]. apply Hbefore. lia.
Qed.

Lemma find_from_None p start count :
  PIL.find_from p start count = None ->
  forall j, start <= j < start + count -> p j = false.
Proof.
  revert start. induction count as [|count IH]; intros start; simpl.
  - intros _ j Hj. lia.
  - destruct (p start) eqn:Ep; [done|]. intros H j Hj.
    destruct (decide (j = start)) as [->|Hne]; [done|].
    apply (IH _ H). lia.
Qed.

Lemma find_last_Some p n i :
  PIL.find_last p n = Some i ->
  i < n /\ p i = true /\ forall j, i < j < n -> p j = false.
Proof.
  induction n as [|n IH]; simpl; [done|].
  destruct (p n) eqn:Ep.
  - intros [= <-]. split; [lia|]. split; [done|]. intros j Hj. lia.
  - intros H. apply IH in H as (Hi & Hp & Hafter).
    split; [lia|]. split; [done|]. intros j Hj.
    destruct (decide (j = n)) as [->|Hne]; [done|]. apply Hafter. lia.
Qed.

Lemma find_last_None p n :
  PIL.find_last p n = None -> forall j, j < n -> p j = false.
Proof.
  induction n as [|n IH]; simpl.
  - intros _ j Hj. lia.
  - destruct (p n) eqn:Ep; [done|]. intros H j Hj.
    destruct (decide (j = n)) as [->|Hne]; [done|].
    apply (IH H). lia.
Qed.

Lemma find_from_first p count :
  0 < count -> p 0 = true -> PIL.find_from p 0 count = Some 0.
Proof. destruct count; [lia|]. simpl. by intros _ ->. Qed.

Lemma find_last_last p n :
  0 < n -> p (n - 1) = true -> PIL.find_last p n = Some (n - 1).
Proof.
  destruct n; [lia|]. simpl. rewrite Nat.sub_0_r. by intros _ ->.
Qed.

End find.

Section bbox.
Local Open Scope nat_scope.
Implicit Types (img : list (list Z)) (i j h w : nat).

Lemma nonzero_true (v : Z) : PIL.nonzero v = true <-> v <> 0%Z.
Proof. unfold PIL.nonzero. rewrite negb_true_iff. apply Z.eqb_neq. Qed.

Lemma row_nonzero_lit img i :
  PIL.row_nonzero img i = true <-> exists j, lit img i j.
Proof.
  unfold PIL.row_nonzero, lit, np.at2. rewrite existsb_exists. split.
  - intros (v & Hin & Hv).
    apply list_elem_of_In, list_elem_of_lookup in Hin as [j Hj].
    destruct (img !! i) as [row|] eqn:Ei; simpl in *; [|done].
    exists j, v. rewrite nonzero_true in Hv. done.
  - intros (j & v & Hv & Hne).
    destruct (img !! i) as [row|] eqn:Ei; simpl in *; [|done].
    exists v. split; [|by apply nonzero_true].
    apply list_elem_of_In, list_elem_of_lookup. eauto.
Qed.

Lemma col_nonzero_lit img j :
  PIL.col_nonzero img j = true <-> exists i, lit img i j.
Proof.
  unfold PIL.col_nonzero, lit, np.at2. rewrite existsb_exists. split.
  - intros (row & Hin & Hv).
    apply list_elem_of_In, list_elem_of_lookup in Hin as [i Hi].
    exists i. rewrite Hi. simpl.
    destruct (row !! j) as [v|] eqn:Ej; simpl in *; [|done].
    exists v. rewrite nonzero_true in Hv. done.
  - intros (i & v & Hv & Hne).
    destruct (img !! i) as [row|] eqn:Ei; simpl in *; [|done].
    exists row. split.
    + apply list_elem_of_In, list_elem_of_lookup. eauto.
    + rewrite Hv. simpl. by apply nonzero_true.
Qed.

Lemma lit_bounds h w img i j : rect h w img -> lit img i j -> i < h /\ j < w.
Proof.
  intros Hrect (v & Hv & _). unfold np.at2 in Hv.
  destruct (img !! i) as [row|] eqn:Ei; simpl in *; [|done].
  pose proof (rect_lookup h w img i row Hrect Ei) as Hlen.
  apply lookup_lt_Some in Ei. apply lookup_lt_Some in Hv.
  destruct Hrect as [Hh _]. lia.
Qed.

Lemma rect_width h w (A : Type) (a : list (list A)) :
  rect h w a -> 0 < h -> np.width a = w.
Proof.
  intros [Hl Hr] Hh. unfold np.width.
  destruct a as [|row a]; simpl in *; [lia|].
  by apply Forall_cons_1 in Hr as [-> _].
Qed.

(** No bounding box: the image has no non-zero sample. *)
Lemma getbbox_None h w img :
  rect h w img -> PIL.getbbox img = None -> forall i j, ~ lit img i j.
Proof.
  intros Hrect Hbox i j Hlit.
  pose proof (lit_bounds h w img i j Hrect Hlit) as [Hi Hj].
  assert (PIL.row_nonzero img i = true) as Hrow
    by (apply row_nonzero_lit; eauto).
  assert (PIL.col_nonzero img j = true) as Hcol
    by (apply col_nonzero_lit; eauto).
  unfold PIL.getbbox in Hbox.
  rewrite (rect_width h w _ img Hrect) in Hbox by lia.
  destruct Hrect as [Hh _]. unfold np.height in Hbox. rewrite Hh in Hbox.
  destruct (PIL.find_from (PIL.row_nonzero img) 0 h) as [u|] eqn:E1.
  2: { rewrite (find_from_None _ _ _ E1 i) in Hrow by lia. done. }
  destruct (PIL.find_last (PIL.row_nonzero img) h) as [d|] eqn:E2.
  2: { rewrite (find_last_None _ _ E2 i) in Hrow by lia. done. }
  destruct (PIL.find_from (PIL.col_nonzero img) 0 w) as [l|] eqn:E3.
  2: { rewrite (find_from_None _ _ _ E3 j) in Hcol by lia. done. }
  destruct (PIL.find_last (PIL.col_nonzero img) w) as [r|] eqn:E4.
  2: { rewrite (find_last_None _ _ E4 j) in Hcol by lia. done. }
  done.
Qed.

Lemma getbbox_Some h w img box :
  rect h w img -> PIL.getbbox img = Some box -> tight_box (lit img) h w box.
Proof.
  intros Hrect Hbox. unfold PIL.getbbox in Hbox.
  destruct (decide (0 < h)) as [Hh0|Hh0].
  2: { destruct Hrect as [Hh _]. unfold np.height in Hbox.
       rewrite Hh in Hbox. replace h with 0 in Hbox by lia. done. }
  rewrite (rect_width h w _ img Hrect) in Hbox by lia.
  pose proof Hrect as [Hh _]. unfold np.height in Hbox. rewrite Hh in Hbox.
  destruct (PIL.find_from (PIL.row_nonzero img) 0 h) as [u|] eqn:E1; [|done].
  destruct (PIL.find_last (PIL.row_nonzero img) h) as [d|] eqn:E2; [|done].
  destruct (PIL.find_from (PIL.col_nonzero img) 0 w) as [l|] eqn:E3; [|done].
  destruct (PIL.find_last (PIL.col_nonzero img) w) as [r|] eqn:E4; [|done].
  injection Hbox as <-.
  apply find_from_Some in E1 as (Hu & Pu & Bu).
  apply find_last_Some in E2 as (Hd & Pd & Ad).
  apply find_from_Some in E3 as (Hl & Pl & Bl).
  apply find_last_Some in E4 as (Hr & Pr & Ar).
  assert (forall i j, lit img i j -> u <= i < S d /\ l <= j < S r) as Hin.
  { intros i j Hlit.
    pose proof (lit_bounds h w img i j Hrect Hlit) as [Hi Hj].
    assert (PIL.row_nonzero img i = true) as Hrow
      by (apply row_nonzero_lit; eauto).
    assert (PIL.col_nonzero img j = true) as Hcol
      by (apply col_nonzero_lit; eauto).
    split_and!.
    - destruct (decide (u <= i)); [done|]. rewrite Bu in Hrow by lia. done.
    - destruct (decide (i < S d)); [done|]. rewrite Ad in Hrow by lia. done.
    - destruct (decide (l <= j)); [done|]. rewrite Bl in Hcol by lia. done.
    - destruct (decide (j < S r)); [done|]. rewrite Ar in Hcol by lia. done. }
  apply row_nonzero_lit in Pu as Lu. apply row_nonzero_lit in Pd as Ld.
  apply col_nonzero_lit in Pl as Ll. apply col_nonzero_lit in Pr as Lr.
  unfold tight_box. replace (S d - 1) with d by lia.
  replace (S r - 1) with r by lia.
  destruct Lu as [ju Lu]. destruct (Hin _ _ Lu).
  destruct Ll as [il Ll]. destruct (Hin _ _ Ll).
  split_and!; eauto; lia.
Qed.

End bbox.

Section get_block.
Local Open Scope nat_scope.
Context {A : Type}.
Implicit Types (a : list (list A)).

Lemma at2_get_block (top lft hh ww : nat) a (i j : nat) :
  np.at2 (np.get_block top lft hh ww a) i j
  = if decide (i < hh /\ j < ww) then np.at2 a (top + i) (lft + j) else None.
Proof.
  unfold np.at2, np.get_block. rewrite list_lookup_fmap.
  destruct (decide (i < hh)) as [Hi|Hi].
  - rewrite lookup_take_lt, lookup_drop by done.
    destruct (a !! (top + i)) as [row|]; simpl.
    + destruct (decide (j < ww)) as [Hj|Hj].
      * rewrite decide_True by done. by rewrite lookup_take_lt, lookup_drop.
      * rewrite decide_False by tauto. apply lookup_take_ge. lia.
    + by destruct (decide _).
  - rewrite lookup_take_ge by lia. simpl. rewrite decide_False by tauto. done.
Qed.

Lemma rect_get_block (h w top lft hh ww : nat) a :
  rect h w a -> top + hh <= h -> lft + ww <= w ->
  rect hh ww (np.get_block top lft hh ww a).
Proof.
  intros [Hl Hr] Ht Hw. unfold np.get_block. split.
  - rewrite length_fmap, length_take, length_drop. lia.
  - apply Forall_fmap, Forall_take, Forall_drop.
    eapply Forall_impl; [exact Hr|]. intros row Hrow. simpl in *.
    rewrite length_take, length_drop. lia.
Qed.

Lemma get_block_all (h w : nat) a : rect h w a -> np.get_block 0 0 h w a = a.
Proof.
  intros [Hl Hr]. unfold np.get_block. rewrite drop_0.
  rewrite take_ge by lia.
  rewrite <- (list_fmap_id a) at 2. apply Forall_fmap_ext_1.
  eapply Forall_impl; [exact Hr|]. intros row Hrow. simpl in *.
  rewrite drop_0. apply take_ge. lia.
Qed.

End get_block.

(** ** [TrimImageBorders.run] *)

Section trim.
Local Open Scope nat_scope.
Context {tensor : Type}.
Context (tensor2np : tensor -> ndarray) (np2tensor : ndarray -> tensor).
Context (luma : pixel -> Z).

Lemma at2_binary_image (threshold : Z) (img : ndarray) (i j : nat) :
  np.at2 (binary_image luma threshold img) i j
  = (λ px, TrimImageBorders.binarize threshold (luma px)) <$> np.at2 img i j.
Proof.
  unfold np.at2, binary_image, PIL.point, PIL.convert_L.
  rewrite !list_lookup_fmap.
  destruct (img !! i) as [row|]; simpl; [|done].
  rewrite !list_lookup_fmap. by destruct (row !! j).
Qed.

Lemma rect_binary_image (threshold : Z) (h w : nat) (img : ndarray) :
  rect h w img -> rect h w (binary_image luma threshold img).
Proof.
  intros [Hl Hr]. unfold binary_image, PIL.point, PIL.convert_L. split.
  - by rewrite !length_fmap.
  - apply Forall_fmap, Forall_fmap.
    eapply Forall_impl; [exact Hr|]. intros row Hrow. simpl.
    by rewrite !length_fmap.
Qed.

Lemma lit_binary_image (threshold : Z) (img : ndarray) (i j : nat) :
  lit (binary_image luma threshold img) i j <-> bright luma threshold img i j.
Proof.
  unfold lit, bright. rewrite at2_binary_image.
  unfold TrimImageBorders.binarize. split.
  - intros (v & Hv & Hne).
    destruct (np.at2 img i j) as [px|]; simpl in *; [|done].
    exists px. split; [done|]. injection Hv as <-.
    destruct (Z.gtb_spec (luma px) threshold); [lia|done].
  - intros (px & -> & Hpx). simpl. eexists. split; [done|].
    destruct (Z.gtb_spec (luma px) threshold); lia.
Qed.

Lemma run_unfold (t : tensor) (rest : list tensor) (threshold : Z) :
  TrimImageBorders.run tensor2np np2tensor luma (t :: rest) threshold
  = Ok [np2tensor
          match PIL.getbbox (binary_image luma threshold (tensor2np t)) with
          | Some box => PIL.crop (tensor2np t) box
          | None => tensor2np t
          end].
Proof. reflexivity. Qed.

(** C7.  [TrimImageBorders.run] takes the luminance of the first image
    and binarizes it (255 where the luminance is above the threshold, 0
    elsewhere).  When no pixel is above the threshold, so that the
    binarized image has no bounding box, it returns the image unchanged;
    otherwise it returns the crop of the original image to the tight
    bounding box of the pixels above the threshold. *)
Theorem trim_crops_to_tight_box (t : tensor) (rest : list tensor)
    (threshold : Z) (h w : nat) :
  rect h w (tensor2np t) ->
  let img := tensor2np t in
  let binary := binary_image luma threshold img in
  (forall i j px,
      np.at2 img i j = Some px ->
      np.at2 binary i j = Some (if luma px >? threshold then 255 else 0)%Z)
  /\ (((forall i j, ~ bright luma threshold img i j)
       /\ PIL.getbbox binary = None
       /\ TrimImageBorders.run tensor2np np2tensor luma (t :: rest) threshold
          = Ok [np2tensor img])
      \/ (exists lft upper rgt lower,
            tight_box (bright luma threshold img) h w (lft, upper, rgt, lower)
            /\ PIL.getbbox binary = Some (lft, upper, rgt, lower)
            /\ TrimImageBorders.run tensor2np np2tensor luma (t :: rest)
                 threshold
               = Ok [np2tensor
                       (np.get_block upper lft (lower - upper) (rgt - lft)
                          img)])).
Proof.
  intros Hrect img binary. split.
  { intros i j px Hpx. unfold binary. by rewrite at2_binary_image, Hpx. }
  rewrite run_unfold. fold img binary.
  pose proof (rect_binary_image threshold h w img Hrect) as Hb.
  destruct (PIL.getbbox binary) as [box|] eqn:Ebox.
  - right. destruct box as [[[lft upper] rgt] lower].
    exists lft, upper, rgt, lower. split; [|done].
    pose proof (getbbox_Some h w _ _ Hb Ebox) as Ht.
    unfold tight_box in *.
    destruct Ht as (H1 & H2 & H3 & (j1 & H4) & (j2 & H5) & (i1 & H6) & (i2 & H7)).
    split_and!; try lia.
    + intros i j Hij. apply H3. by apply lit_binary_image.
    + exists j1. by apply lit_binary_image.
    + exists j2. by apply lit_binary_image.
    + exists i1. by apply lit_binary_image.
    + exists i2. by apply lit_binary_image.
  - left. split; [|done]. intros i j Hij.
    apply (getbbox_None h w _ Hb Ebox i j). by apply lit_binary_image.
Qed.

(** An image with a non-zero sample on each of its four edges is its own
    bounding box. *)
Lemma getbbox_full (h w : nat) (img : list (list Z)) :
  rect h w img -> 0 < h -> 0 < w ->
  (exists j, lit img 0 j) -> (exists j, lit img (h - 1) j) ->
  (exists i, lit img i 0) -> (exists i, lit img i (w - 1)) ->
  PIL.getbbox img = Some (0, 0, w, h).
Proof.
  intros Hrect Hh Hw H1 H2 H3 H4. unfold PIL.getbbox.
  rewrite (rect_width h w _ img Hrect) by lia.
  destruct Hrect as [Hl _]. unfold np.height. rewrite Hl.
  apply row_nonzero_lit in H1, H2. apply col_nonzero_lit in H3, H4.
  rewrite (find_from_first _ h), (find_last_last _ h) by done.
  rewrite (find_from_first _ w), (find_last_last _ w) by done.
  do 2 f_equal; [f_equal|]; lia.
Qed.

Lemma bright_get_block (threshold : Z) (img : ndarray)
    (top lft hh ww i j : nat) :
  bright luma threshold (np.get_block top lft hh ww img) i j
  <-> i < hh /\ j < ww /\ bright luma threshold img (top + i) (lft + j).
Proof.
  unfold bright. rewrite at2_get_block.
  destruct (decide (i < hh /\ j < ww)) as [Hij|Hij].
  - split; [intros H; split_and!; (lia || done) | by intros (_ & _ & H)].
  - split; [by intros (px & H & _) | intros (? & ? & _); lia].
Qed.

(** Cropping to the bounding box leaves an image that is its own bounding
    box. *)
Lemma getbbox_crop (threshold : Z) (h w : nat) (img : ndarray)
    (box : nat * nat * nat * nat) :
  rect h w img ->
  PIL.getbbox (binary_image luma threshold img) = Some box ->
  let cropped := PIL.crop img box in
  exists h' w',
    rect h' w' cropped
    /\ PIL.getbbox (binary_image luma threshold cropped) = Some (0, 0, w', h').
Proof.
  intros Hrect Ebox cropped.
  pose proof (rect_binary_image threshold h w img Hrect) as Hb.
  pose proof (getbbox_Some h w _ _ Hb Ebox) as Ht.
  destruct box as [[[lft upper] rgt] lower]. unfold tight_box in Ht.
  destruct Ht as (H1 & H2 & H3 & (j1 & H4) & (j2 & H5) & (i1 & H6) & (i2 & H7)).
  exists (lower - upper), (rgt - lft).
  assert (rect (lower - upper) (rgt - lft) cropped) as Hc
    by (apply (rect_get_block h w); (done || lia)).
  split; [done|].
  apply (getbbox_full (lower - upper) (rgt - lft));
    [by apply rect_binary_image | lia | lia | ..].
  - destruct (H3 _ _ H4). exists (j1 - lft).
    apply lit_binary_image, bright_get_block. split_and!; [lia..|].
    apply lit_binary_image in H4.
    by replace (upper + 0) with upper by lia;
       replace (lft + (j1 - lft)) with j1 by lia.
  - destruct (H3 _ _ H5). exists (j2 - lft).
    apply lit_binary_image, bright_get_block. split_and!; [lia..|].
    apply lit_binary_image in H5.
    by replace (upper + (lower - upper - 1)) with (lower - 1) by lia;
       replace (lft + (j2 - lft)) with j2 by lia.
  - destruct (H3 _ _ H6). exists (i1 - upper).
    apply lit_binary_image, bright_get_block. split_and!; [lia..|].
    apply lit_binary_image in H6.
    by replace (upper + (i1 - upper)) with i1 by lia;
       replace (lft + 0) with lft by lia.
  - destruct (H3 _ _ H7). exists (i2 - upper).
    apply lit_binary_image, bright_get_block. split_and!; [lia..|].
    apply lit_binary_image in H7.
    by replace (upper + (i2 - upper)) with i2 by lia;
       replace (lft + (rgt - lft - 1)) with (rgt - 1) by lia.
Qed.

(** C8.  Trimming is idempotent: [TrimImageBorders.run] returns the tensor
    of an array [c] such that running it again, with the same threshold,
    on any tensor whose array is [c] (the returned one, when the
    converters round-trip arrays) returns the tensor of [c] again, so the
    size does not change. *)
Theorem trim_idempotent (t : tensor) (rest : list tensor)
    (threshold : Z) (h w : nat) :
  rect h w (tensor2np t) ->
  exists c,
    TrimImageBorders.run tensor2np np2tensor luma (t :: rest) threshold
    = Ok [np2tensor c]
    /\ forall t' rest',
        tensor2np t' = c ->
        TrimImageBorders.run tensor2np np2tensor luma (t' :: rest') threshold
        = Ok [np2tensor c].
Proof.
  intros Hrect. eexists. split; [apply run_unfold|].
  intros t' rest' Ht'. rewrite run_unfold, Ht'. do 2 f_equal.
  destruct (PIL.getbbox (binary_image luma threshold (tensor2np t)))
    as [box|] eqn:Ebox.
  - destruct (getbbox_crop threshold h w _ box Hrect Ebox)
      as (h' & w' & Hc & ->).
    unfold PIL.crop at 1. rewrite !Nat.sub_0_r.
    by rewrite (get_block_all h' w').
  - by rewrite Ebox.
Qed.

End trim.

Example trim_img33 :
  TrimImageBorders.run id id luma_601 [img33] 10
  = Ok [[[[0; 0; 0]; [200; 200; 200]]; [[90; 90; 90]; [0; 0; 0]]]].
Proof. reflexivity. Qed.

Example trim_img33_dark :
  TrimImageBorders.run id id luma_601 [img33] 210 = Ok [img33].
Proof. reflexivity. Qed.

Lemma rect_img33 : rect 3 3 img33.
Proof. split; [reflexivity|]. repeat constructor. Qed.

Lemma trim_crops_to_tight_box_witness :
  rect 3 3 img33
  /\ TrimImageBorders.run id id luma_601 [img33] 10
     = Ok [[[[0; 0; 0]; [200; 200; 200]]; [[90; 90; 90]; [0; 0; 0]]]]
  /\ exists lft upper rgt lower,
      tight_box (bright luma_601 10 img33) 3 3 (lft, upper, rgt, lower)
      /\ PIL.getbbox (binary_image luma_601 10 img33)
         = Some (lft, upper, rgt, lower).
Proof.
  split; [exact rect_img33|]. split; [reflexivity|].
  destruct (trim_crops_to_tight_box id id luma_601 img33 [] 10 3 3 rect_img33)
    as [_ [(_ & E & _)|(lft & upper & rgt & lower & Ht & E & _)]].
  - vm_compute in E. discriminate E.
  - exists lft, upper, rgt, lower. split; assumption.
Defined.

Lemma trim_idempotent_witness :
  rect 3 3 img33
  /\ exists c : ndarray,
      TrimImageBorders.run id id luma_601 [img33] 10 = Ok [c]
      /\ forall (t' : ndarray) rest',
          t' = c ->
          TrimImageBorders.run id id luma_601 (t' :: rest') 10 = Ok [c].
Proof.
  split; [exact rect_img33|].
  apply (trim_idempotent id id luma_601 img33 [] 10 3 3 rect_img33).
Defined.

(** ** [ImageRotate.run] *)

Section rotate.
Context {tensor : Type}.
Context (tensor2np : tensor -> ndarray) (np2tensor : ndarray -> tensor).
Context (getRotationMatrix2D : float * float -> float -> float -> cv2.mat23).
Context (warpAffine :
  ndarray -> cv2.mat23 -> Z * Z -> cv2.interpolation -> ndarray).

Lemma expanded_size_canvas (h w : Z) (rot_mat : cv2.mat23) :
  ImageRotate.expanded_size h w rot_mat
  = rotated_canvas h w (cv2.m00 rot_mat) (cv2.m01 rot_mat).
Proof.
  unfold ImageRotate.expanded_size, rotated_canvas, weighted_abs_sum.
  destruct (int_mul_float h (float_abs (cv2.m01 rot_mat))) as [hs|]; [|done].
  destruct (int_mul_float w (float_abs (cv2.m00 rot_mat))) as [wc|]; [|done].
  simpl. destruct (int (float_add hs wc)) as [nw|]; [|done]. simpl.
  destruct (int_mul_float h (float_abs (cv2.m00 rot_mat))) as [hc|]; [|done].
  destruct (int_mul_float w (float_abs (cv2.m01 rot_mat))) as [ws|]; [|done].
  simpl. by destruct (int (float_add hc ws)).
Qed.

Lemma weighted_abs_sum_nonneg (a : Z) (x : float) (b : Z) (y : float) (z : Z) :
  0 <= a -> 0 <= b -> weighted_abs_sum a x b y = Ok z -> 0 <= z.
Proof.
  intros Ha Hb H. unfold weighted_abs_sum in H.
  inv_bind H. inv_bind H.
  eapply int_nonneg; [|exact H].
  apply float_add_sign_clear;
    eauto using int_mul_float_sign_clear, float_abs_sign_clear.
Qed.

(** C6.  Let cos and sin be the entries [0,0] and [0,1] of the matrix that
    [cv2.getRotationMatrix2D] returns for scale 1 (the cosine and sine of
    the angle), and let [cv2.warpAffine] return an array of the requested
    size.  With [expand] set, [ImageRotate.run] warps the first image,
    with cubic interpolation, onto a canvas of width
    int(h * |sin| + w * |cos|) and height int(h * |cos| + w * |sin|),
    using the rotation matrix with new_w / 2 - w / 2 added to its entry
    [0,2] and new_h / 2 - h / 2 added to its entry [1,2], the other four
    entries unchanged; without [expand] it warps with the rotation matrix
    itself and the canvas has the input size. *)
Theorem rotate_canvas (t : tensor) (rest : list tensor) (angle : float)
    (cos_a sin_a : float) :
  let img := tensor2np t in
  let h := Z.of_nat (np.height img) in
  let w := Z.of_nat (np.width img) in
  (forall center,
      cv2.m00 (getRotationMatrix2D center angle ImageRotate.one) = cos_a
      /\ cv2.m01 (getRotationMatrix2D center angle ImageRotate.one) = sin_a) ->
  (forall src m width height flags,
      0 < width -> 0 < height ->
      np.height (warpAffine src m (width, height) flags) = Z.to_nat height
      /\ np.width (warpAffine src m (width, height) flags) = Z.to_nat width) ->
  ImageRotate.run tensor2np np2tensor getRotationMatrix2D warpAffine
    (t :: rest) angle true
  = (cx ← int_truediv w 2;
     cy ← int_truediv h 2;
     '(new_w, new_h) ← rotated_canvas h w cos_a sin_a;
     half_w ← int_truediv new_w 2;
     half_h ← int_truediv new_h 2;
     let rot_mat := getRotationMatrix2D (cx, cy) angle ImageRotate.one in
     let m := cv2.Mat23
                (cv2.m00 rot_mat) (cv2.m01 rot_mat)
                (float_add (cv2.m02 rot_mat) (float_sub half_w cx))
                (cv2.m10 rot_mat) (cv2.m11 rot_mat)
                (float_add (cv2.m12 rot_mat) (float_sub half_h cy)) in
     Ok [np2tensor (warpAffine img m (new_w, new_h) cv2.INTER_CUBIC)])
  /\ (forall new_w new_h m,
        rotated_canvas h w cos_a sin_a = Ok (new_w, new_h) ->
        0 <= new_w /\ 0 <= new_h
        /\ (0 < new_w -> 0 < new_h ->
            np.width (warpAffine img m (new_w, new_h) cv2.INTER_CUBIC)
            = Z.to_nat new_w
            /\ np.height (warpAffine img m (new_w, new_h) cv2.INTER_CUBIC)
               = Z.to_nat new_h))
  /\ ImageRotate.run tensor2np np2tensor getRotationMatrix2D warpAffine
       (t :: rest) angle false
     = (cx ← int_truediv w 2;
        cy ← int_truediv h 2;
        let rot_mat := getRotationMatrix2D (cx, cy) angle ImageRotate.one in
        Ok [np2tensor (warpAffine img rot_mat (w, h) cv2.INTER_CUBIC)])
  /\ (forall m,
        0 < w -> 0 < h ->
        np.width (warpAffine img m (w, h) cv2.INTER_CUBIC) = np.width img
        /\ np.height (warpAffine img m (w, h) cv2.INTER_CUBIC)
           = np.height img).
Proof.
  intros img h w Hrot Hwarp. split_and!.
  - unfold ImageRotate.run.
    change (getitem (t :: rest) 0) with (Ok t). rewrite bind_Ok_l.
    fold img. unfold np.shape. fold h w.
    destruct (int_truediv w 2) as [cx|]; [|done]. rewrite bind_Ok_l.
    destruct (int_truediv h 2) as [cy|]; [|done]. rewrite bind_Ok_l.
    rewrite expanded_size_canvas.
    destruct (Hrot (cx, cy)) as [E1 E2]. rewrite E1, E2.
    unfold ImageRotate.translate. reflexivity.
  - intros new_w new_h m Hc. unfold rotated_canvas in Hc.
    inv_bind Hc. inv_bind Hc. injection Hc as <- <-.
    apply weighted_abs_sum_nonneg in Hv, Hv0; [|lia..].
    split_and!; [done..|]. intros Hw Hh.
    destruct (Hwarp img m v v0 cv2.INTER_CUBIC); done.
  - unfold ImageRotate.run.
    change (getitem (t :: rest) 0) with (Ok t). rewrite bind_Ok_l.
    fold img. unfold np.shape. fold h w. done.
  - intros m Hw Hh.
    destruct (Hwarp img m w h cv2.INTER_CUBIC) as [-> ->]; [lia..|].
    unfold h, w. by rewrite !Nat2Z.id.
Qed.

End rotate.

Lemma rotate_canvas_witness :
  let img : ndarray := replicate 50 (replicate 100 [1; 2; 3]) in
  let ninety := of_ratio 90 1 in
  ((forall center,
       cv2.m00 (quarter_turn center ninety ImageRotate.one) = cos_quarter
       /\ cv2.m01 (quarter_turn center ninety ImageRotate.one) = sin_quarter)
   /\ (forall src m width height flags,
         0 < width -> 0 < height ->
         np.height (translation_warp src m (width, height) flags)
         = Z.to_nat height
         /\ np.width (translation_warp src m (width, height) flags)
            = Z.to_nat width))
  /\ rotated_canvas 50 100 cos_quarter sin_quarter = Ok (50, 100)
  /\ (nearest (cv2.m02 (quarter_turn (of_ratio 50 1, of_ratio 25 1)
                            ninety ImageRotate.one)) = 25
      /\ nearest (cv2.m12 (quarter_turn (of_ratio 50 1, of_ratio 25 1)
                               ninety ImageRotate.one)) = 75)
  /\ ImageRotate.run id id quarter_turn translation_warp [img] ninety true
     = Ok [replicate 100 (replicate 50 [0; 100])]
  /\ ImageRotate.run id id quarter_turn translation_warp [img] ninety false
     = Ok [replicate 50 (replicate 100 [25; 75])].
Proof.
  intros img ninety.
  assert (forall center,
      cv2.m00 (quarter_turn center ninety ImageRotate.one) = cos_quarter
      /\ cv2.m01 (quarter_turn center ninety ImageRotate.one) = sin_quarter)
    as Hrot by (intros center; split; reflexivity).
  assert (forall src m width height flags,
      0 < width -> 0 < height ->
      np.height (translation_warp src m (width, height) flags)
      = Z.to_nat height
      /\ np.width (translation_warp src m (width, height) flags)
         = Z.to_nat width)
    as Hwarp.
  { intros src m width height flags Hw Hh.
    unfold translation_warp, np.height, np.width.
    simpl. rewrite length_replicate. split; [done|].
    destruct (Z.to_nat height) eqn:E; [lia|]. simpl.
    by rewrite length_replicate. }
  destruct (rotate_canvas id id quarter_turn translation_warp img [] ninety
              cos_quarter sin_quarter Hrot Hwarp) as (E1 & _ & E2 & _).
  split; [split; assumption|].
  split; [vm_compute; reflexivity|].
  split; [split; vm_compute; reflexivity|].
  split; [rewrite E1|rewrite E2]; vm_compute; reflexivity.
Defined.

(** ** Batches *)

Section batch.
Context {tensor : Type}.
Context (tensor2np : tensor -> ndarray) (np2tensor : ndarray -> tensor).
Context (getRotationMatrix2D : float * float -> float -> float -> cv2.mat23).
Context (warpAffine :
  ndarray -> cv2.mat23 -> Z * Z -> cv2.interpolation -> ndarray).
Context (luma : pixel -> Z).




End batch.


(** * Further properties of the nodes *)

(** ** Grids *)

Section grids.
Local Open Scope nat_scope.
Context {A : Type}.
Implicit Types (a b : list (list A)).

(** Two grids of the same shape with the same entries are equal. *)
Lemma grid_eq (h w : nat) a b :
  rect h w a -> rect h w b ->
  (forall i j, i < h -> j < w -> np.at2 a i j = np.at2 b i j) ->
  a = b.
Proof.
  intros [Ha1 Ha2] [Hb1 Hb2] Hij. apply list_eq. intros i.
  destruct (decide (i < h)) as [Hi|Hi].
  - destruct (lookup_lt_is_Some_2 a i) as [ra Ea]; [lia|].
    destruct (lookup_lt_is_Some_2 b i) as [rb Eb]; [lia|].
    rewrite Ea, Eb. f_equal.
    pose proof (Forall_lookup_1 _ _ _ _ Ha2 Ea) as La.
    pose proof (Forall_lookup_1 _ _ _ _ Hb2 Eb) as Lb.
    simpl in La, Lb.
    apply list_eq. intros j.
    destruct (decide (j < w)) as [Hj|Hj].
    + specialize (Hij i j Hi Hj). unfold np.at2 in Hij.
      by rewrite Ea, Eb in Hij.
    + by rewrite !lookup_ge_None_2 by lia.
  - by rewrite !lookup_ge_None_2 by lia.
Qed.

Lemma at2_bounds (h w : nat) a (i j : nat) (x : A) :
  rect h w a -> np.at2 a i j = Some x -> i < h /\ j < w.
Proof.
  intros Hrect Hx. unfold np.at2 in Hx.
  destruct (a !! i) as [row|] eqn:Ei; simpl in *; [|done].
  pose proof (rect_lookup h w a i row Hrect Ei) as Hlen.
  apply lookup_lt_Some in Ei. apply lookup_lt_Some in Hx.
  destruct Hrect as [Hh _]. lia.
Qed.

(** Assigning a block that covers the whole array replaces it. *)
Lemma set_block_all (h w : nat) (src dst : list (list A)) :
  rect h w src -> rect h w dst -> np.set_block 0 0 src dst = src.
Proof.
  intros Hs Hd. apply (grid_eq h w); [|done|].
  - apply (rect_set_block h w h w); (done || lia).
  - intros i j Hi Hj.
    rewrite (at2_set_block h w h w) by (done || lia).
    rewrite decide_True by lia. by rewrite !Nat.sub_0_r.
Qed.

(** A block of a block is a block of the array. *)
Lemma get_block_get_block (h w top lft h1 w1 top' lft' h2 w2 : nat) a :
  rect h w a -> top + h1 <= h -> lft + w1 <= w ->
  top' + h2 <= h1 -> lft' + w2 <= w1 ->
  np.get_block top' lft' h2 w2 (np.get_block top lft h1 w1 a)
  = np.get_block (top + top') (lft + lft') h2 w2 a.
Proof.
  intros Hr H1 H2 H3 H4. apply (grid_eq h2 w2).
  - apply (rect_get_block h1 w1); [|lia..].
    apply (rect_get_block h w); (done || lia).
  - apply (rect_get_block h w); (done || lia).
  - intros i j Hi Hj. rewrite !at2_get_block.
    rewrite !decide_True by lia. f_equal; lia.
Qed.

End grids.

(** Two tight boxes of the same marks coincide. *)
Lemma tight_box_unique (marked : nat -> nat -> Prop) (h w h' w' : nat)
    (box box' : nat * nat * nat * nat) :
  tight_box marked h w box -> tight_box marked h' w' box' -> box = box'.
Proof.
  destruct box as [[[l u] r] d], box' as [[[l' u'] r'] d'].
  unfold tight_box.
  intros (H1 & H2 & H3 & (j1 & H4) & (j2 & H5) & (i1 & H6) & (i2 & H7))
         (G1 & G2 & G3 & (k1 & G4) & (k2 & G5) & (n1 & G6) & (n2 & G7)).
  pose proof (G3 _ _ H4). pose proof (G3 _ _ H5).
  pose proof (G3 _ _ H6). pose proof (G3 _ _ H7).
  pose proof (H3 _ _ G4). pose proof (H3 _ _ G5).
  pose proof (H3 _ _ G6). pose proof (H3 _ _ G7).
  repeat f_equal; lia.
Qed.

(** ** More on [TrimImageBorders.run] *)

Section trim_more.
Local Open Scope nat_scope.
Context {tensor : Type}.
Context (tensor2np : tensor -> ndarray) (np2tensor : ndarray -> tensor).
Context (luma : pixel -> Z).

Lemma getbbox_bright_tight (threshold : Z) (h w : nat) (img : ndarray)
    (box : nat * nat * nat * nat) :
  rect h w img ->
  PIL.getbbox (binary_image luma threshold img) = Some box ->
  tight_box (bright luma threshold img) h w box.
Proof.
  intros Hrect Ebox.
  pose proof (rect_binary_image luma threshold h w img Hrect) as Hb.
  pose proof (getbbox_Some h w _ _ Hb Ebox) as Ht.
  destruct box as [[[lft upper] rgt] lower]. unfold tight_box in *.
  destruct Ht as (H1 & H2 & H3 & (j1 & H4) & (j2 & H5) & (i1 & H6) & (i2 & H7)).
  split_and!; try lia.
  - intros i j Hij. apply H3. by apply lit_binary_image.
  - exists j1. by apply lit_binary_image.
  - exists j2. by apply lit_binary_image.
  - exists i1. by apply lit_binary_image.
  - exists i2. by apply lit_binary_image.
Qed.

Lemma getbbox_bright_exists (threshold : Z) (h w : nat) (img : ndarray)
    (i j : nat) :
  rect h w img -> bright luma threshold img i j ->
  exists box, PIL.getbbox (binary_image luma threshold img) = Some box.
Proof.
  intros Hrect Hb.
  destruct (PIL.getbbox (binary_image luma threshold img)) as [box|] eqn:E;
    [eauto|].
  destruct (getbbox_None h w _ (rect_binary_image luma threshold h w img Hrect)
              E i j).
  by apply lit_binary_image.
Qed.

Lemma bright_bounds (threshold : Z) (h w : nat) (img : ndarray) (i j : nat) :
  rect h w img -> bright luma threshold img i j -> i < h /\ j < w.
Proof. intros Hrect (px & Hpx & _). by eapply at2_bounds. Qed.

(** X1.  The output of [TrimImageBorders.run] on a non-empty image is a
    non-empty block of the image that contains every pixel above the
    threshold. *)
Theorem trim_keeps_bright_pixels (t : tensor) (rest : list tensor)
    (threshold : Z) (h w : nat) :
  rect h w (tensor2np t) -> 0 < h -> 0 < w ->
  exists c top lft h' w',
    TrimImageBorders.run tensor2np np2tensor luma (t :: rest) threshold
    = Ok [np2tensor c]
    /\ c = np.get_block top lft h' w' (tensor2np t)
    /\ rect h' w' c
    /\ 0 < h' /\ top + h' <= h /\ 0 < w' /\ lft + w' <= w
    /\ (forall i j, i < h' -> j < w' ->
          np.at2 c i j = np.at2 (tensor2np t) (top + i) (lft + j))
    /\ (forall i j, bright luma threshold (tensor2np t) i j ->
          top <= i < top + h' /\ lft <= j < lft + w').
Proof.
  intros Hrect Hh Hw. rewrite run_unfold.
  destruct (PIL.getbbox (binary_image luma threshold (tensor2np t)))
    as [box|] eqn:Ebox.
  - pose proof (getbbox_bright_tight threshold h w _ box Hrect Ebox) as Ht.
    destruct box as [[[l u] r] d]. unfold tight_box in Ht.
    destruct Ht as (H1 & H2 & H3 & _).
    exists (PIL.crop (tensor2np t) (l, u, r, d)), u, l, (d - u), (r - l).
    split; [done|]. split; [done|].
    split; [apply (rect_get_block h w); (done || lia)|].
    split_and!; try lia.
    + intros i j Hi Hj. unfold PIL.crop. rewrite at2_get_block.
      by rewrite decide_True by lia.
    + intros i j Hb. specialize (H3 i j Hb). lia.
  - exists (tensor2np t), 0, 0, h, w.
    split; [done|]. split; [by rewrite (get_block_all h w)|].
    split; [done|]. split_and!; try lia.
    + done.
    + intros i j Hb. pose proof (bright_bounds _ _ _ _ _ _ Hrect Hb). lia.
Qed.

(** X2.  When the luminance of every pixel of the image is at most [bound], a
    threshold of at least [bound] leaves the image unchanged. *)
Theorem trim_high_threshold (t : tensor) (rest : list tensor)
    (threshold bound : Z) (h w : nat) :
  rect h w (tensor2np t) ->
  Forall (Forall (λ px, (luma px <= bound)%Z)) (tensor2np t) ->
  (bound <= threshold)%Z ->
  TrimImageBorders.run tensor2np np2tensor luma (t :: rest) threshold
  = Ok [np2tensor (tensor2np t)].
Proof.
  intros Hrect Hl Hb. rewrite run_unfold.
  destruct (PIL.getbbox (binary_image luma threshold (tensor2np t)))
    as [box|] eqn:Ebox; [|done].
  pose proof (getbbox_bright_tight threshold h w _ box Hrect Ebox) as Ht.
  destruct box as [[[l u] r] d]. unfold tight_box in Ht.
  destruct Ht as (_ & _ & _ & (j & px & Hpx & Hlt) & _).
  unfold np.at2 in Hpx.
  destruct (tensor2np t !! u) as [row|] eqn:Eu; simpl in Hpx; [|done].
  pose proof (Forall_lookup_1 _ _ _ _ Hl Eu) as Hrow.
  pose proof (Forall_lookup_1 _ _ _ _ Hrow Hpx) as Hle.
  simpl in Hle. lia.
Qed.

(** X3.  Raising the threshold never enlarges the result: while some pixel is
    still above the higher threshold, the image trimmed at the higher
    threshold is a block of the image trimmed at the lower one. *)
Theorem trim_threshold_monotone (t : tensor) (rest : list tensor)
    (low high : Z) (h w i0 j0 : nat) :
  rect h w (tensor2np t) -> (low <= high)%Z ->
  bright luma high (tensor2np t) i0 j0 ->
  exists c_low c_high h1 w1 top lft h2 w2,
    TrimImageBorders.run tensor2np np2tensor luma (t :: rest) low
    = Ok [np2tensor c_low]
    /\ TrimImageBorders.run tensor2np np2tensor luma (t :: rest) high
       = Ok [np2tensor c_high]
    /\ rect h1 w1 c_low /\ rect h2 w2 c_high
    /\ top + h2 <= h1 /\ lft + w2 <= w1
    /\ c_high = np.get_block top lft h2 w2 c_low.
Proof.
  intros Hrect Hle Hb. rewrite !run_unfold.
  assert (bright luma low (tensor2np t) i0 j0) as Hb'.
  { destruct Hb as (px & Hpx & Hl). exists px. split; [done|lia]. }
  destruct (getbbox_bright_exists low h w _ i0 j0 Hrect Hb') as [box1 E1].
  destruct (getbbox_bright_exists high h w _ i0 j0 Hrect Hb) as [box2 E2].
  rewrite E1, E2.
  pose proof (getbbox_bright_tight low h w _ box1 Hrect E1) as T1.
  pose proof (getbbox_bright_tight high h w _ box2 Hrect E2) as T2.
  destruct box1 as [[[l1 u1] r1] d1], box2 as [[[l2 u2] r2] d2].
  unfold tight_box in T1, T2.
  destruct T1 as (A1 & A2 & A3 & _).
  destruct T2 as (B1 & B2 & _ & (j1 & B4) & (j2 & B5) & (i1 & B6) & (i2 & B7)).
  assert (forall i j, bright luma high (tensor2np t) i j ->
                      u1 <= i < d1 /\ l1 <= j < r1) as Hin.
  { intros i j (px & Hpx & Hl). apply A3. exists px. split; [done|lia]. }
  pose proof (Hin _ _ B4). pose proof (Hin _ _ B5).
  pose proof (Hin _ _ B6). pose proof (Hin _ _ B7).
  eexists _, _, (d1 - u1), (r1 - l1), (u2 - u1), (l2 - l1), (d2 - u2), (r2 - l2).
  split; [done|]. split; [done|].
  split; [apply (rect_get_block h w); (done || lia)|].
  split; [apply (rect_get_block h w); (done || lia)|].
  split; [lia|]. split; [lia|].
  unfold PIL.crop.
  rewrite (get_block_get_block h w) by (done || lia).
  f_equal; lia.
Qed.

End trim_more.

(** ** More on [AddImageBorder.add_border] *)

Section add_border_more.
Context {tensor : Type}.
Context (tensor2np : tensor -> ndarray) (np2tensor : ndarray -> tensor).
Context (luma : pixel -> Z).

Lemma add_border_result_max (t : tensor) (rest : list tensor)
    (border_width : Z) (border_ratio : float) (r g b : Z)
    (h w : nat) (ratio_width : Z) :
  image_array h w 3 (tensor2np t) -> (0 < h)%nat -> (0 < w)%nat ->
  int_mul_float (Z.min (Z.of_nat h) (Z.of_nat w)) border_ratio ≫= int
  = Ok ratio_width ->
  0 <= Z.max border_width ratio_width ->
  let e := Z.to_nat (Z.max border_width ratio_width) in
  AddImageBorder.add_border tensor2np np2tensor (t :: rest)
    border_width border_ratio r g b
  = Ok ([np2tensor (bordered_array e (tensor2np t) r g b)],
        [border_mask_array e h w]).
Proof.
  intros Himg Hh Hw Hrw HE e.
  unfold AddImageBorder.add_border.
  change (getitem (t :: rest) 0) with (Ok t). rewrite bind_Ok_l.
  rewrite (shape_image_array h w 3) by done.
  inv_bind Hrw. rewrite Hv, bind_Ok_l, Hrw, bind_Ok_l. cbv zeta.
  set (E := Z.max border_width ratio_width) in *.
  unfold np.full, np.ones.
  replace (Z.of_nat h + 2 * E <? 0) with false by (symmetry; apply Z.ltb_ge; lia).
  replace (Z.of_nat w + 2 * E <? 0) with false by (symmetry; apply Z.ltb_ge; lia).
  replace (E <? 0) with false by (symmetry; apply Z.ltb_ge; lia).
  simpl.
  replace (Z.to_nat (Z.of_nat h + 2 * E)) with (h + 2 * e)%nat by (unfold e; lia).
  replace (Z.to_nat (Z.of_nat w + 2 * E)) with (w + 2 * e)%nat by (unfold e; lia).
  rewrite !Nat2Z.id.
  destruct Himg as [[Hlen Hrows] _].
  unfold bordered_array, border_mask_array, np.height, np.width.
  rewrite Hlen.
  destruct (tensor2np t) as [|row a] eqn:Ea; simpl in *; [lia|].
  apply Forall_cons_1 in Hrows as [-> _]. done.
Qed.

Lemma image_array_dims (h w c : nat) (a : ndarray) :
  image_array h w c a -> (0 < h)%nat -> np.height a = h /\ np.width a = w.
Proof.
  intros [Hrect _] Hh. split; [apply Hrect|]. by apply (rect_width h w).
Qed.

(** X4.  With no border asked for (a width of 0 or less and ratio 0.0) the
    image array comes back as it is, with a mask of zeros. *)
Theorem add_border_no_border (t : tensor) (rest : list tensor)
    (border_width : Z) (r g b : Z) (h w : nat) :
  image_array h w 3 (tensor2np t) ->
  0 < Z.of_nat h < 2 ^ 63 -> 0 < Z.of_nat w < 2 ^ 63 ->
  border_width <= 0 ->
  AddImageBorder.add_border tensor2np np2tensor (t :: rest)
    border_width (S754_zero false) r g b
  = Ok ([np2tensor (tensor2np t)], [replicate h (replicate w np.f32_zero)]).
Proof.
  intros Himg Hh Hw Hbw.
  destruct (int_to_float_normal (Z.min (Z.of_nat h) (Z.of_nat w)) 63)
    as (x & Ex & (m & e & -> & _)); [lia..|].
  rewrite (add_border_result_max t rest border_width _ r g b h w 0);
    [|done|lia|lia| |lia].
  2: { unfold int_mul_float. rewrite Ex. done. }
  replace (Z.to_nat (Z.max border_width 0)) with 0%nat by lia.
  destruct (image_array_dims h w 3 _ Himg) as [Eh Ew]; [lia|].
  destruct Himg as [Hrect _].
  unfold bordered_array, border_mask_array. rewrite Eh, Ew, !Nat.add_0_r.
  rewrite (set_block_all h w), (set_block_all h w);
    auto using rect_replicate.
Qed.

(** X5.  An image whose channel count is not 3 is rejected: the three-element
    fill colour cannot be broadcast. *)
Theorem add_border_needs_three_channels (t : tensor) (rest : list tensor)
    (border_width : Z) (border_ratio : float) (r g b : Z) (h w c : nat) :
  image_array h w c (tensor2np t) ->
  0 < Z.of_nat h < 2 ^ 63 -> 0 < Z.of_nat w < 2 ^ 63 ->
  ratio_in_range border_ratio -> c <> 3%nat ->
  AddImageBorder.add_border tensor2np np2tensor (t :: rest)
    border_width border_ratio r g b
  = Raise ValueError.
Proof.
  intros Himg Hh Hw Hratio Hc.
  destruct (ratio_width_defined (Z.min (Z.of_nat h) (Z.of_nat w)) border_ratio)
    as (rw & Hrw & _); [lia|done|].
  unfold AddImageBorder.add_border.
  change (getitem (t :: rest) 0) with (Ok t). rewrite bind_Ok_l.
  rewrite (shape_image_array h w c) by (done || lia).
  inv_bind Hrw. rewrite Hv, bind_Ok_l, Hrw, bind_Ok_l. cbv zeta.
  unfold np.full.
  destruct (_ || _ || _); [done|].
  replace (Z.of_nat (length [b; g; r]) =? Z.of_nat c) with false; [done|].
  symmetry. apply Z.eqb_neq. simpl. lia.
Qed.

(** Inside the block the bordered array shows the image, outside it the
    fill colour. *)
Lemma at2_bordered_array (e h w : nat) (img : ndarray) (r g b : Z) (i j : nat) :
  rect h w img -> (0 < h)%nat ->
  np.at2 (bordered_array e img r g b) i j
  = if decide ((e <= i < e + h)%nat /\ (e <= j < e + w)%nat)
    then np.at2 img (i - e) (j - e)
    else if decide ((i < h + 2 * e)%nat /\ (j < w + 2 * e)%nat)
         then Some [b mod 256; g mod 256; r mod 256]
         else None.
Proof.
  intros Hrect Hh. unfold bordered_array.
  assert (np.height img = h) as -> by apply Hrect.
  rewrite (rect_width h w _ img Hrect Hh).
  rewrite (at2_set_block (h + 2 * e) (w + 2 * e) h w);
    [|done|apply rect_replicate|lia|lia].
  destruct (decide _) as [|_]; [done|].
  destruct (decide ((i < h + 2 * e)%nat /\ (j < w + 2 * e)%nat)) as [[Hi Hj]|Hn].
  - by apply at2_replicate.
  - unfold np.at2.
    destruct (decide (i < h + 2 * e)%nat) as [Hi|Hi].
    + rewrite lookup_replicate_2 by done. simpl.
      apply lookup_replicate_None. lia.
    + rewrite (proj1 (lookup_replicate_None _ _ _)) by lia. done.
Qed.

Lemma rect_bordered_array (e h w : nat) (img : ndarray) (r g b : Z) :
  rect h w img -> (0 < h)%nat ->
  rect (h + 2 * e) (w + 2 * e) (bordered_array e img r g b).
Proof.
  intros Hrect Hh. unfold bordered_array.
  assert (np.height img = h) as -> by apply Hrect.
  rewrite (rect_width h w _ img Hrect Hh).
  apply (rect_set_block _ _ h w); [done|apply rect_replicate|lia|lia].
Qed.

Lemma bright_bordered_array (threshold : Z) (e h w : nat) (img : ndarray)
    (r g b : Z) (i j : nat) :
  rect h w img -> (0 < h)%nat ->
  luma [b mod 256; g mod 256; r mod 256] <= threshold ->
  bright luma threshold (bordered_array e img r g b) i j
  <-> (e <= i < e + h)%nat /\ (e <= j < e + w)%nat
      /\ bright luma threshold img (i - e) (j - e).
Proof.
  intros Hrect Hh Hdark. unfold bright.
  rewrite (at2_bordered_array e h w) by done.
  destruct (decide ((e <= i < e + h)%nat /\ (e <= j < e + w)%nat)) as [Hin|Hout].
  - split; [intros H; split_and!; (lia || done)|by intros (_ & _ & H)].
  - split; [|intros (? & ? & _); lia].
    destruct (decide _); intros (px & Hpx & Hl); [|done].
    injection Hpx as <-. lia.
Qed.

(** X6.  Trimming after adding a border that is not above the threshold gives
    what trimming the image itself gives, as long as the image has a pixel
    above the threshold. *)
Theorem add_border_then_trim (t : tensor) (rest : list tensor)
    (border_width : Z) (border_ratio : float) (r g b : Z)
    (threshold : Z) (h w i0 j0 : nat) :
  image_array h w 3 (tensor2np t) ->
  0 < Z.of_nat h < 2 ^ 63 -> 0 < Z.of_nat w < 2 ^ 63 ->
  0 <= border_width -> ratio_in_range border_ratio ->
  luma [b mod 256; g mod 256; r mod 256] <= threshold ->
  bright luma threshold (tensor2np t) i0 j0 ->
  exists bordered mask trimmed,
    AddImageBorder.add_border tensor2np np2tensor (t :: rest)
      border_width border_ratio r g b
    = Ok ([np2tensor bordered], [mask])
    /\ TrimImageBorders.run tensor2np np2tensor luma (t :: rest) threshold
       = Ok [np2tensor trimmed]
    /\ forall t' rest',
        tensor2np t' = bordered ->
        TrimImageBorders.run tensor2np np2tensor luma (t' :: rest') threshold
        = Ok [np2tensor trimmed].
Proof.
  intros Himg Hh Hw Hbw Hratio Hdark Hb.
  destruct (ratio_width_defined (Z.min (Z.of_nat h) (Z.of_nat w)) border_ratio)
    as (rw & Hrw & Hrw0); [lia|done|].
  set (e := Z.to_nat (Z.max border_width rw)).
  pose proof Himg as [Hrect _].
  assert (0 < h)%nat as Hh0 by lia.
  eexists _, _, _.
  split; [apply (add_border_result_max _ _ _ _ _ _ _ h w rw); (done || lia)|].
  split; [apply run_unfold|].
  intros t' rest' Et'. rewrite run_unfold, Et'. fold e.
  pose proof (rect_bordered_array e h w _ r g b Hrect Hh0) as HrB.
  set (B := bordered_array e (tensor2np t) r g b) in *.
  destruct (getbbox_bright_exists luma threshold h w _ i0 j0 Hrect Hb)
    as [box Ebox].
  assert (bright luma threshold B (e + i0) (e + j0)) as HbB.
  { apply (bright_bordered_array threshold e h w); [done..|].
    pose proof (bright_bounds luma _ _ _ _ _ _ Hrect Hb).
    split_and!; [lia..|].
    by replace (e + i0 - e)%nat with i0 by lia;
       replace (e + j0 - e)%nat with j0 by lia. }
  destruct (getbbox_bright_exists luma threshold _ _ _ _ _ HrB HbB)
    as [boxB EboxB].
  rewrite Ebox, EboxB.
  pose proof (getbbox_bright_tight luma threshold h w _ box Hrect Ebox) as T.
  pose proof (getbbox_bright_tight luma threshold _ _ _ boxB HrB EboxB) as TB.
  destruct box as [[[l u] rr] d].
  assert (tight_box (bright luma threshold B) (h + 2 * e) (w + 2 * e)
            (l + e, u + e, rr + e, d + e)%nat) as TB'.
  { unfold tight_box in T |- *.
    destruct T as (H1 & H2 & H3 & (j1 & H4) & (j2 & H5) & (i1 & H6) & (i2 & H7)).
    pose proof (H3 _ _ H4). pose proof (H3 _ _ H5).
    pose proof (H3 _ _ H6). pose proof (H3 _ _ H7).
    split_and!; try lia.
    - intros i j Hij.
      apply (bright_bordered_array threshold e h w) in Hij
        as (Hi & Hj & Hij); [|done..].
      specialize (H3 _ _ Hij). lia.
    - exists (j1 + e)%nat.
      apply (bright_bordered_array threshold e h w); [done..|].
      split_and!; [lia..|].
      by replace (u + e - e)%nat with u by lia;
         replace (j1 + e - e)%nat with j1 by lia.
    - exists (j2 + e)%nat.
      apply (bright_bordered_array threshold e h w); [done..|].
      split_and!; [lia..|].
      by replace (d + e - 1 - e)%nat with (d - 1)%nat by lia;
         replace (j2 + e - e)%nat with j2 by lia.
    - exists (i1 + e)%nat.
      apply (bright_bordered_array threshold e h w); [done..|].
      split_and!; [lia..|].
      by replace (i1 + e - e)%nat with i1 by lia;
         replace (l + e - e)%nat with l by lia.
    - exists (i2 + e)%nat.
      apply (bright_bordered_array threshold e h w); [done..|].
      split_and!; [lia..|].
      by replace (i2 + e - e)%nat with i2 by lia;
         replace (rr + e - 1 - e)%nat with (rr - 1)%nat by lia. }
  rewrite (tight_box_unique _ _ _ _ _ _ _ TB TB').
  unfold tight_box in T. destruct T as (H1 & H2 & _).
  unfold PIL.crop.
  replace (d + e - (u + e))%nat with (d - u)%nat by lia.
  replace (rr + e - (l + e))%nat with (rr - l)%nat by lia.
  do 3 f_equal. apply (grid_eq (d - u) (rr - l)).
  - apply (rect_get_block (h + 2 * e) (w + 2 * e)); (done || lia).
  - apply (rect_get_block h w); (done || lia).
  - intros i j Hi Hj. rewrite !at2_get_block, !decide_True by lia.
    unfold B. rewrite (at2_bordered_array e h w) by done.
    rewrite decide_True by lia. f_equal; lia.
Qed.

End add_border_more.

Lemma image_array_img33 : image_array 3 3 3 img33.
Proof. split; [exact rect_img33|]. repeat constructor. Qed.

Lemma trim_keeps_bright_pixels_witness :
  (rect 3 3 img33 /\ (0 < 3)%nat /\ (0 < 3)%nat)
  /\ exists (c : ndarray) top lft h' w',
      TrimImageBorders.run id id luma_601 [img33] 10 = Ok [c]
      /\ c = np.get_block top lft h' w' img33
      /\ rect h' w' c
      /\ (0 < h')%nat /\ (top + h' <= 3)%nat
      /\ (0 < w')%nat /\ (lft + w' <= 3)%nat
      /\ (forall i j, (i < h')%nat -> (j < w')%nat ->
            np.at2 c i j = np.at2 img33 (top + i) (lft + j))
      /\ (forall i j, bright luma_601 10 img33 i j ->
            (top <= i < top + h')%nat /\ (lft <= j < lft + w')%nat).
Proof.
  split; [split_and!; (exact rect_img33 || lia)|].
  apply (trim_keeps_bright_pixels id id luma_601 img33 [] 10 3 3 rect_img33);
    lia.
Defined.

Lemma trim_high_threshold_witness :
  (rect 3 3 img33
   /\ Forall (Forall (λ px, luma_601 px <= 255)) img33 /\ 255 <= 300)
  /\ TrimImageBorders.run id id luma_601 [img33] 300 = Ok [img33].
Proof.
  assert (Forall (Forall (λ px, luma_601 px <= 255)) img33) as Hl.
  { repeat constructor; vm_compute; discriminate. }
  split; [split_and!; (exact rect_img33 || exact Hl || lia)|].
  apply (trim_high_threshold id id luma_601 img33 [] 300 255 3 3 rect_img33 Hl).
  lia.
Defined.

Lemma bright_img33 (threshold : Z) :
  threshold < 200 -> bright luma_601 threshold img33 1 2.
Proof. intros H. exists [200; 200; 200]. split; [reflexivity|]. vm_compute luma_601. lia. Qed.

Lemma trim_threshold_monotone_witness :
  (rect 3 3 img33 /\ 10 <= 100 /\ bright luma_601 100 img33 1 2)
  /\ exists (c_low c_high : ndarray) h1 w1 top lft h2 w2,
      TrimImageBorders.run id id luma_601 [img33] 10 = Ok [c_low]
      /\ TrimImageBorders.run id id luma_601 [img33] 100 = Ok [c_high]
      /\ rect h1 w1 c_low /\ rect h2 w2 c_high
      /\ (top + h2 <= h1)%nat /\ (lft + w2 <= w1)%nat
      /\ c_high = np.get_block top lft h2 w2 c_low.
Proof.
  assert (bright luma_601 100 img33 1 2) as Hb by (apply bright_img33; lia).
  split; [split_and!; (exact rect_img33 || exact Hb || lia)|].
  apply (trim_threshold_monotone id id luma_601 img33 [] 10 100 3 3 1 2
           rect_img33); [lia|exact Hb].
Defined.

Lemma add_border_no_border_witness :
  (image_array 3 3 3 img33
   /\ 0 < Z.of_nat 3 < 2 ^ 63 /\ 0 < Z.of_nat 3 < 2 ^ 63 /\ -3 <= 0)
  /\ AddImageBorder.add_border id id [img33] (-3) (S754_zero false) 9 8 7
     = Ok ([img33], [replicate 3 (replicate 3 np.f32_zero)]).
Proof.
  split; [split_and!; (exact image_array_img33 || lia)|].
  apply (add_border_no_border id id img33 [] (-3) 9 8 7 3 3 image_array_img33);
    lia.
Defined.

Lemma add_border_needs_three_channels_witness :
  let rgba : ndarray := [[[10; 20; 30; 255]]] in
  (image_array 1 1 4 rgba
   /\ 0 < Z.of_nat 1 < 2 ^ 63 /\ 0 < Z.of_nat 1 < 2 ^ 63
   /\ ratio_in_range (S754_zero false) /\ 4%nat <> 3%nat)
  /\ AddImageBorder.add_border id id [rgba] 10 (S754_zero false) 0 0 0
     = Raise ValueError.
Proof.
  intros rgba.
  assert (image_array 1 1 4 rgba) as Himg.
  { split; [split; [reflexivity|]|]; repeat constructor. }
  assert (ratio_in_range (S754_zero false)) as Hr by (left; reflexivity).
  split; [split_and!; (exact Himg || exact Hr || lia)|].
  apply (add_border_needs_three_channels id id rgba [] 10 _ 0 0 0 1 1 4 Himg);
    (exact Hr || lia).
Defined.

Lemma add_border_then_trim_witness :
  (image_array 3 3 3 img33
   /\ 0 < Z.of_nat 3 < 2 ^ 63 /\ 0 < Z.of_nat 3 < 2 ^ 63 /\ 0 <= 2
   /\ ratio_in_range (S754_zero false)
   /\ luma_601 [0 mod 256; 0 mod 256; 0 mod 256] <= 10
   /\ bright luma_601 10 img33 1 2)
  /\ exists (bordered : ndarray) mask (trimmed : ndarray),
      AddImageBorder.add_border id id [img33] 2 (S754_zero false) 0 0 0
      = Ok ([bordered], [mask])
      /\ TrimImageBorders.run id id luma_601 [img33] 10 = Ok [trimmed]
      /\ forall (t' : ndarray) rest',
          t' = bordered ->
          TrimImageBorders.run id id luma_601 (t' :: rest') 10 = Ok [trimmed].
Proof.
  assert (ratio_in_range (S754_zero false)) as Hr by (left; reflexivity).
  assert (bright luma_601 10 img33 1 2) as Hb by (apply bright_img33; lia).
  assert (luma_601 [0 mod 256; 0 mod 256; 0 mod 256] <= 10) as Hd
    by (vm_compute; discriminate).
  split; [split_and!; (exact image_array_img33 || exact Hr || exact Hb
                       || exact Hd || lia)|].
  apply (add_border_then_trim id id luma_601 img33 [] 2 _ 0 0 0 10 3 3 1 2
           image_array_img33); (exact Hr || exact Hb || exact Hd || lia).
Defined.

(** ** Degenerate inputs *)

(** X7.  Division by zero on degenerate images: the megapixel planner raises
    on every image of zero area, the max-dimension planner on an image
    whose sides are both 0, and the reference-side planner, for a size
    other than 0, on an image whose reference side is 0. *)
Theorem degenerate_image_division_by_zero (b h w c : Z) :
  0 <= w < 2 ^ 63 -> 0 <= h < 2 ^ 63 ->
  (forall k, w * h = 0 ->
      ImageScalerForSDModels.execute (b, h, w, c) k = Raise ZeroDivisionError)
  /\ (forall t, Z.max w h = 0 ->
        ComputeImageScaleRatio.execute (b, h, w, c) t
        = Raise ZeroDivisionError)
  /\ (forall size shorter, size <> 0 ->
        ImageScaleBySpecifiedSide.reference_side_length (b, h, w, c) shorter
        = 0 ->
        ImageScaleBySpecifiedSide.execute (b, h, w, c) size shorter
        = Raise ZeroDivisionError).
Proof.
  intros Hw Hh. split_and!.
  - intros k E. unfold ImageScalerForSDModels.execute.
    destruct (ImageScalerForSDModels.target k) as [tw th]. simpl.
    rewrite E. done.
  - intros t E. unfold ComputeImageScaleRatio.execute. simpl.
    rewrite E. done.
  - intros size shorter Hs E. unfold ImageScaleBySpecifiedSide.execute.
    rewrite E.
    assert (exists s, int_truediv 0 size = Ok (S754_zero s)) as [s Es].
    { unfold int_truediv. destruct size as [|p|p]; [done|..]; simpl; eauto. }
    rewrite Es, bind_Ok_l.
    assert (exists x, int_to_float w = Ok x) as [x Ex].
    { destruct (Z.eq_dec w 0) as [->|Hne]; [by eexists|].
      destruct (int_to_float_normal w 63) as (x & Ex & _); [lia..|]. eauto. }
    unfold int_div_float. simpl shape_2. rewrite Ex. done.
Qed.

Lemma degenerate_image_division_by_zero_witness :
  (0 <= 0 < 2 ^ 63 /\ 0 <= 0 < 2 ^ 63)
  /\ ImageScalerForSDModels.execute (1, 0, 0, 3) "sdxl"
     = Raise ZeroDivisionError
  /\ ComputeImageScaleRatio.execute (1, 0, 0, 3) 1920
     = Raise ZeroDivisionError
  /\ ImageScaleBySpecifiedSide.execute (1, 0, 0, 3) 512 false
     = Raise ZeroDivisionError.
Proof.
  split; [lia|].
  destruct (degenerate_image_division_by_zero 1 0 0 3) as (H1 & H2 & H3);
    [lia..|].
  split; [by apply H1|]. split; [by apply H2|]. by apply H3.
Defined.

(** ** Values of float results *)

Lemma pow2_pos (e : Z) : (0 < Qpower 2 e)%Q.
Proof. apply Qpower_0_lt. reflexivity. Qed.

Lemma pow2_plus (a b : Z) : (Qpower 2 (a + b) == Qpower 2 a * Qpower 2 b)%Q.
Proof. apply Qpower_plus. discriminate. Qed.

Lemma pow2_inject (n : Z) : 0 <= n -> (Qpower 2 n == inject_Z (2 ^ n))%Q.
Proof. intros Hn. rewrite Zpower_Qpower by done. reflexivity. Qed.

Lemma fval_shift (m d e : Z) :
  0 <= d -> (fval (m * 2 ^ d) e == fval m (e + d))%Q.
Proof.
  intros Hd. unfold fval.
  rewrite inject_Z_mult, pow2_plus, <- pow2_inject by done. ring.
Qed.

Lemma fval_mono (m m' e : Z) : m <= m' -> (fval m e <= fval m' e)%Q.
Proof.
  intros H. unfold fval. apply Qmult_le_compat_r.
  - by rewrite <- Zle_Qle.
  - apply Qlt_le_weak, pow2_pos.
Qed.

Lemma fval_plus (a b e : Z) : (fval (a + b) e == fval a e + fval b e)%Q.
Proof. unfold fval. rewrite inject_Z_plus. ring. Qed.

Lemma fval_mult (a b e e' : Z) :
  (fval a e * fval b e' == fval (a * b) (e + e'))%Q.
Proof. unfold fval. rewrite inject_Z_mult, pow2_plus. ring. Qed.

Lemma fval_0 (m : Z) : (fval m 0 == inject_Z m)%Q.
Proof. unfold fval. simpl. ring. Qed.

Lemma fval_pos (m e : Z) : 0 < m -> (0 < fval m e)%Q.
Proof.
  intros H. unfold fval. apply Qmult_lt_0_compat; [|apply pow2_pos].
  rewrite Zlt_Qlt in H. exact H.
Qed.

(** A 53-bit mantissa is at least [2^52] units in the last place. *)
Lemma fval_ulp (m e : Z) :
  2 ^ 52 <= m -> (fval 1 e <= ulp_rel * fval m e)%Q.
Proof.
  intros H. unfold fval.
  assert (1 <= ulp_rel * inject_Z m)%Q as H1.
  { rewrite Zle_Qle in H. change (inject_Z (2 ^ 52)) with (4503599627370496 # 1)%Q in H.
    unfold ulp_rel. lra. }
  change (inject_Z 1) with 1%Q. rewrite Qmult_assoc.
  apply Qmult_le_compat_r; [exact H1|]. apply Qlt_le_weak, pow2_pos.
Qed.

Lemma shr_fexp_value (m e : Z) (l : location) :
  0 < m -> 53 <= Zdigits2 m -> -1021 <= Zdigits2 m + e ->
  exists mrs,
    shr_fexp prec emax m e l = (mrs, Zdigits2 m + e - 53)
    /\ shr_m mrs = m / 2 ^ (Zdigits2 m - 53).
Proof.
  intros Hm Hd He.
  unfold shr_fexp, fexp, emin, prec, emax.
  replace (Z.max (Zdigits2 m + e - 53) (3 - 1024 - 53) - e)
    with (Zdigits2 m - 53) by lia.
  destruct (Zdigits2 m - 53) as [|p|p] eqn:Hn; [| |lia].
  - eexists. split.
    + simpl. f_equal. lia.
    + rewrite shr_m_of_loc. simpl. by rewrite Z.div_1_r.
  - eexists. split.
    + simpl. f_equal. lia.
    + rewrite shr_m_iter, shr_m_of_loc by (rewrite shr_m_of_loc; lia). done.
Qed.

(** Rounding a mantissa of at least 53 bits: the result is within one unit
    in the last place of every value between [mx * 2^ex] and
    [(mx + 1) * 2^ex]. *)
Lemma binary_round_aux_value (mx ex : Z) (lx : location) :
  0 < mx -> 53 <= Zdigits2 mx -> -1021 <= Zdigits2 mx + ex <= 1023 ->
  exists m e,
    binary_round_aux prec emax false mx ex lx = S754_finite false m e
    /\ Zdigits2 (Z.pos m) = 53
    /\ Zdigits2 mx + ex <= 53 + e <= Zdigits2 mx + ex + 1
    /\ ex <= e
    /\ (Z.pos m - 1) * 2 ^ (e - ex) <= mx
    /\ mx + 1 <= (Z.pos m + 1) * 2 ^ (e - ex).
Proof.
  intros Hm Hd He.
  destruct (shr_fexp_value mx ex lx) as (mrs' & E1 & V1); [lia..|].
  destruct (shr_fexp_normal mx ex lx) as (mrs0 & E0 & B1); [lia..|].
  rewrite E1 in E0. injection E0 as <-.
  unfold binary_round_aux. rewrite E1.
  pose proof (round_nearest_even_bounds (shr_m mrs') (loc_of_shr_record mrs')) as B2.
  set (m1 := round_nearest_even (shr_m mrs') (loc_of_shr_record mrs')) in *.
  set (n := Zdigits2 mx - 53) in *.
  assert (0 <= n) as Hn by (unfold n; lia).
  assert (0 < 2 ^ n) as Hp by (apply Z.pow_pos_nonneg; lia).
  assert (shr_m mrs' * 2 ^ n <= mx < (shr_m mrs' + 1) * 2 ^ n) as Hq.
  { rewrite V1. pose proof (Z.mul_div_le mx (2 ^ n) Hp).
    pose proof (Z.mul_succ_div_gt mx (2 ^ n) Hp). lia. }
  destruct (Z.eq_dec m1 (2 ^ 53)) as [E53|Hne].
  - destruct (shr_fexp_value m1 (Zdigits2 mx + ex - 53) loc_Exact)
      as (mrs'' & E2 & V2); [rewrite E53; done..| rewrite E53; simpl; lia |].
    rewrite E2. rewrite E53 in V2. change (Zdigits2 (2 ^ 53)) with 54 in V2.
    change (2 ^ 53 / 2 ^ (54 - 53)) with (2 ^ 52) in V2.
    rewrite V2. rewrite E53. change (Zdigits2 (2 ^ 53)) with 54.
    change (2 ^ 52) with (Z.pos 4503599627370496).
    cbv iota beta.
    replace (54 + (Zdigits2 mx + ex - 53) - 53 <=? emax - prec)
      with true by (symmetry; apply Z.leb_le; unfold emax, prec; lia).
    eexists _, _. split; [done|]. split; [done|]. split; [lia|]. split; [lia|].
    replace (54 + (Zdigits2 mx + ex - 53) - 53 - ex) with (n + 1) by (unfold n; lia).
    rewrite Z.pow_add_r by lia. change (2 ^ 1) with 2.
    change (2 ^ 53) with 9007199254740992 in *.
    assert (shr_m mrs' = 9007199254740991) as E' by lia.
    rewrite E' in Hq. lia.
  - assert (Zdigits2 m1 = 53) as Hd1
      by (apply Zdigits2_unique; [change (53 - 1) with 52|]; lia).
    destruct (shr_fexp_value m1 (Zdigits2 mx + ex - 53) loc_Exact)
      as (mrs'' & E2 & V2); [lia..|].
    rewrite E2. rewrite Hd1 in V2 |- *. change (2 ^ (53 - 53)) with 1 in V2.
    rewrite Z.div_1_r in V2. rewrite V2.
    destruct m1 as [|m|m] eqn:Em; [lia| |lia].
    replace (53 + (Zdigits2 mx + ex - 53) - 53 <=? emax - prec)
      with true by (symmetry; apply Z.leb_le; unfold emax, prec; lia).
    eexists _, _. split; [done|]. split; [done|]. split; [lia|]. split; [lia|].
    replace (53 + (Zdigits2 mx + ex - 53) - 53 - ex) with n by (unfold n; lia).
    nia.
Qed.

Lemma binary_round_aux_close (mx ex : Z) (lx : location) :
  0 < mx -> 53 <= Zdigits2 mx -> -1021 <= Zdigits2 mx + ex <= 1023 ->
  exists m e,
    binary_round_aux prec emax false mx ex lx = S754_finite false m e
    /\ Zdigits2 (Z.pos m) = 53
    /\ Zdigits2 mx + ex <= 53 + e <= Zdigits2 mx + ex + 1
    /\ forall x : Q, (fval mx ex <= x <= fval (mx + 1) ex)%Q ->
                     close (fval (Z.pos m) e) x.
Proof.
  intros Hm Hd He.
  destruct (binary_round_aux_value mx ex lx Hm Hd He)
    as (m & e & E & Hdm & Hmag & Hle & Hlo & Hhi).
  exists m, e. split; [done|]. split; [done|]. split; [done|].
  intros x [Hx1 Hx2].
  pose proof (Zdigits2_spec (Z.pos m) eq_refl) as [Bm _].
  rewrite Hdm in Bm. change (53 - 1) with 52 in Bm.
  pose proof (fval_ulp (Z.pos m) e Bm) as Hu.
  assert (fval (Z.pos m - 1) e <= fval mx ex)%Q as L1.
  { replace e with (ex + (e - ex)) at 1 by lia.
    rewrite <- fval_shift by lia. by apply fval_mono. }
  assert (fval (mx + 1) ex <= fval (Z.pos m + 1) e)%Q as L2.
  { replace e with (ex + (e - ex)) by lia.
    rewrite <- fval_shift by lia. by apply fval_mono. }
  replace (Z.pos m - 1) with (Z.pos m + -1) in L1 by lia.
  rewrite fval_plus in L1. rewrite (fval_plus (Z.pos m) 1 e) in L2.
  assert (fval (-1) e == - fval 1 e)%Q as En by (unfold fval; simpl; ring).
  rewrite En in L1.
  unfold close, ulp_rel in *. lra.
Qed.

Lemma value_finite (m : positive) (e : Z) :
  value (S754_finite false m e) = fval (Z.pos m) e.
Proof. reflexivity. Qed.

Lemma normal_in_value_pos (lo hi : Z) (x : float) :
  normal_in lo hi x -> (0 < value x)%Q.
Proof. intros (m & e & -> & _). rewrite value_finite. by apply fval_pos. Qed.

Lemma close_scale (v x y : Q) :
  (0 < y)%Q -> close v (x / y) -> close (v * y) x.
Proof.
  intros Hy [H1 H2]. unfold close.
  assert (x / y * y == x)%Q as E by (field; lra).
  apply (Qmult_le_compat_r _ _ y) in H1; [|lra].
  apply (Qmult_le_compat_r _ _ y) in H2; [|lra].
  rewrite E in H1, H2. lra.
Qed.

Lemma close_pos (v x : Q) : (0 < v)%Q -> close v x -> (0 < x)%Q.
Proof. intros Hv [H1 _]. unfold ulp_rel in *. lra. Qed.

(** [float(n)] is within one unit in the last place of [n]. *)
Lemma binary_round_close (p : positive) :
  Zdigits2 (Z.pos p) <= 1023 ->
  exists m e,
    binary_round prec emax false p 0 = S754_finite false m e
    /\ Zdigits2 (Z.pos m) = 53
    /\ Zdigits2 (Z.pos p) <= 53 + e <= Zdigits2 (Z.pos p) + 1
    /\ close (fval (Z.pos m) e) (inject_Z (Z.pos p)).
Proof.
  intros Hd. pose proof (Zdigits2_pos (Z.pos p) eq_refl) as Hd0.
  unfold binary_round, shl_align, fexp, emin, prec, emax.
  change (Z.pos (digits2_pos p)) with (Zdigits2 (Z.pos p)).
  replace (Z.max (Zdigits2 (Z.pos p) + 0 - 53) (3 - 1024 - 53) - 0)
    with (Zdigits2 (Z.pos p) - 53) by lia.
  replace (Z.max (Zdigits2 (Z.pos p) + 0 - 53) (3 - 1024 - 53))
    with (Zdigits2 (Z.pos p) - 53) by lia.
  assert (forall x : Q, x <= x + fval 1 0)%Q as Hone.
  { intros x. pose proof (fval_pos 1 0 eq_refl). lra. }
  destruct (Zdigits2 (Z.pos p) - 53) as [|d|d] eqn:Hn.
  - destruct (binary_round_aux_close (Z.pos p) 0 loc_Exact)
      as (m & e & E & Hm & He & Hc); [lia..|].
    exists m, e. split; [done|]. split; [done|]. split; [lia|].
    apply Hc. rewrite fval_plus, fval_0. split; [lra|apply Hone].
  - destruct (binary_round_aux_close (Z.pos p) 0 loc_Exact)
      as (m & e & E & Hm & He & Hc); [lia..|].
    exists m, e. split; [done|]. split; [done|]. split; [lia|].
    apply Hc. rewrite fval_plus, fval_0. split; [lra|apply Hone].
  - assert (Zdigits2 (Z.pos (Pos.iter xO p d)) = 53) as Ed.
    { rewrite Pos_iter_xO, Zdigits2_mul_pow2; lia. }
    destruct (binary_round_aux_close (Z.pos (Pos.iter xO p d)) (Z.neg d) loc_Exact)
      as (m & e & E & Hm & He & Hc); [lia|lia|lia|].
    exists m, e. split; [done|]. split; [done|]. split; [lia|].
    apply Hc. rewrite fval_plus, Pos_iter_xO, fval_shift by lia.
    replace (Z.neg d + Z.pos d) with 0 by lia. rewrite fval_0.
    pose proof (fval_pos 1 (Z.neg d) eq_refl). lra.
Qed.

Lemma int_to_float_close (n k : Z) :
  0 < n < 2 ^ k -> k <= 1022 ->
  exists x, int_to_float n = Ok x /\ normal_in 1 (k + 1) x
            /\ close (value x) (inject_Z n).
Proof.
  intros Hn Hk. destruct n as [|p|p]; [lia| |lia].
  pose proof (Zdigits2_le (Z.pos p) k Hn).
  pose proof (Zdigits2_pos (Z.pos p) eq_refl).
  destruct (binary_round_close p) as (m & e & E & Hm & He & Hc); [lia|].
  exists (S754_finite false m e). split; [|split].
  - unfold int_to_float. simpl. rewrite E. done.
  - exists m, e. repeat split; [done|lia..].
  - done.
Qed.

(** The integer quotient computed by the division core, with the shift
    it applied to the dividend. *)
Lemma SFdiv_core_value (m1 e1 m2 e2 : Z) :
  0 < m1 -> 0 < m2 ->
  -1021 <= Zdigits2 m1 + e1 - (Zdigits2 m2 + e2) ->
  exists q e l s,
    SFdiv_core_binary prec emax m1 e1 m2 e2 = (q, e, l)
    /\ 0 < q /\ 53 <= Zdigits2 q
    /\ Zdigits2 m1 + e1 - (Zdigits2 m2 + e2) <= Zdigits2 q + e
       <= Zdigits2 m1 + e1 - (Zdigits2 m2 + e2) + 1
    /\ 0 <= s /\ e + s = e1 - e2
    /\ q * m2 <= m1 * 2 ^ s < (q + 1) * m2.
Proof.
  intros H1 H2 HD.
  unfold SFdiv_core_binary, fexp, emin, prec, emax.
  set (d1 := Zdigits2 m1) in *. set (d2 := Zdigits2 m2) in *.
  set (e' := Z.min (Z.max (d1 + e1 - (d2 + e2) - 53) (3 - 1024 - 53)) (e1 - e2)).
  set (s := e1 - e2 - e').
  assert (0 <= s /\ d2 - d1 + 53 <= s) as [Hs0 Hs] by (unfold s, e'; lia).
  set (m' := match s with Z.pos _ => Z.shiftl m1 s | 0 => m1 | Z.neg _ => 0 end).
  assert (m' = m1 * 2 ^ s) as Em'.
  { unfold m'. destruct s as [|p|p] eqn:Es; [simpl; lia| |lia].
    apply Z.shiftl_mul_pow2. lia. }
  assert (0 < m') as Hm'.
  { rewrite Em'. apply Z.mul_pos_pos; [done|]. apply Z.pow_pos_nonneg; lia. }
  assert (Zdigits2 m' = d1 + s) as Ed.
  { rewrite Em'. apply Zdigits2_mul_pow2; lia. }
  destruct (div_digits m' m2) as (Hq & Hq1 & Hq2); [done|done|fold d2; lia|].
  pose proof (Z.mul_div_le m' m2 H2) as Q1.
  pose proof (Z.mul_succ_div_gt m' m2 H2) as Q2.
  destruct (Z.div_eucl m' m2) as [q r] eqn:Eqr.
  assert (m' / m2 = q) as Eq by (unfold Z.div; rewrite Eqr; done).
  rewrite Eq in *. fold d2 in Hq1, Hq2.
  exists q, e', (new_location m2 r), s. split; [done|].
  split; [done|]. split; [lia|]. split; [unfold s in *; lia|].
  split; [done|]. split; [unfold s; lia|]. rewrite <- Em'. lia.
Qed.

(** The correctly rounded quotient of [m1 * 2^e1] by [m2 * 2^e2]. *)
Lemma div_round_close (m1 e1 m2 e2 : Z) :
  0 < m1 -> 0 < m2 ->
  -1021 <= Zdigits2 m1 + e1 - (Zdigits2 m2 + e2) <= 1022 ->
  exists m e,
    (let '(q, e', l) := SFdiv_core_binary prec emax m1 e1 m2 e2 in
     binary_round_aux prec emax false q e' l) = S754_finite false m e
    /\ Zdigits2 (Z.pos m) = 53
    /\ Zdigits2 m1 + e1 - (Zdigits2 m2 + e2) <= 53 + e
       <= Zdigits2 m1 + e1 - (Zdigits2 m2 + e2) + 2
    /\ close (fval (Z.pos m) e * fval m2 e2) (fval m1 e1).
Proof.
  intros H1 H2 HD.
  destruct (SFdiv_core_value m1 e1 m2 e2)
    as (q & e' & l & s & E & Hq & Hdq & Hmag & Hs & He' & Hq1 & Hq2);
    [done|done|lia|].
  rewrite E.
  destruct (binary_round_aux_close q e' l) as (m & e & E2 & Hm & He & Hc);
    [lia..|].
  exists m, e. split; [done|]. split; [done|]. split; [lia|].
  pose proof (fval_pos m2 e2 H2) as Hy.
  apply close_scale; [done|]. apply Hc.
  assert (fval m1 e1 == fval (m1 * 2 ^ s) (e' + e2))%Q as Ex.
  { rewrite fval_shift by done. replace (e' + e2 + s) with e1 by lia. reflexivity. }
  split.
  - apply Qle_shift_div_l; [done|].
    rewrite fval_mult, Ex. by apply fval_mono.
  - apply Qle_shift_div_r; [done|].
    rewrite fval_mult, Ex. apply fval_mono. lia.
Qed.

Lemma SFdiv_close (x y : float) (lx hx ly hy : Z) :
  normal_in lx hx x -> normal_in ly hy y ->
  -1021 <= lx - hy -> hx - ly <= 1022 ->
  normal_in (lx - hy) (hx - ly + 2) (SFdiv prec emax x y)
  /\ close (value (SFdiv prec emax x y) * value y) (value x).
Proof.
  intros (mx & ex & -> & Hdx & Hx) (my & ey & -> & Hdy & Hy) Hlo Hhi.
  destruct (div_round_close (Z.pos mx) ex (Z.pos my) ey)
    as (m & e & E & Hm & He & Hc); [done|done|lia|].
  simpl SFdiv. rewrite E. split.
  - exists m, e. repeat split; [done|lia..].
  - done.
Qed.

Lemma int_truediv_close (a b ka kb : Z) :
  0 < a < 2 ^ ka -> 0 < b < 2 ^ kb -> ka <= 1021 -> kb <= 1021 ->
  exists x, int_truediv a b = Ok x /\ normal_in (1 - kb) (ka + 1) x
            /\ close (value x * inject_Z b) (inject_Z a).
Proof.
  intros Ha Hb Hka Hkb.
  destruct a as [|pa|pa]; [lia| |lia]. destruct b as [|pb|pb]; [lia| |lia].
  pose proof (Zdigits2_le _ _ Ha). pose proof (Zdigits2_le _ _ Hb).
  pose proof (Zdigits2_pos (Z.pos pa) eq_refl).
  pose proof (Zdigits2_pos (Z.pos pb) eq_refl).
  destruct (div_round_close (Z.pos pa) 0 (Z.pos pb) 0)
    as (m & e & E & Hm & He & Hc); [done|done|lia|].
  exists (S754_finite false m e). split; [|split].
  - unfold int_truediv. simpl. simpl in E. rewrite E. done.
  - exists m, e. repeat split; [done|lia..].
  - unfold close in *. rewrite !fval_0 in Hc. done.
Qed.

Lemma float_truediv_close (x y : float) (lx hx ly hy : Z) :
  normal_in lx hx x -> normal_in ly hy y ->
  -1021 <= lx - hy -> hx - ly <= 1022 ->
  exists z, float_truediv x y = Ok z /\ normal_in (lx - hy) (hx - ly + 2) z
            /\ close (value z * value y) (value x).
Proof.
  intros Hx Hy Hlo Hhi. exists (SFdiv prec emax x y).
  destruct (SFdiv_close x y _ _ _ _ Hx Hy Hlo Hhi) as [Hn Hc].
  split; [|done]. destruct Hy as (my & ey & -> & _). done.
Qed.

Lemma float_mul_close (x y : float) (lx hx ly hy : Z) :
  normal_in lx hx x -> normal_in ly hy y ->
  -1021 <= lx + ly - 1 -> hx + hy <= 1023 ->
  normal_in (lx + ly - 1) (hx + hy + 1) (float_mul x y)
  /\ close (value (float_mul x y)) (value x * value y).
Proof.
  intros (mx & ex & -> & Hdx & Hx) (my & ey & -> & Hdy & Hy) Hlo Hhi.
  unfold float_mul. simpl SFmul.
  pose proof (Zdigits2_spec (Z.pos mx) eq_refl) as Bx.
  pose proof (Zdigits2_spec (Z.pos my) eq_refl) as By.
  rewrite Hdx in Bx. rewrite Hdy in By.
  change (53 - 1) with 52 in *.
  assert (105 <= Zdigits2 (Z.pos (mx * my)) <= 106) as Hd.
  { rewrite Pos2Z.inj_mul. split.
    - apply Zdigits2_ge; [lia|]. change (2 ^ (105 - 1)) with (2 ^ 52 * 2 ^ 52). nia.
    - apply Zdigits2_le. change (2 ^ 106) with (2 ^ 53 * 2 ^ 53). nia. }
  destruct (binary_round_aux_close (Z.pos (mx * my)) (ex + ey) loc_Exact)
    as (m & e & E & Hm & He & Hc); [lia..|].
  rewrite E. split.
  - exists m, e. repeat split; [done|lia..].
  - rewrite !value_finite. apply Hc.
    rewrite fval_mult, <- Pos2Z.inj_mul. split; [lra|].
    apply fval_mono. lia.
Qed.

(** [round] returns an integer within 1/2 of its argument. *)
Lemma round_half_even_pos_value (m : positive) (e : Z) :
  (inject_Z (round_half_even_pos m e) - (1 # 2) <= fval (Z.pos m) e
   /\ fval (Z.pos m) e <= inject_Z (round_half_even_pos m e) + (1 # 2))%Q.
Proof.
  unfold round_half_even_pos. destruct e as [|p|p].
  - rewrite Z.shiftl_0_r, fval_0. lra.
  - rewrite Z.shiftl_mul_pow2 by lia.
    rewrite <- (fval_0 (Z.pos m * 2 ^ Z.pos p)), fval_shift by lia.
    rewrite Z.add_0_l.
    generalize (fval (Z.pos m) (Z.pos p)). intros; lra.
  - rewrite Z.shiftl_mul_pow2 by lia. rewrite Z.mul_1_l.
    set (d := 2 ^ Z.pos p).
    assert (0 < d) as Hd by (apply Z.pow_pos_nonneg; lia).
    pose proof (Z.div_mod (Z.pos m) d ltac:(lia)) as Hdm.
    pose proof (Z.mod_pos_bound (Z.pos m) d Hd) as Hr.
    set (q := Z.pos m / d) in *. set (r := Z.pos m mod d) in *.
    assert (forall z : Z,
              2 * (z * d) <= 2 * Z.pos m + d /\ 2 * Z.pos m <= 2 * (z * d) + d ->
              (inject_Z z - (1 # 2) <= fval (Z.pos m) (Z.neg p)
               /\ fval (Z.pos m) (Z.neg p) <= inject_Z z + (1 # 2))%Q) as Hgen.
    { intros z [Hz1 Hz2].
      assert (inject_Z (Z.pos m) == fval (Z.pos m) (Z.neg p) * inject_Z d)%Q as E.
      { rewrite <- (fval_0 d). rewrite fval_mult.
        unfold d. rewrite fval_shift by lia.
        replace (Z.neg p + 0 + Z.pos p) with 0 by lia. rewrite fval_0.
        reflexivity. }
      rewrite Zle_Qle in Hz1, Hz2.
      rewrite !inject_Z_plus, !inject_Z_mult in Hz1, Hz2.
      rewrite E in Hz1, Hz2.
      assert (0 < inject_Z d)%Q as HdQ by (rewrite Zlt_Qlt in Hd; exact Hd).
      change (inject_Z 2) with 2%Q in *.
      split.
      - apply (Qmult_le_r _ _ (inject_Z d)); [done|]. lra.
      - apply (Qmult_le_r _ _ (inject_Z d)); [done|]. lra. }
    destruct (2 * r ?= d) eqn:Ec.
    + apply Z.compare_eq in Ec. destruct (Z.even q); apply Hgen; nia.
    + rewrite Z.compare_lt_iff in Ec. apply Hgen; nia.
    + rewrite Z.compare_gt_iff in Ec. apply Hgen; nia.
Qed.

Lemma round_close (x : float) (lo hi : Z) :
  normal_in lo hi x ->
  exists z, round x = Ok z /\ 0 <= z
            /\ (inject_Z z - (1 # 2) <= value x <= inject_Z z + (1 # 2))%Q.
Proof.
  intros (m & e & -> & _). eexists. split; [done|]. split.
  - apply round_half_even_pos_nonneg.
  - rewrite value_finite. apply round_half_even_pos_value.
Qed.

(** ** Accuracy of the dimension planners *)

Lemma make_even_mono (a b : Z) : a <= b -> make_even a <= make_even b.
Proof.
  intros H. unfold make_even.
  pose proof (Z.div_mod a 2 ltac:(lia)). pose proof (Z.div_mod b 2 ltac:(lia)).
  pose proof (Z.div_le_mono a b 2 ltac:(lia) H). lia.
Qed.

Lemma close_mul_r (v x y : Q) : (0 <= y)%Q -> close v x -> close (v * y) (x * y).
Proof.
  intros Hy [H1 H2]. unfold close.
  apply (Qmult_le_compat_r _ _ y) in H1; [|done].
  apply (Qmult_le_compat_r _ _ y) in H2; [|done].
  lra.
Qed.

Lemma Qlt_succ_Zle (z t : Z) : (inject_Z z < inject_Z t + 1)%Q -> z <= t.
Proof.
  intros H. change 1%Q with (inject_Z 1) in H.
  rewrite <- inject_Z_plus, <- Zlt_Qlt in H. lia.
Qed.

(** Three roundings of a product with a ratio: [n * (t / M)] for
    [n <= M] rounds to at most [t], and to [t] when [n = M]. *)
Lemma scaled_side_le (n M t z : Z) (vr vx vp : Q) :
  0 < n <= M -> 0 <= t <= 99999 ->
  (0 < vr)%Q ->
  close (vr * inject_Z M) (inject_Z t) ->
  close vx (inject_Z n) ->
  close vp (vx * vr) ->
  (inject_Z z - (1 # 2) <= vp <= inject_Z z + (1 # 2))%Q ->
  z <= t /\ (n = M -> z = t).
Proof.
  intros Hn Ht Hr Cr Cx Cp Hz.
  apply (close_mul_r _ _ vr) in Cx; [|lra].
  assert (inject_Z n * vr <= vr * inject_Z M)%Q as Hle.
  { rewrite (Qmult_comm vr). apply Qmult_le_compat_r; [|lra].
    rewrite <- Zle_Qle. lia. }
  assert (0 <= inject_Z t <= 99999)%Q as HtQ.
  { change 0%Q with (inject_Z 0). change 99999%Q with (inject_Z 99999).
    rewrite <- !Zle_Qle. done. }
  split.
  - apply Qlt_succ_Zle.
    revert Cr Cx Cp Hz Hle HtQ. unfold close, ulp_rel.
    generalize (vx * vr)%Q (inject_Z n * vr)%Q (vr * inject_Z M)%Q
      (inject_Z t) (inject_Z z). intros; lra.
  - intros ->. apply Z.le_antisymm.
    + apply Qlt_succ_Zle.
      revert Cr Cx Cp Hz Hle HtQ. unfold close, ulp_rel.
      generalize (vx * vr)%Q (inject_Z M * vr)%Q (vr * inject_Z M)%Q
        (inject_Z t) (inject_Z z). intros; lra.
    + apply Qlt_succ_Zle.
      assert (inject_Z M * vr == vr * inject_Z M)%Q as E by ring.
      revert Cr Cx Cp Hz E HtQ. unfold close, ulp_rel.
      generalize (vx * vr)%Q (inject_Z M * vr)%Q (vr * inject_Z M)%Q
        (inject_Z t) (inject_Z z). intros; lra.
Qed.

(** X8.  The max-dimension planner turns the longer side into the target,
    rounded down to an even number, and the other side into no more. *)
Theorem scale_ratio_longer_side (b h w c target_max_size : Z) :
  0 < w < 2 ^ 63 -> 0 < h < 2 ^ 63 -> 0 <= target_max_size <= 99999 ->
  exists rescale_ratio new_width new_height,
    ComputeImageScaleRatio.execute (b, h, w, c) target_max_size
    = Ok (rescale_ratio, new_width, new_height)
    /\ Z.max new_width new_height = make_even target_max_size
    /\ (h <= w -> new_width = make_even target_max_size)
    /\ (w <= h -> new_height = make_even target_max_size).
Proof.
  intros Hw Hh Ht.
  unfold ComputeImageScaleRatio.execute. simpl.
  destruct (int_to_float_close w 63 Hw) as (xw & Exw & Nxw & Cw); [lia|].
  destruct (int_to_float_close h 63 Hh) as (xh & Exh & Nxh & Ch); [lia|].
  destruct (Z.eq_dec target_max_size 0) as [->|Hne].
  - exists (S754_zero false), 0, 0.
    assert (int_truediv 0 (Z.max w h) = Ok (S754_zero false)) as E.
    { unfold int_truediv. destruct (Z.max w h) eqn:Em; [lia| |lia]. done. }
    destruct Nxw as (mw & ew & -> & _). destruct Nxh as (mh & eh & -> & _).
    unfold int_mul_float. rewrite E, Exw, Exh. simpl. done.
  - destruct (int_truediv_close target_max_size (Z.max w h) 17 63)
      as (s & Es & Ns & Cs); [change (2 ^ 17) with 131072; lia|lia|lia|lia|].
    destruct (float_mul_close xw s _ _ _ _ Nxw Ns ltac:(lia) ltac:(lia))
      as [Nfw Cfw].
    destruct (float_mul_close xh s _ _ _ _ Nxh Ns ltac:(lia) ltac:(lia))
      as [Nfh Cfh].
    destruct (round_close _ _ _ Nfw) as (rw & Erw & Hrw & Vrw).
    destruct (round_close _ _ _ Nfh) as (rh & Erh & Hrh & Vrh).
    pose proof (normal_in_value_pos _ _ _ Ns) as Hs.
    destruct (scaled_side_le w (Z.max w h) target_max_size rw
                (value s) (value xw) (value (float_mul xw s)))
      as [Lw Ew]; [lia|lia|done..|].
    destruct (scaled_side_le h (Z.max w h) target_max_size rh
                (value s) (value xh) (value (float_mul xh s)))
      as [Lh Eh]; [lia|lia|done..|].
    exists s, (make_even rw), (make_even rh).
    unfold int_mul_float. rewrite Es, Exw, Exh. simpl.
    rewrite Erw. simpl. rewrite Erh. simpl. split; [done|].
    pose proof (make_even_mono _ _ Lw). pose proof (make_even_mono _ _ Lh).
    assert (h <= w -> rw = target_max_size) as E1 by (intros; apply Ew; lia).
    assert (w <= h -> rh = target_max_size) as E2 by (intros; apply Eh; lia).
    split; [|split].
    + destruct (Z.le_ge_cases h w) as [Hc|Hc].
      * rewrite (E1 Hc) in *. lia.
      * rewrite (E2 Hc) in *. lia.
    + intros Hc. by rewrite (E1 Hc).
    + intros Hc. by rewrite (E2 Hc).
Qed.

Lemma scale_ratio_longer_side_witness :
  (0 < 4000 < 2 ^ 63 /\ 0 < 3000 < 2 ^ 63 /\ 0 <= 1921 <= 99999)
  /\ exists rescale_ratio new_width new_height,
      ComputeImageScaleRatio.execute (1, 3000, 4000, 3) 1921
      = Ok (rescale_ratio, new_width, new_height)
      /\ Z.max new_width new_height = make_even 1921
      /\ (3000 <= 4000 -> new_width = make_even 1921)
      /\ (4000 <= 3000 -> new_height = make_even 1921).
Proof.
  split; [lia|].
  apply (scale_ratio_longer_side 1 3000 4000 3 1921); lia.
Defined.

(** One side of the reference-side planner: [n / (ref / size)] rounds to
    at most [size] when [n <= ref] and to at least [size] when [ref <= n]. *)
Lemma divided_side (n ref size z : Z) (vs vx vp : Q) :
  0 < n -> 0 < ref -> 0 < size <= 99999 ->
  (0 < vs)%Q ->
  close (vs * inject_Z size) (inject_Z ref) ->
  close vx (inject_Z n) ->
  close (vp * vs) vx ->
  (inject_Z z - (1 # 2) <= vp <= inject_Z z + (1 # 2))%Q ->
  (n <= ref -> z <= size) /\ (ref <= n -> size <= z).
Proof.
  intros Hn Hr Hs Hv Cs Cx Cp Hz.
  assert (0 < inject_Z size <= 99999)%Q as HsQ.
  { change 0%Q with (inject_Z 0). change 99999%Q with (inject_Z 99999).
    rewrite <- Zle_Qle, <- Zlt_Qlt. done. }
  split; intros Hc; rewrite Zle_Qle in Hc.
  - assert ((1 - ulp_rel) * (1 - ulp_rel) * vp
            <= (1 + ulp_rel) * inject_Z size)%Q as Hp.
    { apply (Qmult_le_r _ _ vs); [done|].
      assert ((1 - ulp_rel) * (1 - ulp_rel) * vp * vs
              == (1 - ulp_rel) * (1 - ulp_rel) * (vp * vs))%Q as -> by ring.
      assert ((1 + ulp_rel) * inject_Z size * vs
              == (1 + ulp_rel) * (vs * inject_Z size))%Q as -> by ring.
      clear Hz HsQ. revert Cs Cx Cp Hc. unfold close, ulp_rel.
      generalize (vp * vs)%Q (vs * inject_Z size)%Q (inject_Z n) (inject_Z ref).
      intros; lra. }
    apply Qlt_succ_Zle. clear - Hp Hz HsQ. revert Hp Hz HsQ. unfold ulp_rel.
    generalize (inject_Z size) (inject_Z z). intros; lra.
  - assert ((1 - ulp_rel) * inject_Z size
            <= (1 + ulp_rel) * (1 + ulp_rel) * vp)%Q as Hp.
    { apply (Qmult_le_r _ _ vs); [done|].
      assert ((1 + ulp_rel) * (1 + ulp_rel) * vp * vs
              == (1 + ulp_rel) * (1 + ulp_rel) * (vp * vs))%Q as -> by ring.
      assert ((1 - ulp_rel) * inject_Z size * vs
              == (1 - ulp_rel) * (vs * inject_Z size))%Q as -> by ring.
      clear Hz HsQ. revert Cs Cx Cp Hc. unfold close, ulp_rel.
      generalize (vp * vs)%Q (vs * inject_Z size)%Q (inject_Z n) (inject_Z ref).
      intros; lra. }
    apply Qlt_succ_Zle. clear - Hp Hz HsQ. revert Hp Hz HsQ. unfold ulp_rel.
    generalize (inject_Z size) (inject_Z z). intros; lra.
Qed.

(** X9.  The reference-side planner turns the reference side into the
    requested size, rounded down to an even number: the longer output
    side in the default mode, the shorter one (also returned as
    [min_dimension]) in [shorter] mode. *)
Theorem by_side_reference_side (b h w c size : Z) (shorter : bool) :
  0 < w < 2 ^ 63 -> 0 < h < 2 ^ 63 -> 0 < size <= 99999 ->
  exists width height,
    ImageScaleBySpecifiedSide.execute (b, h, w, c) size shorter
    = Ok (width, height, Z.min width height)
    /\ (if shorter then Z.min width height else Z.max width height)
       = make_even size.
Proof.
  intros Hw Hh Hs.
  pose proof (reference_side_bounds b h w c shorter Hw Hh) as Hr.
  unfold ImageScaleBySpecifiedSide.execute.
  assert (ImageScaleBySpecifiedSide.reference_side_length (b, h, w, c) shorter
          = if shorter then Z.min w h else Z.max w h) as Eref by done.
  set (reference := ImageScaleBySpecifiedSide.reference_side_length _ _) in *.
  destruct (int_truediv_close reference size 63 17) as (s & Es & Ns & Cs);
    [done|change (2 ^ 17) with 131072; lia|lia|lia|].
  destruct (int_to_float_close w 63 Hw) as (xw & Exw & Nxw & Cw); [lia|].
  destruct (int_to_float_close h 63 Hh) as (xh & Exh & Nxh & Ch); [lia|].
  destruct (float_truediv_close xw s _ _ _ _ Nxw Ns) as (fw & Efw & Nfw & Cfw);
    [lia|lia|].
  destruct (float_truediv_close xh s _ _ _ _ Nxh Ns) as (fh & Efh & Nfh & Cfh);
    [lia|lia|].
  destruct (round_close _ _ _ Nfw) as (rw & Erw & Hrw & Vrw).
  destruct (round_close _ _ _ Nfh) as (rh & Erh & Hrh & Vrh).
  pose proof (normal_in_value_pos _ _ _ Ns) as Hv.
  destruct (divided_side w reference size rw (value s) (value xw) (value fw))
    as [Uw Lw]; [lia|lia|lia|done..|].
  destruct (divided_side h reference size rh (value s) (value xh) (value fh))
    as [Uh Lh]; [lia|lia|lia|done..|].
  exists (make_even rw), (make_even rh).
  unfold int_div_float. simpl. rewrite Es, Exw, Exh. simpl.
  rewrite Efw. simpl. rewrite Erw. simpl. rewrite Efh. simpl.
  rewrite Erh. simpl. split; [done|].
  pose proof (make_even_mono rw size). pose proof (make_even_mono size rw).
  pose proof (make_even_mono rh size). pose proof (make_even_mono size rh).
  destruct shorter; lia.
Qed.

Lemma by_side_reference_side_witness :
  (0 < 1000 < 2 ^ 63 /\ 0 < 500 < 2 ^ 63 /\ 0 < 301 <= 99999)
  /\ exists width height,
      ImageScaleBySpecifiedSide.execute (1, 500, 1000, 3) 301 true
      = Ok (width, height, Z.min width height)
      /\ Z.min width height = make_even 301.
Proof.
  split; [lia|].
  apply (by_side_reference_side 1 500 1000 3 301 true); lia.
Defined.

Lemma value_le_pow2 (lo hi : Z) (x : float) :
  0 <= hi -> normal_in lo hi x -> (value x <= inject_Z (2 ^ hi))%Q.
Proof.
  intros Hhi (m & e & -> & Hd & He). rewrite value_finite.
  pose proof (Zdigits2_spec (Z.pos m) eq_refl) as [_ Hm]. rewrite Hd in Hm.
  apply Qle_trans with (fval (1 * 2 ^ 53) e).
  - apply fval_mono. lia.
  - rewrite fval_shift by lia. unfold fval.
    change (inject_Z 1) with 1%Q. rewrite Qmult_1_l, <- pow2_inject by done.
    apply Qpower_le_compat_l; [lia|]. discriminate.
Qed.

Lemma inject_Z_pos (n : Z) : 0 < n -> (0 < inject_Z n)%Q.
Proof. intros H. rewrite Zlt_Qlt in H. exact H. Qed.

(** Two sides scaled by one factor [s <= 2^12] and rounded: the cross
    products differ by less than half the sum of the sides, plus 1/2. *)
Lemma scaled_pair_cross (w h W H : Z) (s vw vh pw ph : Q) :
  0 < w -> 0 < h -> w * h <= 2 ^ 36 ->
  (0 < s <= 4096)%Q ->
  close vw (inject_Z w) -> close vh (inject_Z h) ->
  close pw (vw * s) -> close ph (vh * s) ->
  (inject_Z W - (1 # 2) <= pw <= inject_Z W + (1 # 2))%Q ->
  (inject_Z H - (1 # 2) <= ph <= inject_Z H + (1 # 2))%Q ->
  2 * (W * h) <= 2 * (H * w) + (w + h).
Proof.
  intros Hw Hh Hwh Hs Cw Ch Cpw Cph HW HH.
  assert (2 * (W * h) < 2 * (H * w) + (w + h) + 1); [|lia].
  rewrite Zlt_Qlt, !inject_Z_plus, !inject_Z_mult.
  change (inject_Z 2) with 2%Q. change (inject_Z 1) with 1%Q.
  apply inject_Z_pos in Hw, Hh.
  rewrite Zle_Qle, inject_Z_mult in Hwh.
  change (inject_Z (2 ^ 36)) with 68719476736%Q in Hwh.
  apply (close_mul_r _ _ s) in Cw; [|lra].
  apply (close_mul_r _ _ s) in Ch; [|lra].
  revert Hw Hh Hwh Cw Ch HW HH.
  generalize (inject_Z w) (inject_Z h) (inject_Z W) (inject_Z H).
  clear w h W H. intros w h W H Hw Hh Hwh Cw Ch HW HH.
  assert ((1 - ulp_rel) * (1 - ulp_rel) * pw <= w * s)%Q as A1.
  { revert Cw Cpw. unfold close, ulp_rel.
    generalize (vw * s)%Q (w * s)%Q. intros; lra. }
  assert (h * s <= (1 + ulp_rel) * (1 + ulp_rel) * ph)%Q as A2.
  { revert Ch Cph. unfold close, ulp_rel.
    generalize (vh * s)%Q (h * s)%Q. intros; lra. }
  apply (Qmult_le_compat_r _ _ h) in A1; [|lra].
  apply (Qmult_le_compat_r _ _ w) in A2; [|lra].
  assert (W * h <= pw * h + (1 # 2) * h)%Q as B1.
  { assert (W * h <= (pw + (1 # 2)) * h)%Q as B
      by (apply Qmult_le_compat_r; lra). lra. }
  assert (ph * w - (1 # 2) * w <= H * w)%Q as B2.
  { assert ((ph - (1 # 2)) * w <= H * w)%Q as B
      by (apply Qmult_le_compat_r; lra). lra. }
  assert (0 <= w * h * s <= 281474976710656)%Q as HP.
  { split.
    - apply Qmult_le_0_compat; [apply Qmult_le_0_compat|]; lra.
    - assert (w * h * s <= 68719476736 * 4096)%Q as B
        by (apply Qmult_le_compat_nonneg; split;
            [apply Qmult_le_0_compat| | |]; lra).
      lra. }
  assert ((1 - ulp_rel) * (1 - ulp_rel) * (pw * h) <= w * h * s)%Q as A1'.
  { assert ((1 - ulp_rel) * (1 - ulp_rel) * (pw * h)
            == (1 - ulp_rel) * (1 - ulp_rel) * pw * h)%Q as -> by ring.
    assert (w * h * s == w * s * h)%Q as -> by ring. exact A1. }
  assert (w * h * s <= (1 + ulp_rel) * (1 + ulp_rel) * (ph * w))%Q as A2'.
  { assert ((1 + ulp_rel) * (1 + ulp_rel) * (ph * w)
            == (1 + ulp_rel) * (1 + ulp_rel) * ph * w)%Q as -> by ring.
    assert (w * h * s == h * s * w)%Q as -> by ring. exact A2. }
  clear - Hw Hh B1 B2 HP A1' A2'.
  revert B1 B2 HP A1' A2'. unfold ulp_rel.
  generalize (W * h)%Q (H * w)%Q (pw * h)%Q (ph * w)%Q (w * h * s)%Q.
  intros; lra.
Qed.

(** X10.  The megapixel planner keeps the aspect ratio up to the rounding of
    the two sides: the cross products [width * h] and [height * w]
    differ by at most half the sum of the input sides. *)
Theorem sd_models_aspect_ratio (b h w c : Z) (sd_model_type : string) :
  0 < w -> 0 < h -> w * h <= 2 ^ 36 ->
  exists width height,
    ImageScalerForSDModels.execute (b, h, w, c) sd_model_type
    = Ok (width, height, Z.min width height)
    /\ 2 * Z.abs (width * h - height * w) <= w + h.
Proof.
  intros Hw Hh Hwh.
  assert (w < 2 ^ 37 /\ h < 2 ^ 37) as [Hw' Hh'].
  { change (2 ^ 36) with 68719476736 in Hwh.
    change (2 ^ 37) with 137438953472. nia. }
  unfold ImageScalerForSDModels.execute.
  destruct (ImageScalerForSDModels.target sd_model_type) as [tw th] eqn:Et.
  simpl.
  pose proof (target_pixels _ tw th Et) as Ht.
  destruct (int_truediv_normal (tw * th) (w * h) 21 37) as (q & Eq & Nq);
    [done|change (2 ^ 36) with 68719476736 in Hwh;
          change (2 ^ 37) with 137438953472; nia|lia|lia|].
  destruct (math_sqrt_normal q _ _ Nq) as (s & Es & Ns); [lia|lia|].
  change ((1 - 37 + 1) / 2) with (-18) in Ns.
  change ((21 + 1 + 1) / 2 + 1) with 12 in Ns.
  destruct (int_to_float_close w 37) as (xw & Exw & Nxw & Cw); [lia|lia|].
  destruct (int_to_float_close h 37) as (xh & Exh & Nxh & Ch); [lia|lia|].
  destruct (float_mul_close xw s _ _ _ _ Nxw Ns ltac:(lia) ltac:(lia))
    as [Nfw Cfw].
  destruct (float_mul_close xh s _ _ _ _ Nxh Ns ltac:(lia) ltac:(lia))
    as [Nfh Cfh].
  destruct (round_close _ _ _ Nfw) as (rw & Erw & Hrw & Vrw).
  destruct (round_close _ _ _ Nfh) as (rh & Erh & Hrh & Vrh).
  pose proof (normal_in_value_pos _ _ _ Ns) as Hs.
  pose proof (value_le_pow2 (-18) 12 s ltac:(lia) Ns) as Hs'.
  change (inject_Z (2 ^ 12)) with 4096%Q in Hs'.
  exists rw, rh.
  unfold int_mul_float. rewrite Eq, Exw, Exh. simpl.
  rewrite Es. simpl. rewrite Erw. simpl. rewrite Erh. simpl.
  split; [done|].
  pose proof (scaled_pair_cross w h rw rh (value s) (value xw) (value xh)
                _ _ Hw Hh Hwh (conj Hs Hs') Cw Ch Cfw Cfh Vrw Vrh) as H1.
  rewrite Z.mul_comm in Hwh.
  pose proof (scaled_pair_cross h w rh rw (value s) (value xh) (value xw)
                _ _ Hh Hw Hwh (conj Hs Hs') Ch Cw Cfh Cfw Vrh Vrw) as H2.
  lia.
Qed.

Lemma sd_models_aspect_ratio_witness :
  (0 < 800 /\ 0 < 600 /\ 800 * 600 <= 2 ^ 36)
  /\ exists width height,
      ImageScalerForSDModels.execute (1, 600, 800, 3) "sdxl"
      = Ok (width, height, Z.min width height)
      /\ 2 * Z.abs (width * 600 - height * 800) <= 800 + 600.
Proof.
  split; [lia|].
  apply (sd_models_aspect_ratio 1 600 800 3 "sdxl"); lia.
Defined.

(** The square root of a normal double: the squares of the two
    neighbours of the result enclose the argument. *)
Lemma SFsqrt_value (mx : positive) (ex : Z) :
  Zdigits2 (Z.pos mx) = 53 -> -1021 <= 53 + ex <= 1023 ->
  exists m e,
    SFsqrt prec emax (S754_finite false mx ex) = S754_finite false m e
    /\ Zdigits2 (Z.pos m) = 53
    /\ ex / 2 + 27 <= 53 + e <= ex / 2 + 28
    /\ (fval (Z.pos m - 1) e * fval (Z.pos m - 1) e <= fval (Z.pos mx) ex
        /\ fval (Z.pos mx) ex
           <= fval (Z.pos m + 1) e * fval (Z.pos m + 1) e)%Q.
Proof.
  intros Hdx Hx.
  simpl SFsqrt. unfold SFsqrt_core_binary, fexp, emin, prec, emax.
  rewrite Hdx. rewrite !Z.div2_div.
  pose proof (Z.div_mod ex 2 ltac:(lia)) as Hdm.
  pose proof (Z.mod_pos_bound ex 2 ltac:(lia)) as Hmod.
  assert ((53 + ex + 1) / 2 = ex / 2 + 27) as E1.
  { replace (53 + ex + 1) with (ex + 27 * 2) by lia. apply Z.div_add. lia. }
  rewrite E1.
  replace (Z.min (Z.max (ex / 2 + 27 - 53) (3 - 1024 - 53)) (ex / 2))
    with (ex / 2 - 26) by lia.
  set (e' := ex / 2 - 26).
  set (s := ex - 2 * e').
  assert (s = 52 \/ s = 53) as Hs by (unfold s, e'; lia).
  set (m' := match s with Z.pos _ => Z.shiftl (Z.pos mx) s | 0 => Z.pos mx | Z.neg _ => 0 end).
  pose proof (Zdigits2_spec (Z.pos mx) eq_refl) as Bx.
  rewrite Hdx in Bx. change (53 - 1) with 52 in Bx.
  assert (m' = Z.pos mx * 2 ^ s) as Em'.
  { unfold m'. destruct Hs as [-> | ->]; by rewrite Z.shiftl_mul_pow2. }
  assert (2 ^ 104 <= m' < 2 ^ 106) as Bm.
  { rewrite Em'. destruct Hs as [-> | ->].
    - change (2 ^ 104) with (2 ^ 52 * 2 ^ 52).
      change (2 ^ 106) with (2 ^ 53 * 2 ^ 53). lia.
    - change (2 ^ 104) with (2 ^ 52 * 2 ^ 52).
      change (2 ^ 106) with (2 ^ 53 * 2 ^ 53). lia. }
  pose proof (Z.sqrtrem_spec m' ltac:(lia)) as Hsq.
  destruct (Z.sqrtrem m') as [q r]. destruct Hsq as [Eq Hr].
  assert (2 ^ 52 <= q < 2 ^ 53) as Bq.
  { change (2 ^ 104) with (2 ^ 52 * 2 ^ 52) in Bm.
    change (2 ^ 106) with (2 ^ 53 * 2 ^ 53) in Bm.
    split; [|nia].
    destruct (Z.le_gt_cases (2 ^ 52) q) as [?|Hlt]; [done|].
    assert (q + 1 <= 2 ^ 52) by lia. nia. }
  assert (Zdigits2 q = 53) as Hdq
    by (apply Zdigits2_unique; [change (53 - 1) with 52|]; lia).
  lazymatch goal with
  | |- context [binary_round_aux _ _ _ q e' ?l] =>
      destruct (binary_round_aux_value q e' l)
        as (m & e & E & Hm & He & Hle & Hlo' & Hhi'); [lia|lia|unfold e'; lia|]
  end.
  unfold prec, emax in E. rewrite E.
  exists m, e. split; [done|]. split; [done|]. split; [unfold e' in *; lia|].
  assert (0 < 2 ^ (e - e')) as Hp by (apply Z.pow_pos_nonneg; lia).
  pose proof (Zdigits2_spec (Z.pos m) eq_refl) as [Bm' _].
  rewrite Hm in Bm'. change (53 - 1) with 52 in Bm'.
  assert (fval (Z.pos mx) ex == fval m' (e' + e'))%Q as EX.
  { rewrite Em', fval_shift by lia.
    replace (e' + e' + s) with ex by (unfold s; lia). reflexivity. }
  assert (forall a : Z, fval a e == fval (a * 2 ^ (e - e')) e')%Q as Esh.
  { intros a. rewrite fval_shift by lia.
    replace (e' + (e - e')) with e by lia. reflexivity. }
  split.
  - rewrite EX, Esh, fval_mult. apply fval_mono.
    assert (0 <= (Z.pos m - 1) * 2 ^ (e - e')) as Ha
      by (apply Z.mul_nonneg_nonneg; lia).
    pose proof (Z.mul_le_mono_nonneg _ _ _ _ Ha Hlo' Ha Hlo'). lia.
  - rewrite EX, Esh, fval_mult. apply fval_mono.
    assert (0 <= q + 1) as Hq1 by lia.
    pose proof (Z.mul_le_mono_nonneg _ _ _ _ Hq1 Hhi' Hq1 Hhi'). lia.
Qed.

Lemma math_sqrt_close (x : float) (lx hx : Z) :
  normal_in lx hx x -> -1021 <= lx -> hx <= 1023 ->
  exists y, math_sqrt x = Ok y /\ normal_in ((lx + 1) / 2) ((hx + 1) / 2 + 1) y
    /\ ((1 - ulp_rel) * value y * ((1 - ulp_rel) * value y) <= value x
        /\ value x <= (1 + ulp_rel) * value y * ((1 + ulp_rel) * value y))%Q.
Proof.
  intros (mx & ex & -> & Hdx & Hx) Hlo Hhi.
  destruct (SFsqrt_value mx ex Hdx) as (m & e & E & Hm & He & S1 & S2); [lia|].
  exists (S754_finite false m e). split; [|split].
  - unfold math_sqrt. rewrite E. done.
  - exists m, e. split; [done|]. split; [done|].
    assert ((53 + ex + 1) / 2 = ex / 2 + 27) as E1.
    { replace (53 + ex + 1) with (ex + 27 * 2) by lia. apply Z.div_add. lia. }
    assert ((lx + 1) / 2 <= ex / 2 + 27) as L1.
    { rewrite <- E1. apply Z.div_le_mono; lia. }
    assert (ex / 2 + 27 <= (hx + 1) / 2) as L2.
    { rewrite <- E1. apply Z.div_le_mono; lia. }
    lia.
  - rewrite !value_finite.
    pose proof (Zdigits2_spec (Z.pos m) eq_refl) as [Bm' _].
    rewrite Hm in Bm'. change (53 - 1) with 52 in Bm'.
    pose proof (fval_ulp (Z.pos m) e Bm') as Hu.
    replace (Z.pos m - 1) with (Z.pos m + -1) in S1 by lia.
    rewrite !fval_plus in S1, S2.
    assert (fval (-1) e == - fval 1 e)%Q as En by (unfold fval; simpl; ring).
    rewrite !En in S1.
    pose proof (fval_pos (Z.pos m) e eq_refl) as Hv.
    pose proof (fval_pos 1 e eq_refl) as H1.
    revert S1 S2 Hu Hv H1. unfold ulp_rel.
    generalize (fval (Z.pos m) e) (fval 1 e) (fval (Z.pos mx) ex).
    intros v d X S1 S2 Hu Hv H1. split.
    + eapply Qle_trans; [|exact S1].
      apply Qmult_le_compat_nonneg; split; lra.
    + eapply Qle_trans; [exact S2|].
      apply Qmult_le_compat_nonneg; split; lra.
Qed.

(** Two roundings of a product: [(1-u)^2 p <= x * s <= (1+u)^2 p]. *)
Lemma close_twice (p v x s : Q) :
  (0 <= s)%Q -> close v x -> close p (v * s) ->
  ((1 - ulp_rel) * (1 - ulp_rel) * p <= x * s
   /\ x * s <= (1 + ulp_rel) * (1 + ulp_rel) * p)%Q.
Proof.
  intros Hs Cx Cp. apply (close_mul_r _ _ s) in Cx; [|done].
  revert Cx Cp. unfold close, ulp_rel.
  generalize (v * s)%Q (x * s)%Q. intros; lra.
Qed.

(** The product of the two scaled sides against the pixel budget. *)
Lemma scaled_area (w h t s vq pw ph : Q) :
  (0 < w)%Q -> (0 < h)%Q -> (0 < t <= 2097152)%Q -> (0 < s)%Q ->
  (0 < pw)%Q -> (0 < ph)%Q ->
  close (vq * (w * h)) t ->
  ((1 - ulp_rel) * s * ((1 - ulp_rel) * s) <= vq
   /\ vq <= (1 + ulp_rel) * s * ((1 + ulp_rel) * s))%Q ->
  ((1 - ulp_rel) * (1 - ulp_rel) * pw <= w * s
   /\ w * s <= (1 + ulp_rel) * (1 + ulp_rel) * pw)%Q ->
  ((1 - ulp_rel) * (1 - ulp_rel) * ph <= h * s
   /\ h * s <= (1 + ulp_rel) * (1 + ulp_rel) * ph)%Q ->
  (t - (1 # 8) <= pw * ph /\ pw * ph <= t + (1 # 8))%Q.
Proof.
  intros Hw Hh Ht Hs Hpw Hph Cq [S1 S2] [W1 W2] [H1 H2].
  assert (0 < w * h)%Q as Hwh by (apply Qmult_lt_0_compat; done).
  assert (0 < w * s)%Q as Hws by (apply Qmult_lt_0_compat; done).
  assert (0 < h * s)%Q as Hhs by (apply Qmult_lt_0_compat; done).
  assert (0 < 1 - ulp_rel)%Q as Hu by (unfold ulp_rel; lra).
  assert (0 < 1 + ulp_rel)%Q as Hu' by (unfold ulp_rel; lra).
  (* G = pw * ph against F = (w s) (h s) *)
  assert ((1 - ulp_rel) * (1 - ulp_rel) * pw * ((1 - ulp_rel) * (1 - ulp_rel) * ph)
          <= w * s * (h * s))%Q as G1.
  { apply Qmult_le_compat_nonneg; split; try done;
      repeat apply Qmult_le_0_compat; lra. }
  assert (w * s * (h * s)
          <= (1 + ulp_rel) * (1 + ulp_rel) * pw * ((1 + ulp_rel) * (1 + ulp_rel) * ph))%Q
    as G2.
  { apply Qmult_le_compat_nonneg; split; try done; lra. }
  (* F against E = vq (w h) *)
  apply (Qmult_le_compat_r _ _ (w * h)) in S1; [|lra].
  apply (Qmult_le_compat_r _ _ (w * h)) in S2; [|lra].
  assert ((1 - ulp_rel) * (1 - ulp_rel) * (w * s * (h * s)) <= vq * (w * h))%Q as F1.
  { eapply Qle_trans; [|exact S1]. apply Qle_lteq. right. ring. }
  assert (vq * (w * h) <= (1 + ulp_rel) * (1 + ulp_rel) * (w * s * (h * s)))%Q as F2.
  { eapply Qle_trans; [exact S2|]. apply Qle_lteq. right. ring. }
  assert ((1 - ulp_rel) * (1 - ulp_rel) * pw * ((1 - ulp_rel) * (1 - ulp_rel) * ph)
          == (1 - ulp_rel) * (1 - ulp_rel) * (1 - ulp_rel) * (1 - ulp_rel) * (pw * ph))%Q
    as EG1 by ring.
  assert ((1 + ulp_rel) * (1 + ulp_rel) * pw * ((1 + ulp_rel) * (1 + ulp_rel) * ph)
          == (1 + ulp_rel) * (1 + ulp_rel) * (1 + ulp_rel) * (1 + ulp_rel) * (pw * ph))%Q
    as EG2 by ring.
  rewrite EG1 in G1. rewrite EG2 in G2.
  clear - G1 G2 F1 F2 Cq Ht.
  revert G1 G2 F1 F2 Cq Ht. unfold close, ulp_rel.
  generalize (pw * ph)%Q (w * s * (h * s))%Q (vq * (w * h))%Q.
  intros; lra.
Qed.

(** Rounding both factors of a product to integers. *)
Lemma rounded_product (W H : Z) (pw ph : Q) :
  0 <= W -> 0 <= H -> (0 < pw)%Q -> (0 < ph)%Q ->
  (inject_Z W - (1 # 2) <= pw <= inject_Z W + (1 # 2))%Q ->
  (inject_Z H - (1 # 2) <= ph <= inject_Z H + (1 # 2))%Q ->
  (inject_Z (W * H) - (1 # 2) * (inject_Z W + inject_Z H) - (1 # 4) <= pw * ph
   /\ pw * ph
      <= inject_Z (W * H) + (1 # 2) * (inject_Z W + inject_Z H) + (1 # 4))%Q.
Proof.
  intros HW HH Hpw Hph RW RH. rewrite inject_Z_mult.
  assert (0 <= inject_Z W)%Q as HWq
    by (change 0%Q with (inject_Z 0); rewrite <- Zle_Qle; done).
  assert (0 <= inject_Z H)%Q as HHq
    by (change 0%Q with (inject_Z 0); rewrite <- Zle_Qle; done).
  split.
  - destruct (Z.eq_dec W 0) as [->|HW0]; [|destruct (Z.eq_dec H 0) as [->|HH0]].
    + assert (0 <= pw * ph)%Q by (apply Qmult_le_0_compat; lra).
      change (inject_Z 0) with 0%Q. lra.
    + assert (0 <= pw * ph)%Q by (apply Qmult_le_0_compat; lra).
      change (inject_Z 0) with 0%Q. lra.
    + assert (1 <= inject_Z W)%Q as HW1
        by (change 1%Q with (inject_Z 1); rewrite <- Zle_Qle; lia).
      assert (1 <= inject_Z H)%Q as HH1
        by (change 1%Q with (inject_Z 1); rewrite <- Zle_Qle; lia).
      assert ((inject_Z W - (1 # 2)) * (inject_Z H - (1 # 2)) <= pw * ph)%Q as B
        by (apply Qmult_le_compat_nonneg; split; lra).
      assert ((inject_Z W - (1 # 2)) * (inject_Z H - (1 # 2))
              == inject_Z W * inject_Z H
                 - (1 # 2) * (inject_Z W + inject_Z H) + (1 # 4))%Q as E by ring.
      rewrite E in B. clear - B. revert B.
      generalize (inject_Z W * inject_Z H)%Q (pw * ph)%Q (inject_Z W) (inject_Z H).
      intros; lra.
  - assert (pw * ph <= (inject_Z W + (1 # 2)) * (inject_Z H + (1 # 2)))%Q as B
      by (apply Qmult_le_compat_nonneg; split; lra).
    eapply Qle_trans; [exact B|]. apply Qle_lteq. right. ring.
Qed.

(** X11.  The megapixel planner meets the pixel budget of the preset up to the
    rounding of the two sides: the planned area differs from the budget
    by at most half the sum of the planned sides. *)
Theorem sd_models_pixel_budget (b h w c tw th : Z) (sd_model_type : string) :
  0 < w < 2 ^ 63 -> 0 < h < 2 ^ 63 ->
  ImageScalerForSDModels.target sd_model_type = (tw, th) ->
  exists width height,
    ImageScalerForSDModels.execute (b, h, w, c) sd_model_type
    = Ok (width, height, Z.min width height)
    /\ 2 * Z.abs (width * height - tw * th) <= width + height.
Proof.
  intros Hw Hh Et.
  unfold ImageScalerForSDModels.execute. rewrite Et. simpl.
  pose proof (target_pixels _ tw th Et) as Ht.
  pose proof (mul_lt_pow2 w h Hw Hh) as Hwh.
  destruct (int_truediv_close (tw * th) (w * h) 21 126) as (q & Eq & Nq & Cq);
    [done|done|lia|lia|].
  destruct (math_sqrt_close q _ _ Nq) as (s & Es & Ns & Cs); [lia|lia|].
  change ((1 - 126 + 1) / 2) with (-62) in Ns.
  change ((21 + 1 + 1) / 2 + 1) with 12 in Ns.
  destruct (int_to_float_close w 63 Hw) as (xw & Exw & Nxw & Cw); [lia|].
  destruct (int_to_float_close h 63 Hh) as (xh & Exh & Nxh & Ch); [lia|].
  destruct (float_mul_close xw s _ _ _ _ Nxw Ns ltac:(lia) ltac:(lia))
    as [Nfw Cfw].
  destruct (float_mul_close xh s _ _ _ _ Nxh Ns ltac:(lia) ltac:(lia))
    as [Nfh Cfh].
  destruct (round_close _ _ _ Nfw) as (rw & Erw & Hrw & Vrw).
  destruct (round_close _ _ _ Nfh) as (rh & Erh & Hrh & Vrh).
  pose proof (normal_in_value_pos _ _ _ Ns) as Hs.
  pose proof (normal_in_value_pos _ _ _ Nfw) as Hpw.
  pose proof (normal_in_value_pos _ _ _ Nfh) as Hph.
  exists rw, rh.
  unfold int_mul_float. rewrite Eq, Exw, Exh. simpl.
  rewrite Es. simpl. rewrite Erw. simpl. rewrite Erh. simpl.
  split; [done|].
  pose proof (close_twice _ _ _ _ (Qlt_le_weak _ _ Hs) Cw Cfw) as Tw.
  pose proof (close_twice _ _ _ _ (Qlt_le_weak _ _ Hs) Ch Cfh) as Th.
  rewrite inject_Z_mult in Cq.
  assert (0 < inject_Z (tw * th) <= 2097152)%Q as HtQ.
  { change 0%Q with (inject_Z 0). change 2097152%Q with (inject_Z (2 ^ 21)).
    rewrite <- Zle_Qle, <- Zlt_Qlt. lia. }
  pose proof (scaled_area _ _ _ _ _ _ _ (inject_Z_pos w ltac:(lia))
                (inject_Z_pos h ltac:(lia)) HtQ Hs Hpw Hph Cq Cs Tw Th) as Ha.
  pose proof (rounded_product rw rh _ _ Hrw Hrh Hpw Hph Vrw Vrh) as Hr.
  assert (2 * (rw * rh) < 2 * (tw * th) + (rw + rh) + 1
          /\ 2 * (tw * th) < 2 * (rw * rh) + (rw + rh) + 1) as [B1 B2]; [|lia].
  rewrite !Zlt_Qlt, !inject_Z_plus, !(inject_Z_mult 2).
  change (inject_Z 2) with 2%Q. change (inject_Z 1) with 1%Q.
  clear - Ha Hr. revert Ha Hr.
  generalize (value (float_mul xw s) * value (float_mul xh s))%Q
    (inject_Z (rw * rh)) (inject_Z (tw * th)) (inject_Z rw) (inject_Z rh).
  intros; lra.
Qed.

Lemma sd_models_pixel_budget_witness :
  (0 < 800 < 2 ^ 63 /\ 0 < 600 < 2 ^ 63
   /\ ImageScalerForSDModels.target "sdxl+" = (1024, 1280))
  /\ exists width height,
      ImageScalerForSDModels.execute (1, 600, 800, 3) "sdxl+"
      = Ok (width, height, Z.min width height)
      /\ 2 * Z.abs (width * height - 1024 * 1280) <= width + height.
Proof.
  split; [split_and!; (lia || reflexivity)|].
  apply (sd_models_pixel_budget 1 600 800 3 1024 1280 "sdxl+");
    (lia || reflexivity).
Defined.

Lemma Qlt_both_Zeq (z k : Z) :
  (inject_Z z < inject_Z k + 1)%Q -> (inject_Z k < inject_Z z + 1)%Q -> z = k.
Proof. intros H1%Qlt_succ_Zle H2%Qlt_succ_Zle. lia. Qed.

(** When [n * t / M] is an integer [k], three roundings of the product
    of [n] with the ratio [t / M] round to [k]. *)
Lemma scaled_side_exact (n M t k z : Z) (vr vx vp : Q) :
  0 < n -> 0 < M -> 0 <= k <= 99999 -> n * t = k * M ->
  (0 < vr)%Q ->
  close (vr * inject_Z M) (inject_Z t) ->
  close vx (inject_Z n) ->
  close vp (vx * vr) ->
  (inject_Z z - (1 # 2) <= vp <= inject_Z z + (1 # 2))%Q ->
  z = k.
Proof.
  intros Hn HM Hk E Hr Cr Cx Cp Hz.
  pose proof (inject_Z_pos n Hn) as HnQ. pose proof (inject_Z_pos M HM) as HMQ.
  assert (0 <= inject_Z k <= 99999)%Q as HkQ.
  { change 0%Q with (inject_Z 0). change 99999%Q with (inject_Z 99999).
    rewrite <- !Zle_Qle. done. }
  assert (inject_Z t * inject_Z n == inject_Z k * inject_Z M)%Q as EQ.
  { rewrite <- !inject_Z_mult. rewrite (Z.mul_comm t n), E. reflexivity. }
  apply (close_mul_r _ _ (inject_Z n)) in Cr; [|lra].
  destruct Cr as [R1 R2]. rewrite EQ in R1, R2.
  assert ((1 - ulp_rel) * (inject_Z n * vr) <= inject_Z k
          /\ inject_Z k <= (1 + ulp_rel) * (inject_Z n * vr))%Q as [K1 K2].
  { split; apply (Qmult_le_r _ _ (inject_Z M)); try done.
    - eapply Qle_trans; [|exact R1]. apply Qle_lteq. right. ring.
    - eapply Qle_trans; [exact R2|]. apply Qle_lteq. right. ring. }
  destruct (close_twice _ _ _ _ (Qlt_le_weak _ _ Hr) Cx Cp) as [T1 T2].
  clear - K1 K2 T1 T2 HkQ Hz.
  apply Qlt_both_Zeq; revert K1 K2 T1 T2 HkQ Hz; unfold ulp_rel;
    generalize (inject_Z n * vr)%Q (inject_Z k) (inject_Z z); intros; lra.
Qed.

(** X12.  The max-dimension planner is exact whenever the exact scaled sides
    are integers: it returns them, rounded down to even numbers. *)
Theorem scale_ratio_exact (b h w c target_max_size kw kh : Z) :
  0 < w < 2 ^ 63 -> 0 < h < 2 ^ 63 -> 0 <= target_max_size <= 99999 ->
  w * target_max_size = kw * Z.max w h ->
  h * target_max_size = kh * Z.max w h ->
  exists rescale_ratio,
    ComputeImageScaleRatio.execute (b, h, w, c) target_max_size
    = Ok (rescale_ratio, make_even kw, make_even kh).
Proof.
  intros Hw Hh Ht Ekw Ekh.
  unfold ComputeImageScaleRatio.execute. simpl.
  destruct (int_to_float_close w 63 Hw) as (xw & Exw & Nxw & Cw); [lia|].
  destruct (int_to_float_close h 63 Hh) as (xh & Exh & Nxh & Ch); [lia|].
  destruct (Z.eq_dec target_max_size 0) as [->|Hne].
  - exists (S754_zero false).
    assert (kw = 0 /\ kh = 0) as [-> ->] by nia.
    assert (int_truediv 0 (Z.max w h) = Ok (S754_zero false)) as E.
    { unfold int_truediv. destruct (Z.max w h) eqn:Em; [lia| |lia]. done. }
    destruct Nxw as (mw & ew & -> & _). destruct Nxh as (mh & eh & -> & _).
    unfold int_mul_float. rewrite E, Exw, Exh. simpl. done.
  - destruct (int_truediv_close target_max_size (Z.max w h) 17 63)
      as (s & Es & Ns & Cs); [change (2 ^ 17) with 131072; lia|lia|lia|lia|].
    destruct (float_mul_close xw s _ _ _ _ Nxw Ns ltac:(lia) ltac:(lia))
      as [Nfw Cfw].
    destruct (float_mul_close xh s _ _ _ _ Nxh Ns ltac:(lia) ltac:(lia))
      as [Nfh Cfh].
    destruct (round_close _ _ _ Nfw) as (rw & Erw & Hrw & Vrw).
    destruct (round_close _ _ _ Nfh) as (rh & Erh & Hrh & Vrh).
    pose proof (normal_in_value_pos _ _ _ Ns) as Hs.
    assert (0 <= kw <= 99999 /\ 0 <= kh <= 99999) as [Hkw Hkh] by nia.
    pose proof (scaled_side_exact w (Z.max w h) target_max_size kw rw
                  _ _ _ ltac:(lia) ltac:(lia) Hkw Ekw Hs Cs Cw Cfw Vrw) as ->.
    pose proof (scaled_side_exact h (Z.max w h) target_max_size kh rh
                  _ _ _ ltac:(lia) ltac:(lia) Hkh Ekh Hs Cs Ch Cfh Vrh) as ->.
    exists s.
    unfold int_mul_float. rewrite Es, Exw, Exh. simpl.
    rewrite Erw. simpl. rewrite Erh. simpl. done.
Qed.

Lemma scale_ratio_exact_witness :
  (0 < 4000 < 2 ^ 63 /\ 0 < 3000 < 2 ^ 63 /\ 0 <= 2000 <= 99999
   /\ 4000 * 2000 = 2000 * Z.max 4000 3000
   /\ 3000 * 2000 = 1500 * Z.max 4000 3000)
  /\ exists rescale_ratio,
      ComputeImageScaleRatio.execute (1, 3000, 4000, 3) 2000
      = Ok (rescale_ratio, make_even 2000, make_even 1500).
Proof.
  split; [split_and!; (lia || reflexivity)|].
  apply (scale_ratio_exact 1 3000 4000 3 2000 2000 1500);
    (lia || reflexivity).
Defined.

(** When [n * size / ref] is an integer [k] up to [2^49], dividing [n]
    by the ratio [ref / size] rounds to [k]. *)
Lemma divided_side_exact (n ref size k z : Z) (vs vx vp : Q) :
  0 < n -> 0 < ref -> 0 < size -> n * size = k * ref -> k <= 2 ^ 49 ->
  (0 < vs)%Q ->
  close (vs * inject_Z size) (inject_Z ref) ->
  close vx (inject_Z n) ->
  close (vp * vs) vx ->
  (inject_Z z - (1 # 2) <= vp <= inject_Z z + (1 # 2))%Q ->
  z = k.
Proof.
  intros Hn Hr Hs E Hk Hv Cs Cx Cp Hz.
  assert (0 < k) as Hk0 by nia.
  pose proof (inject_Z_pos k Hk0) as HkQ.
  pose proof (inject_Z_pos size Hs) as HsQ.
  assert (inject_Z k <= 562949953421312)%Q as HkQ'.
  { change 562949953421312%Q with (inject_Z (2 ^ 49)). by rewrite <- Zle_Qle. }
  assert (inject_Z ref * inject_Z k == inject_Z n * inject_Z size)%Q as EQ.
  { rewrite <- !inject_Z_mult. rewrite E, (Z.mul_comm ref k). reflexivity. }
  apply (close_mul_r _ _ (inject_Z k)) in Cs; [|lra].
  destruct Cs as [R1 R2]. rewrite EQ in R1, R2.
  assert ((1 - ulp_rel) * (inject_Z k * vs) <= inject_Z n
          /\ inject_Z n <= (1 + ulp_rel) * (inject_Z k * vs))%Q as [K1 K2].
  { split; apply (Qmult_le_r _ _ (inject_Z size)); try done.
    - eapply Qle_trans; [|exact R1]. apply Qle_lteq. right. ring.
    - eapply Qle_trans; [exact R2|]. apply Qle_lteq. right. ring. }
  assert ((1 - ulp_rel) * (1 - ulp_rel) * vp <= (1 + ulp_rel) * inject_Z k
          /\ (1 - ulp_rel) * inject_Z k <= (1 + ulp_rel) * (1 + ulp_rel) * vp)%Q
    as [P1 P2].
  { split; apply (Qmult_le_r _ _ vs); try done.
    - assert ((1 - ulp_rel) * (1 - ulp_rel) * vp * vs
              == (1 - ulp_rel) * (1 - ulp_rel) * (vp * vs))%Q as -> by ring.
      assert ((1 + ulp_rel) * inject_Z k * vs
              == (1 + ulp_rel) * (inject_Z k * vs))%Q as -> by ring.
      clear - K1 K2 Cx Cp. revert K1 K2 Cx Cp. unfold close, ulp_rel.
      generalize (vp * vs)%Q (inject_Z k * vs)%Q (inject_Z n). intros; lra.
    - assert ((1 + ulp_rel) * (1 + ulp_rel) * vp * vs
              == (1 + ulp_rel) * (1 + ulp_rel) * (vp * vs))%Q as -> by ring.
      assert ((1 - ulp_rel) * inject_Z k * vs
              == (1 - ulp_rel) * (inject_Z k * vs))%Q as -> by ring.
      clear - K1 K2 Cx Cp. revert K1 K2 Cx Cp. unfold close, ulp_rel.
      generalize (vp * vs)%Q (inject_Z k * vs)%Q (inject_Z n). intros; lra. }
  clear - P1 P2 HkQ HkQ' Hz.
  apply Qlt_both_Zeq; revert P1 P2 HkQ HkQ' Hz; unfold ulp_rel;
    generalize (inject_Z k) (inject_Z z); intros; lra.
Qed.

(** X13.  The reference-side planner is exact whenever the exact scaled sides
    are integers (up to [2^49]): it returns them, rounded down to even
    numbers.  In particular a size equal to the reference side keeps both
    sides. *)
Theorem by_side_exact (b h w c size : Z) (shorter : bool) (kw kh : Z) :
  0 < w < 2 ^ 63 -> 0 < h < 2 ^ 63 -> 0 < size <= 99999 ->
  w * size
  = kw * ImageScaleBySpecifiedSide.reference_side_length (b, h, w, c) shorter ->
  h * size
  = kh * ImageScaleBySpecifiedSide.reference_side_length (b, h, w, c) shorter ->
  kw <= 2 ^ 49 -> kh <= 2 ^ 49 ->
  ImageScaleBySpecifiedSide.execute (b, h, w, c) size shorter
  = Ok (make_even kw, make_even kh, Z.min (make_even kw) (make_even kh)).
Proof.
  intros Hw Hh Hs Ekw Ekh Hkw Hkh.
  pose proof (reference_side_bounds b h w c shorter Hw Hh) as Hr.
  unfold ImageScaleBySpecifiedSide.execute.
  set (reference := ImageScaleBySpecifiedSide.reference_side_length _ _) in *.
  destruct (int_truediv_close reference size 63 17) as (s & Es & Ns & Cs);
    [done|change (2 ^ 17) with 131072; lia|lia|lia|].
  destruct (int_to_float_close w 63 Hw) as (xw & Exw & Nxw & Cw); [lia|].
  destruct (int_to_float_close h 63 Hh) as (xh & Exh & Nxh & Ch); [lia|].
  destruct (float_truediv_close xw s _ _ _ _ Nxw Ns) as (fw & Efw & Nfw & Cfw);
    [lia|lia|].
  destruct (float_truediv_close xh s _ _ _ _ Nxh Ns) as (fh & Efh & Nfh & Cfh);
    [lia|lia|].
  destruct (round_close _ _ _ Nfw) as (rw & Erw & Hrw & Vrw).
  destruct (round_close _ _ _ Nfh) as (rh & Erh & Hrh & Vrh).
  pose proof (normal_in_value_pos _ _ _ Ns) as Hv.
  pose proof (divided_side_exact w reference size kw rw _ _ _
                ltac:(lia) ltac:(lia) ltac:(lia) Ekw Hkw Hv Cs Cw Cfw Vrw) as ->.
  pose proof (divided_side_exact h reference size kh rh _ _ _
                ltac:(lia) ltac:(lia) ltac:(lia) Ekh Hkh Hv Cs Ch Cfh Vrh) as ->.
  unfold int_div_float. simpl. rewrite Es, Exw, Exh. simpl.
  rewrite Efw. simpl. rewrite Erw. simpl. rewrite Efh. simpl.
  rewrite Erh. simpl. done.
Qed.

Lemma by_side_exact_witness :
  (0 < 1001 < 2 ^ 63 /\ 0 < 500 < 2 ^ 63 /\ 0 < 1001 <= 99999
   /\ 1001 * 1001
      = 1001 * ImageScaleBySpecifiedSide.reference_side_length
                 (1, 500, 1001, 3) false
   /\ 500 * 1001
      = 500 * ImageScaleBySpecifiedSide.reference_side_length
                (1, 500, 1001, 3) false
   /\ 1001 <= 2 ^ 49 /\ 500 <= 2 ^ 49)
  /\ ImageScaleBySpecifiedSide.execute (1, 500, 1001, 3) 1001 false
     = Ok (1000, 500, 500).
Proof.
  split; [split_and!; (lia || reflexivity)|].
  apply (by_side_exact 1 500 1001 3 1001 false 1001 500);
    (lia || reflexivity).
Defined.

(** ** The preset options *)

(** X14.  The declared options of [sd_model_type] are exactly the keys of the
    dimension table: a declared option never takes the fallback, and
    every table entry can be selected. *)
Theorem preset_options_are_table_keys (k : string) :
  k ∈ sd_model_type_options
  <-> is_Some (ImageScalerForSDModels.sd_dimensions !! k).
Proof.
  unfold sd_model_type_options. split.
  - intros H. repeat (apply elem_of_cons in H as [->|H]; [by eexists|]).
    by apply elem_of_nil in H.
  - intros [p E]. unfold ImageScalerForSDModels.sd_dimensions in E.
    repeat (apply lookup_insert_Some in E as [[<- _]|[_ E]]; [set_solver|]).
    apply lookup_singleton_Some in E as [<- _]. set_solver.
Qed.

(** ** Direction of the scaling *)

Lemma inject_Z_mul_le (a b n : Z) :
  a <= b -> 0 <= n -> (inject_Z a * inject_Z n <= inject_Z b * inject_Z n)%Q.
Proof.
  intros H Hn. rewrite <- !inject_Z_mult, <- Zle_Qle.
  by apply Z.mul_le_mono_nonneg_r.
Qed.

(** A side scaled by the ratio [t / M]: it does not grow when [t <= M]
    and does not shrink when [M <= t]. *)
Lemma scaled_side_direction (n M t z : Z) (vr vx vp : Q) :
  0 < n <= M -> 0 < t <= 99999 ->
  (0 < vr)%Q ->
  close (vr * inject_Z M) (inject_Z t) ->
  close vx (inject_Z n) ->
  close vp (vx * vr) ->
  (inject_Z z - (1 # 2) <= vp <= inject_Z z + (1 # 2))%Q ->
  (t <= M -> z <= n) /\ (M <= t -> n <= z).
Proof.
  intros Hn Ht Hr Cr Cx Cp Hz.
  destruct (scaled_side_le n M t z vr vx vp) as [Hzt _]; [lia|lia|done..|].
  pose proof (inject_Z_pos n ltac:(lia)) as HnQ.
  pose proof (inject_Z_pos M ltac:(lia)) as HMQ.
  destruct (close_twice _ _ _ _ (Qlt_le_weak _ _ Hr) Cx Cp) as [T1 T2].
  apply (close_mul_r _ _ (inject_Z n)) in Cr; [|lra].
  destruct Cr as [R1 R2].
  split; intros Hc.
  - destruct (Z_le_gt_dec t n) as [?|Hlt]; [lia|].
    assert ((1 - ulp_rel) * (inject_Z n * vr) <= inject_Z n)%Q as K.
    { apply (Qmult_le_r _ _ (inject_Z M)); [done|].
      pose proof (inject_Z_mul_le t M n Hc ltac:(lia)) as Hle.
      assert ((1 - ulp_rel) * (inject_Z n * vr) * inject_Z M
              == (1 - ulp_rel) * (vr * inject_Z M * inject_Z n))%Q as -> by ring.
      assert (inject_Z n * inject_Z M == inject_Z M * inject_Z n)%Q as -> by ring.
      lra. }
    assert (inject_Z n <= 99999)%Q as HnB.
    { change 99999%Q with (inject_Z 99999). rewrite <- Zle_Qle. lia. }
    apply Qlt_succ_Zle. clear - K T1 Hz HnB HnQ. revert K T1 Hz HnB HnQ.
    unfold ulp_rel. generalize (inject_Z n * vr)%Q (inject_Z n) (inject_Z z).
    intros; lra.
  - assert (inject_Z n <= (1 + ulp_rel) * (inject_Z n * vr))%Q as K.
    { apply (Qmult_le_r _ _ (inject_Z M)); [done|].
      pose proof (inject_Z_mul_le M t n Hc ltac:(lia)) as Hle.
      assert ((1 + ulp_rel) * (inject_Z n * vr) * inject_Z M
              == (1 + ulp_rel) * (vr * inject_Z M * inject_Z n))%Q as -> by ring.
      assert (inject_Z n * inject_Z M == inject_Z M * inject_Z n)%Q as -> by ring.
      lra. }
    assert (inject_Z n <= 99999)%Q as HnB.
    { change 99999%Q with (inject_Z 99999). rewrite <- Zle_Qle. lia. }
    apply Qlt_succ_Zle. clear - K T2 Hz HnB HnQ. revert K T2 Hz HnB HnQ.
    unfold ulp_rel. generalize (inject_Z n * vr)%Q (inject_Z n) (inject_Z z).
    intros; lra.
Qed.

(** X15.  The max-dimension planner never enlarges a side when the target is
    at most the longer side, and never shrinks one (below its even
    rounding) when the target is at least the longer side. *)
Theorem scale_ratio_direction (b h w c target_max_size : Z) :
  0 < w < 2 ^ 63 -> 0 < h < 2 ^ 63 -> 0 <= target_max_size <= 99999 ->
  exists rescale_ratio new_width new_height,
    ComputeImageScaleRatio.execute (b, h, w, c) target_max_size
    = Ok (rescale_ratio, new_width, new_height)
    /\ (target_max_size <= Z.max w h -> new_width <= w /\ new_height <= h)
    /\ (Z.max w h <= target_max_size ->
        make_even w <= new_width /\ make_even h <= new_height).
Proof.
  intros Hw Hh Ht.
  unfold ComputeImageScaleRatio.execute. simpl.
  destruct (int_to_float_close w 63 Hw) as (xw & Exw & Nxw & Cw); [lia|].
  destruct (int_to_float_close h 63 Hh) as (xh & Exh & Nxh & Ch); [lia|].
  destruct (Z.eq_dec target_max_size 0) as [->|Hne].
  - exists (S754_zero false), 0, 0.
    assert (int_truediv 0 (Z.max w h) = Ok (S754_zero false)) as E.
    { unfold int_truediv. destruct (Z.max w h) eqn:Em; [lia| |lia]. done. }
    destruct Nxw as (mw & ew & -> & _). destruct Nxh as (mh & eh & -> & _).
    unfold int_mul_float. rewrite E, Exw, Exh. simpl.
    split; [done|]. split; lia.
  - destruct (int_truediv_close target_max_size (Z.max w h) 17 63)
      as (s & Es & Ns & Cs); [change (2 ^ 17) with 131072; lia|lia|lia|lia|].
    destruct (float_mul_close xw s _ _ _ _ Nxw Ns ltac:(lia) ltac:(lia))
      as [Nfw Cfw].
    destruct (float_mul_close xh s _ _ _ _ Nxh Ns ltac:(lia) ltac:(lia))
      as [Nfh Cfh].
    destruct (round_close _ _ _ Nfw) as (rw & Erw & Hrw & Vrw).
    destruct (round_close _ _ _ Nfh) as (rh & Erh & Hrh & Vrh).
    pose proof (normal_in_value_pos _ _ _ Ns) as Hs.
    destruct (scaled_side_direction w (Z.max w h) target_max_size rw
                (value s) (value xw) (value (float_mul xw s)))
      as [Dw Uw]; [lia|lia|done..|].
    destruct (scaled_side_direction h (Z.max w h) target_max_size rh
                (value s) (value xh) (value (float_mul xh s)))
      as [Dh Uh]; [lia|lia|done..|].
    exists s, (make_even rw), (make_even rh).
    unfold int_mul_float. rewrite Es, Exw, Exh. simpl.
    rewrite Erw. simpl. rewrite Erh. simpl. split; [done|].
    pose proof (make_even_bounds rw). pose proof (make_even_bounds rh).
    split; intros Hc.
    + specialize (Dw Hc). specialize (Dh Hc). lia.
    + split; apply make_even_mono; auto.
Qed.

Lemma scale_ratio_direction_witness :
  (0 < 4000 < 2 ^ 63 /\ 0 < 3000 < 2 ^ 63 /\ 0 <= 1921 <= 99999)
  /\ exists rescale_ratio new_width new_height,
      ComputeImageScaleRatio.execute (1, 3000, 4000, 3) 1921
      = Ok (rescale_ratio, new_width, new_height)
      /\ (1921 <= Z.max 4000 3000 -> new_width <= 4000 /\ new_height <= 3000)
      /\ (Z.max 4000 3000 <= 1921 ->
          make_even 4000 <= new_width /\ make_even 3000 <= new_height).
Proof.
  split; [lia|].
  apply (scale_ratio_direction 1 3000 4000 3 1921); lia.
Defined.

(** A side of at most [2^49] divided by the ratio [ref / size]: it does
    not grow when [size <= ref] and does not shrink when [ref <= size]. *)
Lemma divided_side_direction (n ref size z : Z) (vs vx vp : Q) :
  0 < n <= 2 ^ 49 -> 0 < ref -> 0 < size ->
  (0 < vs)%Q -> (0 < vp)%Q ->
  close (vs * inject_Z size) (inject_Z ref) ->
  close vx (inject_Z n) ->
  close (vp * vs) vx ->
  (inject_Z z - (1 # 2) <= vp <= inject_Z z + (1 # 2))%Q ->
  (size <= ref -> z <= n) /\ (ref <= size -> n <= z).
Proof.
  intros Hn Hr Hs Hv Hp Cs Cx Cp Hz.
  pose proof (inject_Z_pos n ltac:(lia)) as HnQ.
  pose proof (inject_Z_pos size Hs) as HsQ.
  assert (inject_Z n <= 562949953421312)%Q as HnB.
  { change 562949953421312%Q with (inject_Z (2 ^ 49)). rewrite <- Zle_Qle. lia. }
  assert ((1 - ulp_rel) * (1 - ulp_rel) * (vp * vs) <= inject_Z n
          /\ inject_Z n <= (1 + ulp_rel) * (1 + ulp_rel) * (vp * vs))%Q
    as [N1 N2].
  { clear - Cx Cp. revert Cx Cp. unfold close, ulp_rel.
    generalize (vp * vs)%Q (inject_Z n). intros; lra. }
  assert (0 < 1 - ulp_rel)%Q as Hu by (unfold ulp_rel; lra).
  assert (0 < 1 + ulp_rel)%Q as Hu' by (unfold ulp_rel; lra).
  destruct Cs as [S1 S2].
  split; intros Hc; rewrite Zle_Qle in Hc.
  - assert (1 <= (1 + ulp_rel) * vs)%Q as K.
    { apply (Qmult_le_r _ _ (inject_Z size)); [done|].
      assert ((1 + ulp_rel) * vs * inject_Z size
              == (1 + ulp_rel) * (vs * inject_Z size))%Q as -> by ring.
      lra. }
    assert ((1 - ulp_rel) * (1 - ulp_rel) * vp * 1
            <= (1 - ulp_rel) * (1 - ulp_rel) * vp * ((1 + ulp_rel) * vs))%Q as P.
    { apply Qmult_le_compat_nonneg; split;
        first [lra | apply Qle_refl | repeat apply Qmult_le_0_compat; lra]. }
    assert ((1 - ulp_rel) * (1 - ulp_rel) * vp * ((1 + ulp_rel) * vs)
            == (1 + ulp_rel) * ((1 - ulp_rel) * (1 - ulp_rel) * (vp * vs)))%Q
      as E by ring.
    rewrite E in P.
    apply Qlt_succ_Zle. clear - P N1 Hz HnB HnQ. revert P N1 Hz HnB HnQ.
    unfold ulp_rel. generalize (vp * vs)%Q (inject_Z n) (inject_Z z).
    intros; lra.
  - assert ((1 - ulp_rel) * vs <= 1)%Q as K.
    { apply (Qmult_le_r _ _ (inject_Z size)); [done|].
      assert ((1 - ulp_rel) * vs * inject_Z size
              == (1 - ulp_rel) * (vs * inject_Z size))%Q as -> by ring.
      lra. }
    assert ((1 + ulp_rel) * (1 + ulp_rel) * vp * ((1 - ulp_rel) * vs)
            <= (1 + ulp_rel) * (1 + ulp_rel) * vp * 1)%Q as P.
    { apply Qmult_le_compat_nonneg; split;
        first [lra | apply Qle_refl | repeat apply Qmult_le_0_compat; lra]. }
    assert ((1 + ulp_rel) * (1 + ulp_rel) * vp * ((1 - ulp_rel) * vs)
            == (1 - ulp_rel) * ((1 + ulp_rel) * (1 + ulp_rel) * (vp * vs)))%Q
      as E by ring.
    rewrite E in P.
    apply Qlt_succ_Zle. clear - P N2 Hz HnB HnQ. revert P N2 Hz HnB HnQ.
    unfold ulp_rel. generalize (vp * vs)%Q (inject_Z n) (inject_Z z).
    intros; lra.
Qed.

(** X16.  The reference-side planner never enlarges a side when the size is at
    most the reference side, and never shrinks one (below its even
    rounding) when the size is at least the reference side. *)
Theorem by_side_direction (b h w c size : Z) (shorter : bool) :
  0 < w <= 2 ^ 49 -> 0 < h <= 2 ^ 49 -> 0 < size <= 99999 ->
  exists width height,
    ImageScaleBySpecifiedSide.execute (b, h, w, c) size shorter
    = Ok (width, height, Z.min width height)
    /\ (size
        <= ImageScaleBySpecifiedSide.reference_side_length (b, h, w, c) shorter
        -> width <= w /\ height <= h)
    /\ (ImageScaleBySpecifiedSide.reference_side_length (b, h, w, c) shorter
        <= size
        -> make_even w <= width /\ make_even h <= height).
Proof.
  intros Hw Hh Hs.
  assert (0 < w < 2 ^ 63) as Hw' by (change (2 ^ 49) with 562949953421312 in Hw;
                                     change (2 ^ 63) with 9223372036854775808; lia).
  assert (0 < h < 2 ^ 63) as Hh' by (change (2 ^ 49) with 562949953421312 in Hh;
                                     change (2 ^ 63) with 9223372036854775808; lia).
  pose proof (reference_side_bounds b h w c shorter Hw' Hh') as Hr.
  unfold ImageScaleBySpecifiedSide.execute.
  set (reference := ImageScaleBySpecifiedSide.reference_side_length _ _) in *.
  destruct (int_truediv_close reference size 63 17) as (s & Es & Ns & Cs);
    [done|change (2 ^ 17) with 131072; lia|lia|lia|].
  destruct (int_to_float_close w 63 Hw') as (xw & Exw & Nxw & Cw); [lia|].
  destruct (int_to_float_close h 63 Hh') as (xh & Exh & Nxh & Ch); [lia|].
  destruct (float_truediv_close xw s _ _ _ _ Nxw Ns) as (fw & Efw & Nfw & Cfw);
    [lia|lia|].
  destruct (float_truediv_close xh s _ _ _ _ Nxh Ns) as (fh & Efh & Nfh & Cfh);
    [lia|lia|].
  destruct (round_close _ _ _ Nfw) as (rw & Erw & Hrw & Vrw).
  destruct (round_close _ _ _ Nfh) as (rh & Erh & Hrh & Vrh).
  pose proof (normal_in_value_pos _ _ _ Ns) as Hv.
  pose proof (normal_in_value_pos _ _ _ Nfw) as Hpw.
  pose proof (normal_in_value_pos _ _ _ Nfh) as Hph.
  destruct (divided_side_direction w reference size rw
              (value s) (value xw) (value fw)) as [Dw Uw]; [lia|lia|lia|done..|].
  destruct (divided_side_direction h reference size rh
              (value s) (value xh) (value fh)) as [Dh Uh]; [lia|lia|lia|done..|].
  exists (make_even rw), (make_even rh).
  unfold int_div_float. simpl. rewrite Es, Exw, Exh. simpl.
  rewrite Efw. simpl. rewrite Erw. simpl. rewrite Efh. simpl.
  rewrite Erh. simpl. split; [done|].
  pose proof (make_even_bounds rw). pose proof (make_even_bounds rh).
  split; intros Hc.
  - specialize (Dw Hc). specialize (Dh Hc). lia.
  - split; apply make_even_mono; auto.
Qed.

Lemma by_side_direction_witness :
  (0 < 1000 <= 2 ^ 49 /\ 0 < 500 <= 2 ^ 49 /\ 0 < 301 <= 99999)
  /\ exists width height,
      ImageScaleBySpecifiedSide.execute (1, 500, 1000, 3) 301 true
      = Ok (width, height, Z.min width height)
      /\ (301
          <= ImageScaleBySpecifiedSide.reference_side_length
               (1, 500, 1000, 3) true
          -> width <= 1000 /\ height <= 500)
      /\ (ImageScaleBySpecifiedSide.reference_side_length
            (1, 500, 1000, 3) true <= 301
          -> make_even 1000 <= width /\ make_even 500 <= height).
Proof.
  split; [lia|].
  apply (by_side_direction 1 500 1000 3 301 true); lia.
Defined.

Lemma square_le_1 (a y : Q) :
  (0 < a <= 1)%Q -> (0 < y)%Q -> (a * (y * y) <= 1)%Q -> (a * y <= 1)%Q.
Proof.
  intros Ha Hy H. destruct (Qlt_le_dec 1 (a * y)) as [Hlt|]; [|done].
  exfalso.
  assert (a * y <= 1 * y)%Q as H1 by (apply Qmult_le_compat_r; lra).
  assert (1 * 1 < a * y * y)%Q as H2
    by (apply Qmult_lt_compat_nonneg; split; lra).
  assert (a * y * y == a * (y * y))%Q as E by ring.
  rewrite E in H2. lra.
Qed.

Lemma square_ge_1 (a y : Q) :
  (1 <= a)%Q -> (0 < y)%Q -> (1 <= a * (y * y))%Q -> (1 <= a * y)%Q.
Proof.
  intros Ha Hy H. destruct (Qlt_le_dec (a * y) 1) as [Hlt|]; [|done].
  exfalso.
  assert (1 * y <= a * y)%Q as H1 by (apply Qmult_le_compat_r; lra).
  assert (0 < a * y)%Q as H0 by (apply Qmult_lt_0_compat; lra).
  assert (a * y * y < 1 * 1)%Q as H2
    by (apply Qmult_lt_compat_nonneg; split; lra).
  assert (a * y * y == a * (y * y))%Q as E by ring.
  rewrite E in H2. lra.
Qed.

(** A side of at most [2^48] scaled by the square root of [t / a]: it
    does not grow when [t <= a] and does not shrink when [a <= t]. *)
Lemma rooted_side_direction (n z : Z) (a t s vq vx vp : Q) :
  0 < n <= 2 ^ 48 ->
  (0 < a)%Q -> (0 < t)%Q -> (0 < s)%Q -> (0 < vq)%Q -> (0 < vp)%Q ->
  close (vq * a) t ->
  ((1 - ulp_rel) * s * ((1 - ulp_rel) * s) <= vq
   /\ vq <= (1 + ulp_rel) * s * ((1 + ulp_rel) * s))%Q ->
  close vx (inject_Z n) ->
  close vp (vx * s) ->
  (inject_Z z - (1 # 2) <= vp <= inject_Z z + (1 # 2))%Q ->
  ((t <= a)%Q -> z <= n) /\ ((a <= t)%Q -> n <= z).
Proof.
  intros Hn Ha Ht Hs Hq Hp Cq [S1 S2] Cx Cp Hz.
  pose proof (inject_Z_pos n ltac:(lia)) as HnQ.
  assert (inject_Z n <= 281474976710656)%Q as HnB.
  { change 281474976710656%Q with (inject_Z (2 ^ 48)). rewrite <- Zle_Qle. lia. }
  destruct (close_twice _ _ _ _ (Qlt_le_weak _ _ Hs) Cx Cp) as [T1 T2].
  assert (0 < 1 - ulp_rel <= 1)%Q as Hu by (unfold ulp_rel; lra).
  assert (1 <= 1 + ulp_rel)%Q as Hu' by (unfold ulp_rel; lra).
  destruct Cq as [Q1 Q2].
  split; intros Hc.
  - assert ((1 - ulp_rel) * vq <= 1)%Q as K.
    { apply (Qmult_le_r _ _ a); [done|].
      assert ((1 - ulp_rel) * vq * a == (1 - ulp_rel) * (vq * a))%Q as -> by ring.
      lra. }
    assert ((1 - ulp_rel) * ((1 - ulp_rel) * s) <= 1)%Q as K2.
    { apply square_le_1; [done|apply Qmult_lt_0_compat; lra|].
      apply Qle_trans with ((1 - ulp_rel) * vq)%Q; [|done].
      apply Qmult_le_l; lra. }
    assert (inject_Z n * ((1 - ulp_rel) * ((1 - ulp_rel) * s))
            <= inject_Z n * 1)%Q as P by (apply Qmult_le_l; done).
    assert (inject_Z n * ((1 - ulp_rel) * ((1 - ulp_rel) * s))
            == (1 - ulp_rel) * (1 - ulp_rel) * (inject_Z n * s))%Q as E by ring.
    rewrite E in P.
    apply Qlt_succ_Zle. clear - P T1 Hz HnB HnQ. revert P T1 Hz HnB HnQ.
    unfold ulp_rel. generalize (inject_Z n * s)%Q (inject_Z n) (inject_Z z).
    intros; lra.
  - assert (1 <= (1 + ulp_rel) * vq)%Q as K.
    { apply (Qmult_le_r _ _ a); [done|].
      assert ((1 + ulp_rel) * vq * a == (1 + ulp_rel) * (vq * a))%Q as -> by ring.
      lra. }
    assert (1 <= (1 + ulp_rel) * ((1 + ulp_rel) * s))%Q as K2.
    { apply square_ge_1; [done|apply Qmult_lt_0_compat; lra|].
      apply Qle_trans with ((1 + ulp_rel) * vq)%Q; [done|].
      apply Qmult_le_l; lra. }
    assert (inject_Z n * 1
            <= inject_Z n * ((1 + ulp_rel) * ((1 + ulp_rel) * s)))%Q as P
      by (apply Qmult_le_l; done).
    assert (inject_Z n * ((1 + ulp_rel) * ((1 + ulp_rel) * s))
            == (1 + ulp_rel) * (1 + ulp_rel) * (inject_Z n * s))%Q as E by ring.
    rewrite E in P.
    apply Qlt_succ_Zle. clear - P T2 Hz HnB HnQ. revert P T2 Hz HnB HnQ.
    unfold ulp_rel. generalize (inject_Z n * s)%Q (inject_Z n) (inject_Z z).
    intros; lra.
Qed.

(** X17.  The megapixel planner never enlarges a side of an image that has at
    least the preset's pixel budget, and never shrinks a side of an image
    that has at most this budget. *)
Theorem sd_models_direction (b h w c tw th : Z) (sd_model_type : string) :
  0 < w <= 2 ^ 48 -> 0 < h <= 2 ^ 48 ->
  ImageScalerForSDModels.target sd_model_type = (tw, th) ->
  exists width height,
    ImageScalerForSDModels.execute (b, h, w, c) sd_model_type
    = Ok (width, height, Z.min width height)
    /\ (tw * th <= w * h -> width <= w /\ height <= h)
    /\ (w * h <= tw * th -> w <= width /\ h <= height).
Proof.
  intros Hw Hh Et.
  assert (0 < w < 2 ^ 63) as Hw' by (change (2 ^ 48) with 281474976710656 in Hw;
                                     change (2 ^ 63) with 9223372036854775808; lia).
  assert (0 < h < 2 ^ 63) as Hh' by (change (2 ^ 48) with 281474976710656 in Hh;
                                     change (2 ^ 63) with 9223372036854775808; lia).
  unfold ImageScalerForSDModels.execute. rewrite Et. simpl.
  pose proof (target_pixels _ tw th Et) as Ht.
  pose proof (mul_lt_pow2 w h Hw' Hh') as Hwh.
  destruct (int_truediv_close (tw * th) (w * h) 21 126) as (q & Eq & Nq & Cq);
    [done|done|lia|lia|].
  destruct (math_sqrt_close q _ _ Nq) as (s & Es & Ns & Cs); [lia|lia|].
  change ((1 - 126 + 1) / 2) with (-62) in Ns.
  change ((21 + 1 + 1) / 2 + 1) with 12 in Ns.
  destruct (int_to_float_close w 63 Hw') as (xw & Exw & Nxw & Cw); [lia|].
  destruct (int_to_float_close h 63 Hh') as (xh & Exh & Nxh & Ch); [lia|].
  destruct (float_mul_close xw s _ _ _ _ Nxw Ns ltac:(lia) ltac:(lia))
    as [Nfw Cfw].
  destruct (float_mul_close xh s _ _ _ _ Nxh Ns ltac:(lia) ltac:(lia))
    as [Nfh Cfh].
  destruct (round_close _ _ _ Nfw) as (rw & Erw & Hrw & Vrw).
  destruct (round_close _ _ _ Nfh) as (rh & Erh & Hrh & Vrh).
  pose proof (normal_in_value_pos _ _ _ Nq) as Hq.
  pose proof (normal_in_value_pos _ _ _ Ns) as Hs.
  pose proof (normal_in_value_pos _ _ _ Nfw) as Hpw.
  pose proof (normal_in_value_pos _ _ _ Nfh) as Hph.
  exists rw, rh.
  unfold int_mul_float. rewrite Eq, Exw, Exh. simpl.
  rewrite Es. simpl. rewrite Erw. simpl. rewrite Erh. simpl.
  split; [done|].
  pose proof (inject_Z_pos (w * h) ltac:(lia)) as HaQ.
  pose proof (inject_Z_pos (tw * th) ltac:(lia)) as HtQ.
  destruct (rooted_side_direction w rw _ _ _ _ _ _ Hw HaQ HtQ Hs Hq Hpw
              Cq Cs Cw Cfw Vrw) as [Dw Uw].
  destruct (rooted_side_direction h rh _ _ _ _ _ _ Hh HaQ HtQ Hs Hq Hph
              Cq Cs Ch Cfh Vrh) as [Dh Uh].
  rewrite <- Zle_Qle in Dw, Uw, Dh, Uh. split; intros Hc; auto.
Qed.

Lemma sd_models_direction_witness :
  (0 < 4000 <= 2 ^ 48 /\ 0 < 3000 <= 2 ^ 48
   /\ ImageScalerForSDModels.target "sd15" = (512, 512))
  /\ exists width height,
      ImageScalerForSDModels.execute (1, 3000, 4000, 3) "sd15"
      = Ok (width, height, Z.min width height)
      /\ (512 * 512 <= 4000 * 3000 -> width <= 4000 /\ height <= 3000)
      /\ (4000 * 3000 <= 512 * 512 -> 4000 <= width /\ 3000 <= height).
Proof.
  split; [split_and!; (lia || reflexivity)|].
  apply (sd_models_direction 1 3000 4000 3 512 512 "sd15");
    (lia || reflexivity).
Defined.

(** ** Sums and truncations *)

(** Rounding [p * 2^e] to a double. *)
Lemma binary_round_close_at (p : positive) (e : Z) :
  -1021 <= Zdigits2 (Z.pos p) + e <= 1023 ->
  exists m e',
    binary_round prec emax false p e = S754_finite false m e'
    /\ Zdigits2 (Z.pos m) = 53
    /\ Zdigits2 (Z.pos p) + e <= 53 + e' <= Zdigits2 (Z.pos p) + e + 1
    /\ close (fval (Z.pos m) e') (fval (Z.pos p) e).
Proof.
  intros Hd. pose proof (Zdigits2_pos (Z.pos p) eq_refl) as Hd0.
  unfold binary_round, shl_align, fexp, emin, prec, emax.
  change (Z.pos (digits2_pos p)) with (Zdigits2 (Z.pos p)).
  replace (Z.max (Zdigits2 (Z.pos p) + e - 53) (3 - 1024 - 53) - e)
    with (Zdigits2 (Z.pos p) - 53) by lia.
  replace (Z.max (Zdigits2 (Z.pos p) + e - 53) (3 - 1024 - 53))
    with (Zdigits2 (Z.pos p) + e - 53) by lia.
  assert (forall x : Q, x <= x + fval 1 e)%Q as Hone.
  { intros x. pose proof (fval_pos 1 e eq_refl). lra. }
  destruct (Zdigits2 (Z.pos p) - 53) as [|d|d] eqn:Hn.
  - destruct (binary_round_aux_close (Z.pos p) e loc_Exact)
      as (m & e' & E & Hm & He & Hc); [lia..|].
    exists m, e'. split; [done|]. split; [done|]. split; [lia|].
    apply Hc. rewrite fval_plus. split; [lra|apply Hone].
  - destruct (binary_round_aux_close (Z.pos p) e loc_Exact)
      as (m & e' & E & Hm & He & Hc); [lia..|].
    exists m, e'. split; [done|]. split; [done|]. split; [lia|].
    apply Hc. rewrite fval_plus. split; [lra|apply Hone].
  - assert (Zdigits2 (Z.pos (Pos.iter xO p d)) = 53) as Ed.
    { rewrite Pos_iter_xO, Zdigits2_mul_pow2; lia. }
    destruct (binary_round_aux_close (Z.pos (Pos.iter xO p d))
                (Zdigits2 (Z.pos p) + e - 53) loc_Exact)
      as (m & e' & E & Hm & He & Hc); [lia|lia|lia|].
    exists m, e'. split; [done|]. split; [done|]. split; [lia|].
    apply Hc. rewrite fval_plus, Pos_iter_xO, fval_shift by lia.
    replace (Zdigits2 (Z.pos p) + e - 53 + Z.pos d) with e by lia.
    pose proof (fval_pos 1 (Zdigits2 (Z.pos p) + e - 53) eq_refl). lra.
Qed.

Lemma shl_align_fst (m : positive) (e e' : Z) :
  e' <= e -> Z.pos (fst (shl_align m e e')) = Z.pos m * 2 ^ (e - e').
Proof.
  intros H. unfold shl_align.
  destruct (e' - e) as [|d|d] eqn:Hd; [|lia|].
  - replace (e - e') with 0 by lia. simpl. lia.
  - simpl. rewrite Pos_iter_xO. f_equal. f_equal. lia.
Qed.

(** The sum of two positive normal doubles. *)
Lemma float_add_close (x y : float) (lo hi : Z) :
  normal_in lo hi x -> normal_in lo hi y -> -1021 <= lo -> hi <= 1022 ->
  normal_in lo (hi + 2) (float_add x y)
  /\ close (value (float_add x y)) (value x + value y).
Proof.
  intros (mx & ex & -> & Hdx & Hx) (my & ey & -> & Hdy & Hy) Hlo Hhi.
  rewrite !value_finite.
  change (float_add (S754_finite false mx ex) (S754_finite false my ey))
    with (binary_normalize prec emax
            (Z.pos (fst (shl_align mx ex (Z.min ex ey)))
             + Z.pos (fst (shl_align my ey (Z.min ex ey))))
            (Z.min ex ey) false).
  set (ez := Z.min ex ey).
  rewrite !shl_align_fst by (unfold ez; lia).
  set (ax := Z.pos mx * 2 ^ (ex - ez)). set (ay := Z.pos my * 2 ^ (ey - ez)).
  assert (Zdigits2 ax = 53 + (ex - ez)) as Dx
    by (unfold ax; rewrite Zdigits2_mul_pow2, Hdx; unfold ez; lia).
  assert (Zdigits2 ay = 53 + (ey - ez)) as Dy
    by (unfold ay; rewrite Zdigits2_mul_pow2, Hdy; unfold ez; lia).
  assert (0 < ax) as Hax
    by (apply Z.mul_pos_pos; [lia|apply Z.pow_pos_nonneg; unfold ez; lia]).
  assert (0 < ay) as Hay
    by (apply Z.mul_pos_pos; [lia|apply Z.pow_pos_nonneg; unfold ez; lia]).
  pose proof (Zdigits2_spec ax Hax) as [Bx1 Bx2].
  pose proof (Zdigits2_spec ay Hay) as [By1 By2].
  set (k := 53 + (Z.max ex ey - ez)).
  assert (2 ^ (k - 1) <= ax + ay < 2 ^ (k + 1)) as Bs.
  { rewrite Z.pow_add_r by (unfold k, ez; lia). change (2 ^ 1) with 2.
    assert (Zdigits2 ax <= k /\ Zdigits2 ay <= k
            /\ (Zdigits2 ax = k \/ Zdigits2 ay = k)) as (Lx & Ly & Hk)
      by (unfold k, ez; lia).
    assert (2 ^ Zdigits2 ax <= 2 ^ k) by (apply Z.pow_le_mono_r; lia).
    assert (2 ^ Zdigits2 ay <= 2 ^ k) by (apply Z.pow_le_mono_r; lia).
    split; [|lia]. destruct Hk as [E|E]; rewrite E in *; lia. }
  assert (k <= Zdigits2 (ax + ay) <= k + 1) as Ds.
  { split; [apply Zdigits2_ge|apply Zdigits2_le]; lia. }
  destruct (ax + ay) as [|p|p] eqn:Es; [lia| |lia].
  simpl binary_normalize.
  destruct (binary_round_close_at p ez) as (m & e' & E & Hm & He & Hc);
    [unfold k, ez in *; lia|].
  unfold prec, emax in *. rewrite E. split.
  - exists m, e'. split; [done|]. split; [done|]. unfold k, ez in *. lia.
  - rewrite value_finite. unfold close in *.
    assert (fval (Z.pos p) ez == fval (Z.pos mx) ex + fval (Z.pos my) ey)%Q as EV.
    { rewrite <- Es, fval_plus. unfold ax, ay.
      rewrite !fval_shift by (unfold ez; lia).
      replace (ez + (ex - ez)) with ex by lia.
      replace (ez + (ey - ez)) with ey by lia. reflexivity. }
    rewrite <- EV. exact Hc.
Qed.

(** [int] truncates: the result is the integer part of the value. *)
Lemma trunc_pos_value (m : positive) (e : Z) :
  (inject_Z (trunc_pos m e) <= fval (Z.pos m) e
   /\ fval (Z.pos m) e < inject_Z (trunc_pos m e) + 1)%Q.
Proof.
  unfold trunc_pos. destruct e as [|p|p].
  - rewrite Z.shiftl_0_r, fval_0. lra.
  - rewrite Z.shiftl_mul_pow2 by lia.
    rewrite <- (fval_0 (Z.pos m * 2 ^ Z.pos p)), fval_shift by lia.
    rewrite Z.add_0_l. generalize (fval (Z.pos m) (Z.pos p)). intros; lra.
  - rewrite Z.shiftl_mul_pow2 by lia. rewrite Z.mul_1_l.
    set (d := 2 ^ Z.pos p).
    assert (0 < d) as Hd by (apply Z.pow_pos_nonneg; lia).
    pose proof (Z.mul_div_le (Z.pos m) d Hd) as H1.
    pose proof (Z.mul_succ_div_gt (Z.pos m) d Hd) as H2.
    set (q := Z.pos m / d) in *.
    assert (inject_Z (Z.pos m) == fval (Z.pos m) (Z.neg p) * inject_Z d)%Q as E.
    { rewrite <- (fval_0 d). rewrite fval_mult.
      unfold d. rewrite fval_shift by lia.
      replace (Z.neg p + 0 + Z.pos p) with 0 by lia. rewrite fval_0.
      reflexivity. }
    assert (0 < inject_Z d)%Q as HdQ by (by apply inject_Z_pos).
    assert (d * q <= Z.pos m /\ Z.pos m < d * q + d) as [H1' H2'] by lia.
    rewrite Zle_Qle in H1'. rewrite Zlt_Qlt in H2'.
    rewrite inject_Z_plus in H2'. rewrite inject_Z_mult in H1', H2'.
    rewrite E in H1', H2'.
    split.
    + apply (Qmult_le_r _ _ (inject_Z d)); [done|]. lra.
    + apply (Qmult_lt_r _ _ (inject_Z d)); [done|]. lra.
Qed.

(** Floats that are [+0] or positive normal. *)
Lemma value_zero : value (S754_zero false) = 0%Q.
Proof. reflexivity. Qed.

Lemma int_mul_float_bounds (n : Z) (y : float) :
  0 < n < 2 ^ 63 -> ratio_in_range y ->
  exists p,
    int_mul_float n y = Ok p
    /\ (p = S754_zero false \/ normal_in (-1021) 66 p)
    /\ ((1 - ulp_rel) * (1 - ulp_rel) * value p <= inject_Z n * value y
        /\ inject_Z n * value y <= (1 + ulp_rel) * (1 + ulp_rel) * value p)%Q.
Proof.
  intros Hn Hy.
  destruct (int_to_float_close n 63 Hn) as (x & Ex & Nx & Cx); [lia|].
  unfold int_mul_float. rewrite Ex, bind_Ok_l.
  destruct Hy as [-> | Hy].
  - exists (S754_zero false). destruct Nx as (m & e & -> & _).
    split; [done|]. split; [by left|]. rewrite value_zero. lra.
  - destruct (float_mul_close x y _ _ _ _ Nx Hy ltac:(lia) ltac:(lia))
      as [Np Cp].
    exists (float_mul x y). split; [done|]. split.
    + right. eapply normal_in_weaken; [exact Np|lia..].
    + apply (close_twice _ _ _ _ (Qlt_le_weak _ _ (normal_in_value_pos _ _ _ Hy))
               Cx Cp).
Qed.

Lemma float_add_bounds (x y : float) :
  x = S754_zero false \/ normal_in (-1021) 66 x ->
  y = S754_zero false \/ normal_in (-1021) 66 y ->
  (float_add x y = S754_zero false \/ normal_in (-1021) 68 (float_add x y))
  /\ close (value (float_add x y)) (value x + value y).
Proof.
  assert (forall v : Q, 0 <= v -> close v v)%Q as Hrefl.
  { intros v Hv. unfold close, ulp_rel. split; lra. }
  intros [-> | Hx] [-> | Hy].
  - split; [by left|]. apply Hrefl. rewrite value_zero. lra.
  - assert (float_add (S754_zero false) y = y) as ->
      by (destruct Hy as (m & e & -> & _); done).
    split; [right; eapply normal_in_weaken; [exact Hy|lia..]|].
    rewrite value_zero. pose proof (normal_in_value_pos _ _ _ Hy).
    destruct (Hrefl (value y)) as [H1 H2]; [lra|]. unfold close. lra.
  - assert (float_add x (S754_zero false) = x) as ->
      by (destruct Hx as (m & e & -> & _); done).
    split; [right; eapply normal_in_weaken; [exact Hx|lia..]|].
    rewrite value_zero. pose proof (normal_in_value_pos _ _ _ Hx).
    destruct (Hrefl (value x)) as [H1 H2]; [lra|]. unfold close. lra.
  - destruct (float_add_close x y _ _ Hx Hy) as [Hn Hc]; [lia..|].
    split; [right; exact Hn|exact Hc].
Qed.

Lemma int_bounds (x : float) (lo hi : Z) :
  x = S754_zero false \/ normal_in lo hi x ->
  exists z, int x = Ok z /\ 0 <= z
            /\ (inject_Z z <= value x /\ value x < inject_Z z + 1)%Q.
Proof.
  intros [-> | (m & e & -> & _)].
  - exists 0. split; [done|]. split; [done|]. rewrite value_zero.
    change (inject_Z 0) with 0%Q. lra.
  - exists (trunc_pos m e). split; [done|]. split; [apply trunc_pos_nonneg|].
    rewrite value_finite. apply trunc_pos_value.
Qed.

(** ** The proportional border *)

Section add_border_ratio.
Context {tensor : Type}.
Context (tensor2np : tensor -> ndarray) (np2tensor : ndarray -> tensor).

(** X18.  The border computed from [border_ratio] is the integer part of the
    product of the shorter side with the ratio, up to two float roundings
    of relative size [2^-52]; for a ratio of at most 1 (the declared
    maximum) and sides up to [2^50] it never exceeds the shorter side. *)
Theorem add_border_ratio_width (t : tensor) (rest : list tensor)
    (border_width : Z) (border_ratio : float) (r g b : Z) (h w : nat) :
  image_array h w 3 (tensor2np t) ->
  0 < Z.of_nat h < 2 ^ 63 -> 0 < Z.of_nat w < 2 ^ 63 ->
  0 <= border_width -> ratio_in_range border_ratio ->
  exists ratio_width,
    AddImageBorder.add_border tensor2np np2tensor (t :: rest)
      border_width border_ratio r g b
    = Ok ([np2tensor (bordered_array
                        (Z.to_nat (Z.max border_width ratio_width))
                        (tensor2np t) r g b)],
          [border_mask_array (Z.to_nat (Z.max border_width ratio_width)) h w])
    /\ 0 <= ratio_width
    /\ ((1 - ulp_rel) * (1 - ulp_rel) * inject_Z ratio_width
        <= inject_Z (Z.min (Z.of_nat h) (Z.of_nat w)) * value border_ratio
        /\ inject_Z (Z.min (Z.of_nat h) (Z.of_nat w)) * value border_ratio
           < (1 + ulp_rel) * (1 + ulp_rel) * (inject_Z ratio_width + 1))%Q
    /\ ((value border_ratio <= 1)%Q ->
        Z.min (Z.of_nat h) (Z.of_nat w) <= 2 ^ 50 ->
        ratio_width <= Z.min (Z.of_nat h) (Z.of_nat w)).
Proof.
  intros Himg Hh Hw Hbw Hr.
  set (n := Z.min (Z.of_nat h) (Z.of_nat w)).
  assert (0 < n < 2 ^ 63) as Hn by (unfold n; lia).
  destruct (int_mul_float_bounds n border_ratio Hn Hr) as (p & Ep & Np & P1 & P2).
  destruct (int_bounds p _ _ Np) as (z & Ez & Hz & Z1 & Z2).
  exists z. split; [|split; [done|]].
  - apply add_border_result; [done|lia|lia|done|].
    fold n. rewrite Ep, bind_Ok_l. exact Ez.
  - assert (0 <= value p)%Q as Hp.
    { destruct Np as [-> | Np]; [rewrite value_zero; lra|].
      apply Qlt_le_weak. by eapply normal_in_value_pos. }
    split.
    + clear - P1 P2 Z1 Z2 Hp. revert P1 P2 Z1 Z2 Hp. unfold ulp_rel.
      generalize (inject_Z n * value border_ratio)%Q (value p) (inject_Z z).
      intros; lra.
    + intros Hle Hn50.
      assert (inject_Z n * value border_ratio <= inject_Z n * 1)%Q as B.
      { apply Qmult_le_l; [apply inject_Z_pos; lia|done]. }
      assert (0 < inject_Z n <= 1125899906842624)%Q as HnQ.
      { split; [apply inject_Z_pos; lia|].
        change 1125899906842624%Q with (inject_Z (2 ^ 50)).
        by rewrite <- Zle_Qle. }
      apply Qlt_succ_Zle.
      clear - P1 Z1 Hp B HnQ. revert P1 Z1 Hp B HnQ. unfold ulp_rel.
      generalize (inject_Z n * value border_ratio)%Q (value p) (inject_Z z)
        (inject_Z n).
      intros; lra.
Qed.

End add_border_ratio.

Lemma add_border_ratio_width_witness :
  (image_array 3 3 3 img33
   /\ 0 < Z.of_nat 3 < 2 ^ 63 /\ 0 < Z.of_nat 3 < 2 ^ 63 /\ 0 <= 0
   /\ ratio_in_range (of_ratio 1 2))
  /\ exists ratio_width,
      AddImageBorder.add_border id id [img33] 0 (of_ratio 1 2) 0 0 0
      = Ok ([bordered_array (Z.to_nat (Z.max 0 ratio_width)) img33 0 0 0],
            [border_mask_array (Z.to_nat (Z.max 0 ratio_width)) 3 3])
      /\ 0 <= ratio_width
      /\ ((1 - ulp_rel) * (1 - ulp_rel) * inject_Z ratio_width
          <= inject_Z (Z.min (Z.of_nat 3) (Z.of_nat 3)) * value (of_ratio 1 2)
          /\ inject_Z (Z.min (Z.of_nat 3) (Z.of_nat 3)) * value (of_ratio 1 2)
             < (1 + ulp_rel) * (1 + ulp_rel) * (inject_Z ratio_width + 1))%Q
      /\ ((value (of_ratio 1 2) <= 1)%Q ->
          Z.min (Z.of_nat 3) (Z.of_nat 3) <= 2 ^ 50 ->
          ratio_width <= Z.min (Z.of_nat 3) (Z.of_nat 3)).
Proof.
  assert (ratio_in_range (of_ratio 1 2)) as Hr.
  { right. exists 4503599627370496%positive, (-53). split_and!; (reflexivity || lia). }
  split; [split_and!; (exact image_array_img33 || exact Hr || lia)|].
  apply (add_border_ratio_width id id img33 [] 0 (of_ratio 1 2) 0 0 0 3 3
           image_array_img33); (exact Hr || lia).
Defined.

(** ** The expanded canvas of a rotation *)

Lemma int_truediv_two (a : Z) :
  0 <= a < 2 ^ 1021 -> exists x, int_truediv a 2 = Ok x.
Proof.
  intros Ha. destruct (Z.eq_dec a 0) as [->|Hne]; [by eexists|].
  destruct (int_truediv_normal a 2 1021 2) as (x & E & _); [lia..|]. eauto.
Qed.

Lemma zero_or_normal_lt (x : float) (lo hi : Z) (z : Z) :
  0 <= hi -> x = S754_zero false \/ normal_in lo hi x ->
  (inject_Z z <= value x)%Q -> z <= 2 ^ hi.
Proof.
  intros Hhi [-> | Hx] Hz.
  - rewrite value_zero in Hz. change 0%Q with (inject_Z 0) in Hz.
    rewrite <- Zle_Qle in Hz. pose proof (Z.pow_pos_nonneg 2 hi). lia.
  - pose proof (value_le_pow2 _ _ _ Hhi Hx) as H.
    rewrite Zle_Qle. lra.
Qed.

(** One side of the expanded canvas: [int(a * |x| + b * |y|)]. *)
Lemma weighted_abs_sum_bounds (a : Z) (x : float) (b : Z) (y : float) :
  0 < a < 2 ^ 63 -> 0 < b < 2 ^ 63 ->
  ratio_in_range (float_abs x) -> ratio_in_range (float_abs y) ->
  exists z,
    weighted_abs_sum a x b y = Ok z /\ 0 <= z <= 2 ^ 68
    /\ ((1 - ulp_rel) * (1 - ulp_rel) * (1 - ulp_rel) * inject_Z z
        <= inject_Z a * value (float_abs x) + inject_Z b * value (float_abs y)
        /\ inject_Z a * value (float_abs x) + inject_Z b * value (float_abs y)
           < (1 + ulp_rel) * (1 + ulp_rel) * (1 + ulp_rel) * (inject_Z z + 1))%Q.
Proof.
  intros Ha Hb Hx Hy.
  destruct (int_mul_float_bounds a _ Ha Hx) as (p1 & E1 & N1 & A1 & A2).
  destruct (int_mul_float_bounds b _ Hb Hy) as (p2 & E2 & N2 & B1 & B2).
  destruct (float_add_bounds p1 p2 N1 N2) as [Ns [S1 S2]].
  destruct (int_bounds _ _ _ Ns) as (z & Ez & Hz & Z1 & Z2).
  exists z. unfold weighted_abs_sum. rewrite E1, bind_Ok_l, E2, bind_Ok_l.
  split; [done|]. split.
  - split; [done|]. eapply zero_or_normal_lt; [|exact Ns|exact Z1]. lia.
  - assert (0 <= value (float_add p1 p2))%Q as Hs.
    { destruct Ns as [-> | Ns]; [rewrite value_zero; lra|].
      apply Qlt_le_weak. by eapply normal_in_value_pos. }
    clear - A1 A2 B1 B2 S1 S2 Z1 Z2 Hs. revert A1 A2 B1 B2 S1 S2 Z1 Z2 Hs.
    unfold ulp_rel.
    generalize (inject_Z a * value (float_abs x))%Q
      (inject_Z b * value (float_abs y))%Q (value p1) (value p2)
      (value (float_add p1 p2)) (inject_Z z).
    intros; lra.
Qed.

Section rotate_expanded.
Context {tensor : Type}.
Context (tensor2np : tensor -> ndarray) (np2tensor : ndarray -> tensor).
Context (getRotationMatrix2D : float * float -> float -> float -> cv2.mat23).
Context (warpAffine :
  ndarray -> cv2.mat23 -> Z * Z -> cv2.interpolation -> ndarray).

(** X19.  With [expand] set, [ImageRotate.run] returns without error, and the
    canvas it warps onto is the bounding box of the rotated rectangle,
    [h * |sin| + w * |cos|] by [h * |cos| + w * |sin|], with each side
    truncated to an integer: up to three float roundings of relative
    size [2^-52], the canvas is never larger than the box and misses it
    by less than one pixel. *)
Theorem rotate_expanded_canvas_bounds (t : tensor) (rest : list tensor)
    (angle : float) (cos_a sin_a : float) :
  let img := tensor2np t in
  let h := Z.of_nat (np.height img) in
  let w := Z.of_nat (np.width img) in
  0 < h < 2 ^ 63 -> 0 < w < 2 ^ 63 ->
  (forall center,
      cv2.m00 (getRotationMatrix2D center angle ImageRotate.one) = cos_a
      /\ cv2.m01 (getRotationMatrix2D center angle ImageRotate.one) = sin_a) ->
  ratio_in_range (float_abs cos_a) -> ratio_in_range (float_abs sin_a) ->
  exists new_w new_h m,
    ImageRotate.run tensor2np np2tensor getRotationMatrix2D warpAffine
      (t :: rest) angle true
    = Ok [np2tensor (warpAffine img m (new_w, new_h) cv2.INTER_CUBIC)]
    /\ 0 <= new_w /\ 0 <= new_h
    /\ ((1 - ulp_rel) * (1 - ulp_rel) * (1 - ulp_rel) * inject_Z new_w
        <= inject_Z h * value (float_abs sin_a)
           + inject_Z w * value (float_abs cos_a)
        /\ inject_Z h * value (float_abs sin_a)
           + inject_Z w * value (float_abs cos_a)
           < (1 + ulp_rel) * (1 + ulp_rel) * (1 + ulp_rel)
             * (inject_Z new_w + 1))%Q
    /\ ((1 - ulp_rel) * (1 - ulp_rel) * (1 - ulp_rel) * inject_Z new_h
        <= inject_Z h * value (float_abs cos_a)
           + inject_Z w * value (float_abs sin_a)
        /\ inject_Z h * value (float_abs cos_a)
           + inject_Z w * value (float_abs sin_a)
           < (1 + ulp_rel) * (1 + ulp_rel) * (1 + ulp_rel)
             * (inject_Z new_h + 1))%Q.
Proof.
  intros img h w Hh Hw Hrot Hc Hs.
  destruct (weighted_abs_sum_bounds h sin_a w cos_a Hh Hw Hs Hc)
    as (nw & Enw & Hnw & Bnw).
  destruct (weighted_abs_sum_bounds h cos_a w sin_a Hh Hw Hc Hs)
    as (nh & Enh & Hnh & Bnh).
  destruct (int_truediv_normal w 2 63 2) as (cx & Ecx & _); [lia..|].
  destruct (int_truediv_normal h 2 63 2) as (cy & Ecy & _); [lia..|].
  assert (2 ^ 68 < 2 ^ 1021) as Hpow by (apply Z.pow_lt_mono_r; lia).
  destruct (int_truediv_two nw) as (hw & Ehw); [lia|].
  destruct (int_truediv_two nh) as (hh & Ehh); [lia|].
  exists nw, nh.
  eexists. split; [|split; [lia|split; [lia|split; [exact Bnw|exact Bnh]]]].
  unfold ImageRotate.run.
  change (getitem (t :: rest) 0) with (Ok t). rewrite bind_Ok_l.
  fold img. unfold np.shape. fold h w.
  rewrite Ecx, bind_Ok_l, Ecy, bind_Ok_l.
  rewrite expanded_size_canvas.
  destruct (Hrot (cx, cy)) as [-> ->].
  unfold rotated_canvas. rewrite Enw, bind_Ok_l, Enh, bind_Ok_l.
  rewrite bind_Ok_l. rewrite Ehw, bind_Ok_l, Ehh, bind_Ok_l. reflexivity.
Qed.

End rotate_expanded.

Lemma rotate_expanded_canvas_bounds_witness :
  let img : ndarray := replicate 50 (replicate 100 [1; 2; 3]) in
  let ninety := of_ratio 90 1 in
  (0 < Z.of_nat (np.height img) < 2 ^ 63
   /\ 0 < Z.of_nat (np.width img) < 2 ^ 63
   /\ (forall center,
         cv2.m00 (quarter_turn center ninety ImageRotate.one) = cos_quarter
         /\ cv2.m01 (quarter_turn center ninety ImageRotate.one) = sin_quarter)
   /\ ratio_in_range (float_abs cos_quarter)
   /\ ratio_in_range (float_abs sin_quarter))
  /\ exists new_w new_h m,
      ImageRotate.run id id quarter_turn blank_warp [img] ninety true
      = Ok [blank_warp img m (new_w, new_h) cv2.INTER_CUBIC]
      /\ 0 <= new_w /\ 0 <= new_h
      /\ ((1 - ulp_rel) * (1 - ulp_rel) * (1 - ulp_rel) * inject_Z new_w
          <= inject_Z 50 * value (float_abs sin_quarter)
             + inject_Z 100 * value (float_abs cos_quarter)
          /\ inject_Z 50 * value (float_abs sin_quarter)
             + inject_Z 100 * value (float_abs cos_quarter)
             < (1 + ulp_rel) * (1 + ulp_rel) * (1 + ulp_rel)
               * (inject_Z new_w + 1))%Q
      /\ ((1 - ulp_rel) * (1 - ulp_rel) * (1 - ulp_rel) * inject_Z new_h
          <= inject_Z 50 * value (float_abs cos_quarter)
             + inject_Z 100 * value (float_abs sin_quarter)
          /\ inject_Z 50 * value (float_abs cos_quarter)
             + inject_Z 100 * value (float_abs sin_quarter)
             < (1 + ulp_rel) * (1 + ulp_rel) * (1 + ulp_rel)
               * (inject_Z new_h + 1))%Q.
Proof.
  intros img ninety.
  assert (forall center,
      cv2.m00 (quarter_turn center ninety ImageRotate.one) = cos_quarter
      /\ cv2.m01 (quarter_turn center ninety ImageRotate.one) = sin_quarter)
    as Hrot by (intros center; split; reflexivity).
  assert (ratio_in_range (float_abs cos_quarter)) as Hc.
  { right. exists 4967757600021511%positive, (-106).
    split_and!; (reflexivity || lia). }
  assert (ratio_in_range (float_abs sin_quarter)) as Hs.
  { right. exists 4503599627370496%positive, (-52).
    split_and!; (reflexivity || lia). }
  assert (0 < Z.of_nat (np.height img) < 2 ^ 63) as Hh by (vm_compute; done).
  assert (0 < Z.of_nat (np.width img) < 2 ^ 63) as Hw by (vm_compute; done).
  split; [exact (conj Hh (conj Hw (conj Hrot (conj Hc Hs))))|].
  exact (rotate_expanded_canvas_bounds id id quarter_turn blank_warp img []
           ninety cos_quarter sin_quarter Hh Hw Hrot Hc Hs).
Defined.
